(** * Retrieval orchestration core of rag-lab: a shallow embedding

    The Python functions of [backend/techniques] that rank, deduplicate,
    expand and route, and the key rotator of [backend/core/api_keys.py],
    are embedded as Rocq functions.

    Conventions of the embedding
    - Python [int] is [Z]; a Python [float] score is an exact rational [Q]
      (rounding is not modelled, comparisons and sums are exact, and an
      integer divisor is taken to be one that a double can hold, so that
      a division raises on zero only).
    - Python [str] is [string], a sequence of 8-bit characters; the
      character classes ([str.isspace], [str.isalpha], [str.lower]) are
      the ASCII ones.
    - A Python [dict] whose iteration order is observed is an association
      list in insertion order ([odict]); a Python [set] is a [gset].
    - An exception is a value of [exn]; code that may raise returns a
      [result]; code that talks to an external service runs in the monad
      [M], which threads the log of external calls. *)

From Stdlib Require Import ZArith QArith Lqa String Ascii DecimalString.
From stdpp Require Import base option list sorting gmap sets strings.

Set Default Proof Using "Type".
#[local] Set Warnings "-clear-no-such-hyp".
Local Open Scope string_scope.
Local Open Scope list_scope.

(** ** Exceptions and results *)

Inductive exn : Type :=
| ZeroDivisionError
| KeyError (key : string)
| IndexError
| ValueError (msg : string)
| RuntimeError (msg : string).

Inductive result (A : Type) : Type :=
| Ok (a : A)
| Err (e : exn).
Arguments Ok {A} a.
Arguments Err {A} e.

Definition rbind {A B} (r : result A) (f : A → result B) : result B :=
  match r with
  | Ok a => f a
  | Err e => Err e
  end.

Notation "'try!' x ← r ; k" := (rbind r (fun x => k))
  (at level 100, x pattern, r at next level, k at level 200, right associativity,
   format "'[v' 'try!'  x  ←  r ;  '/' k ']'").

(** A [for] loop whose body may raise: the first exception leaves the loop. *)
Fixpoint rfold {A S} (body : S → A → result S) (s : S) (l : list A) : result S :=
  match l with
  | [] => Ok s
  | a :: l' => try! s' ← body s a; rfold body s' l'
  end.

(** A list comprehension whose element expression may raise. *)
Fixpoint rmap {A B} (f : A → result B) (l : list A) : result (list B) :=
  match l with
  | [] => Ok []
  | a :: l' => try! b ← f a; try! bs ← rmap f l'; Ok (b :: bs)
  end.

(** ** Python built-ins *)

Module Py.

(** [l[:n]]: a negative bound counts from the end. *)
Definition slice_to {A} (l : list A) (n : Z) : list A :=
  if (0 <=? n)%Z then take (Z.to_nat n) l
  else take (length l - Z.to_nat (- n)) l.

(** [enumerate(l, start)] *)
Fixpoint enumerate {A} (l : list A) (start : Z) : list (Z * A) :=
  match l with
  | [] => []
  | a :: l' => (start, a) :: enumerate l' (start + 1)
  end.

(** [sorted(l, key=key, reverse=True)]: the sort is stable, also with
    [reverse=True], so an element goes in front of the first element
    whose key is not greater than its own. *)
Fixpoint insert_desc {A} (key : A → Q) (x : A) (l : list A) : list A :=
  match l with
  | [] => [x]
  | y :: l' =>
      if Qle_bool (key y) (key x) then x :: y :: l'
      else y :: insert_desc key x l'
  end.

(** [a > b] on scores *)
Definition gt (a b : Q) : bool := negb (Qle_bool a b).

Definition sorted_reverse {A} (key : A → Q) (l : list A) : list A :=
  foldr (insert_desc key) [] l.

(** *** Dictionaries in insertion order *)

Definition odict (V : Type) : Type := list (string * V).

Fixpoint get {V} (d : odict V) (k : string) : option V :=
  match d with
  | [] => None
  | (k', v) :: d' => if String.eqb k' k then Some v else get d' k
  end.

(** [d[k] = v]: an existing key keeps its position, a new key goes last. *)
Fixpoint set {V} (d : odict V) (k : string) (v : V) : odict V :=
  match d with
  | [] => [(k, v)]
  | (k', v') :: d' =>
      if String.eqb k' k then (k', v) :: d' else (k', v') :: set d' k v
  end.

(** [d[k]] of a plain dict raises [KeyError] on a missing key. *)
Definition getitem {V} (d : odict V) (k : string) : result V :=
  match get d k with
  | Some v => Ok v
  | None => Err (KeyError k)
  end.

(** [d[k]] of a [defaultdict(factory)] read inside an update. *)
Definition get_default {V} (dflt : V) (d : odict V) (k : string) : V :=
  default dflt (get d k).

Definition keys {V} (d : odict V) : list string := d.*1.
Definition values {V} (d : odict V) : list V := d.*2.

(** *** Strings *)

(** [str(n)] of an [int] *)
Definition str_of_int (n : Z) : string := NilZero.string_of_int (Z.to_int n).

(** [len(s)] *)
Definition len (s : string) : Z := Z.of_nat (String.length s).

(** [c.isspace()], ASCII: tab to carriage return, the four separators
    and the blank. *)
Definition isspace (c : ascii) : bool :=
  let n := N_of_ascii c in
  ((9 <=? n) && (n <=? 13) || (28 <=? n) && (n <=? 32))%N.

(** [c.isalpha()], ASCII letters. *)
Definition isalpha (c : ascii) : bool :=
  let n := N_of_ascii c in
  ((65 <=? n) && (n <=? 90) || (97 <=? n) && (n <=? 122))%N.

Definition lower_char (c : ascii) : ascii :=
  let n := N_of_ascii c in
  if ((65 <=? n) && (n <=? 90))%N then ascii_of_N (n + 32) else c.

(** [s.lower()] *)
Fixpoint lower (s : string) : string :=
  match s with
  | EmptyString => EmptyString
  | String c s' => String (lower_char c) (lower s')
  end.

Fixpoint lstrip (s : string) : string :=
  match s with
  | EmptyString => EmptyString
  | String c s' => if isspace c then lstrip s' else s
  end.

Fixpoint rstrip (s : string) : string :=
  match s with
  | EmptyString => EmptyString
  | String c s' =>
      match rstrip s' with
      | EmptyString => if isspace c then EmptyString else String c EmptyString
      | r => String c r
      end
  end.

(** [s.strip()] *)
Definition strip (s : string) : string := rstrip (lstrip s).

(** [s.split(sep)] for a one-character separator: empty fields are kept. *)
Fixpoint split_on (sep : ascii) (s : string) : list string :=
  match s with
  | EmptyString => [EmptyString]
  | String c s' =>
      if Ascii.eqb c sep then EmptyString :: split_on sep s'
      else match split_on sep s' with
           | w :: ws => String c w :: ws
           | [] => [String c EmptyString]
           end
  end.

(** [s.split()]: fields are maximal runs without whitespace.  With
    [in_word] the head of the result is the rest of the current field. *)
Fixpoint fields (s : string) (in_word : bool) : list string :=
  match s with
  | EmptyString => if in_word then [EmptyString] else []
  | String c s' =>
      if isspace c then
        (if in_word then EmptyString :: fields s' false else fields s' false)
      else match fields s' true with
           | w :: ws => String c w :: ws
           | [] => [String c EmptyString]
           end
  end.

Definition split (s : string) : list string := fields s false.

(** [''.join(c for c in s if p(c))] *)
Fixpoint filter_chars (p : ascii → bool) (s : string) : string :=
  match s with
  | EmptyString => EmptyString
  | String c s' => if p c then String c (filter_chars p s') else filter_chars p s'
  end.

(** [sub in s] *)
Fixpoint contains (sub s : string) : bool :=
  String.prefix sub s ||
  match s with
  | EmptyString => false
  | String _ s' => contains sub s'
  end.

(** [s.startswith(p)] *)
Definition startswith (s p : string) : bool := String.prefix p s.

(** Truth value of a string: the empty string is false. *)
Definition truthy (s : string) : bool := negb (String.eqb s EmptyString).

Definition newline : ascii := ascii_of_N 10.

(** [l[i]]: a negative index counts from the end, an index out of range
    raises [IndexError]. *)
Definition index {A} (l : list A) (i : Z) : result A :=
  let n := Z.of_nat (length l) in
  let j := if (i <? 0)%Z then (n + i)%Z else i in
  if ((0 <=? j) && (j <? n))%Z then
    match l !! Z.to_nat j with
    | Some a => Ok a
    | None => Err IndexError
    end
  else Err IndexError.

End Py.

(** ** Documents *)

Record Document : Type := mkDocument {
  page_content : string;
  metadata : list (string * string)
}.

(** A retrieved passage with its similarity score. *)
Definition Scored : Type := Document * Q.

(** ** External services and the monad of calls

    The three collaborators of the core: text generation
    ([ainvoke_smart], [llm.invoke]), the vector store with its embedding
    model (stage 1) and the reranking service (stage 2).  The outcome of a
    call may depend on every call made before it, so a service is a
    function of the log of earlier calls. *)

Inductive call : Type :=
| CallGenerate (prompt : string)
| CallEmbed (text : string)
| CallSearch (query : string) (k : Z)
| CallRerank (query : string) (documents : list string) (top_n : Z).

(** One entry of [rerank_response.results]. *)
Record RerankResult : Type := mkRerankResult {
  index : Z;
  relevance_score : Q
}.

(** [get_llm] builds the classifier's client and raises when no API key
    is left; the other fields answer a request, given the log so far. *)
Record Services : Type := mkServices {
  get_llm : result unit;
  generate : list call → string → result string;
  embed_query : list call → string → result (list Q);
  similarity_search_with_score : list call → string → Z → result (list Scored);
  rerank : list call → string → list string → Z → result (list RerankResult)
}.

Definition M (A : Type) : Type := Services → list call → result A * list call.

Definition ret {A} (a : A) : M A := fun _ log => (Ok a, log).

Definition raise {A} (e : exn) : M A := fun _ log => (Err e, log).

Definition bind {A B} (m : M A) (f : A → M B) : M B :=
  fun W log =>
    match m W log with
    | (Ok a, log') => f a W log'
    | (Err e, log') => (Err e, log')
    end.

(** [try: m except Exception as e: handler(e)] *)
Definition catch {A} (m : M A) (handler : exn → M A) : M A :=
  fun W log =>
    match m W log with
    | (Ok a, log') => (Ok a, log')
    | (Err e, log') => handler e W log'
    end.

Definition lift {A} (r : result A) : M A := fun _ log => (r, log).

Notation "'do!' x ← m ; k" := (bind m (fun x => k))
  (at level 100, x pattern, m at next level, k at level 200, right associativity,
   format "'[v' 'do!'  x  ←  m ;  '/' k ']'").

(** A [for] loop whose body calls services. *)
Fixpoint mfold {A S} (body : S → A → M S) (s : S) (l : list A) : M S :=
  match l with
  | [] => ret s
  | a :: l' => do! s' ← body s a; mfold body s' l'
  end.

(** The call is logged whether it returns or raises. *)
Definition perform {A} (c : call) (outcome : Services → list call → result A) : M A :=
  fun W log => (outcome W log, log ++ [c]).

(** [core.llm.ainvoke_smart]: one request to the text generation service;
    what it returns or raises is the service's outcome. *)
Definition ainvoke_smart (prompt : string) : M string :=
  perform (CallGenerate prompt) (fun W log => generate W log prompt).

(** [vector_store.similarity_search_with_score(query, k=k)]: one request
    to the vector store. *)
Definition vector_search (query : string) (k : Z) : M (list Scored) :=
  perform (CallSearch query k) (fun W log => similarity_search_with_score W log query k).

Definition run {A} (m : M A) (W : Services) : result A * list call := m W [].

(** The double quote character, spliced into the prompts. *)
Definition dq : string := String (ascii_of_N 34) EmptyString.

(** ** fusion.py *)

Module Fusion.

Record rrf_state : Type := mkState {
  rrf_scores : Py.odict Q;
  doc_map : Py.odict Document;
  original_scores : Py.odict (list Q)
}.

Definition rrf_init : rrf_state :=
  {| rrf_scores := []; doc_map := []; original_scores := [] |}.

(** The three updates of the inner loop of [_reciprocal_rank_fusion]. *)
Definition rrf_update (k : Z) (st : rrf_state) (entry : Z * Scored) : rrf_state :=
  let '(rank, (doc, score)) := entry in
  let content := page_content doc in
  {| rrf_scores :=
       Py.set (rrf_scores st) content
         (Py.get_default 0 (rrf_scores st) content + 1 / inject_Z (k + rank))%Q;
     doc_map := Py.set (doc_map st) content doc;
     original_scores :=
       Py.set (original_scores st) content
         (Py.get_default [] (original_scores st) content ++ [score]) |}.

(** Body of the inner loop: the division raises when [k + rank] is zero. *)
Definition rrf_visit (k : Z) (st : rrf_state) (entry : Z * Scored) : result rrf_state :=
  if (k + fst entry =? 0)%Z then Err ZeroDivisionError
  else Ok (rrf_update k st entry).

(** The state of the loops once the entries [es] have been visited. *)
Definition state_after (k : Z) (es : list (Z * Scored)) : rrf_state :=
  foldl (rrf_update k) rrf_init es.

Definition rrf_accumulate (k : Z) (all_results : list (list Scored)) : result rrf_state :=
  rfold (fun st result_list => rfold (rrf_visit k) st (Py.enumerate result_list 1))
        rrf_init all_results.

Definition rrf_row (st : rrf_state) (item : string * Q) : result (Document * Q * list Q) :=
  let '(content, rrf_score) := item in
  try! doc ← Py.getitem (doc_map st) content;
  Ok (doc, rrf_score, Py.get_default [] (original_scores st) content).

Definition _reciprocal_rank_fusion
    (all_results : list (list Scored)) (k : Z) (top_k : Z)
  : result (list (Document * Q * list Q)) :=
  try! st ← rrf_accumulate k all_results;
  let sorted_docs := Py.slice_to (Py.sorted_reverse snd (rrf_scores st)) top_k in
  rmap (rrf_row st) sorted_docs.

(** The prompt of [_generate_query_variations]. *)
Definition variations_prompt (query : string) (num_variations : Z) : string :=
    "Gere "
    +:+ Py.str_of_int (num_variations - 1)
    +:+ " parafrases DIFERENTES da seguinte pergunta.

PERGUNTA ORIGINAL: "
    +:+ query
    +:+ "

INSTRUCOES:
1. Mantenha o mesmo significado e intencao
2. Use vocabulario e estruturas diferentes
3. Seja especifico e claro
4. Nao adicione informacoes extras
5. Retorne apenas as parafrases, uma por linha

PARAFRASES:".

(** The list comprehension of [_generate_query_variations]: the
    stripped lines of the response that are not blank. *)
Definition variation_lines (response : string) : list string :=
  (fun line => Py.strip line) <$>
    filter (fun line => Is_true (Py.truthy (Py.strip line)))
           (Py.split_on Py.newline (Py.strip response)).

Definition _generate_query_variations (query : string) (num_variations : Z) : M (list string) :=
  do! response ← ainvoke_smart (variations_prompt query num_variations);
  let variations := variation_lines response in
  let all_queries := [query] ++ Py.slice_to variations (num_variations - 1) in
  ret all_queries.

(** [fusion_rag] up to the fused documents, which are the value here; the
    answer generation that follows is not part of the model. *)
Definition fusion_rag (query : string) (num_queries top_k_per_query final_top_k rrf_k : Z)
  : M (list (Document * Q * list Q)) :=
  do! query_variations ← _generate_query_variations query num_queries;
  do! all_results ←
    mfold (fun all_results q =>
             do! docs ← vector_search q top_k_per_query;
             ret (all_results ++ [docs]))
          [] query_variations;
  lift (_reciprocal_rank_fusion all_results rrf_k final_top_k).

End Fusion.

(** ** subquery.py *)

Module Subquery.

(** The prompt of [_decompose_query]. *)
Definition decompose_prompt (query : string) (max_subqueries : Z) : string :=
    "Decomponha a seguinte pergunta complexa em "
    +:+ Py.str_of_int max_subqueries
    +:+ " sub-perguntas SIMPLES e ESPECIFICAS.

PERGUNTA COMPLEXA: "
    +:+ query
    +:+ "

INSTRUCOES:
1. Cada sub-pergunta deve focar em um aspecto especifico
2. Sub-perguntas devem ser independentes
3. Juntas, as sub-perguntas devem cobrir toda a pergunta original
4. Seja claro e especifico
5. Retorne apenas as sub-perguntas, uma por linha

SUB-PERGUNTAS:".

(** The list comprehension of [_decompose_query]: the stripped lines
    that are neither blank nor headings. *)
Definition subquery_lines (response : string) : list string :=
  (fun line => Py.strip line) <$>
    filter (fun line => Is_true (Py.truthy (Py.strip line)
                                 && negb (Py.startswith (Py.strip line) "#")))
           (Py.split_on Py.newline (Py.strip response)).

Definition _decompose_query (query : string) (max_subqueries : Z) : M (list string) :=
  do! response ← ainvoke_smart (decompose_prompt query max_subqueries);
  let subqueries := subquery_lines response in
  ret (Py.slice_to subqueries max_subqueries).

(** Body of the loop of [_deduplicate_docs]. *)
Definition dedup_visit (seen_content : Py.odict Scored) (entry : Scored) : Py.odict Scored :=
  let '(doc, score) := entry in
  let content := page_content doc in
  match Py.get seen_content content with
  | None => Py.set seen_content content (doc, score)
  | Some kept =>
      if Py.gt score (snd kept) then Py.set seen_content content (doc, score)
      else seen_content
  end.

(** [seen_content] once the loop has visited [docs]. *)
Definition seen_after (docs : list Scored) : Py.odict Scored :=
  foldl dedup_visit [] docs.

Definition _deduplicate_docs (docs : list Scored) : list Scored :=
  let seen_content := seen_after docs in
  Py.sorted_reverse snd (Py.values seen_content).

(** The deduplicate and select-top-k steps of [subquery_rag]. *)
Definition dedup_and_select (all_docs : list Scored) (top_k : Z) : list Scored :=
  let unique_docs := _deduplicate_docs all_docs in
  Py.slice_to (Py.sorted_reverse snd unique_docs) top_k.

(** The guard after the decomposition in [subquery_rag]: at most one
    sub-query means the query is searched as it is. *)
Definition or_query (query : string) (subqueries : list string) : list string :=
  if (Z.of_nat (length subqueries) <=? 1)%Z then [query] else subqueries.

(** [subquery_rag] up to the selection of the final chunks, whose list
    is the value here; the answer generation that follows is not part
    of the model. *)
Definition subquery_rag (query : string) (top_k max_subqueries top_k_per_subquery : Z)
  : M (list Scored) :=
  do! subqueries ← _decompose_query query max_subqueries;
  let subqueries := or_query query subqueries in
  do! all_docs ←
    mfold (fun all_docs subq =>
             do! docs ← perform (CallSearch subq top_k_per_subquery)
                          (fun W log => similarity_search_with_score W log subq top_k_per_subquery);
             ret (all_docs ++ docs))
          [] subqueries;
  ret (dedup_and_select all_docs top_k).

End Subquery.

(** ** graph_rag.py *)

Module GraphRag.

(** The dict built by [_build_entity_graph]. *)
Record EntityGraph : Type := mkGraph {
  nodes : gset string;
  edges : list (string * string)
}.

(** The prompt of [_extract_entities]. *)
Definition entities_prompt (text : string) : string :=
    "Extraia as ENTIDADES PRINCIPAIS (pessoas, organizacoes, produtos, conceitos) do seguinte texto.

TEXTO: "
    +:+ text
    +:+ "

INSTRUCOES:
1. Retorne apenas nomes de entidades
2. Uma entidade por linha
3. Nao inclua verbos ou adjetivos
4. Mantenha nomes completos

ENTIDADES:".

(** The list comprehension of [_extract_entities]: the stripped lines
    of more than two characters. *)
Definition entity_lines (response : string) : list string :=
  (fun line => Py.strip line) <$>
    filter (fun line => Is_true (Py.truthy (Py.strip line)
                                 && (2 <? Py.len (Py.strip line))%Z))
           (Py.split_on Py.newline (Py.strip response)).

Definition _extract_entities (text : string) : M (list string) :=
  do! response ← ainvoke_smart (entities_prompt text);
  let entities := entity_lines response in
  ret (Py.slice_to entities 10).

(** The pairs [(e1, e2)] with [e1] at a smaller index than [e2]. *)
Fixpoint pairs (entities : list string) : list (string * string) :=
  match entities with
  | [] => []
  | e1 :: rest => (pair e1 <$> rest) ++ pairs rest
  end.

(** Body of the loop of [_build_entity_graph]. *)
Definition build_visit (g : EntityGraph) (entry : Scored) : M EntityGraph :=
  do! entities ← _extract_entities (page_content (fst entry));
  ret {| nodes := nodes g ∪ list_to_set entities;
         edges := edges g ++ pairs entities |}.

Definition _build_entity_graph (docs : list Scored) : M EntityGraph :=
  mfold build_visit {| nodes := ∅; edges := [] |} (Py.slice_to docs 5).

(** One pass over [graph["edges"]] in [_expand_entities]. *)
Definition neighbours (graph_edges : list (string * string)) (current_level : gset string)
  : gset string :=
  foldl (fun next_level edge =>
           let '(e1, e2) := edge in
           let next_level :=
             if bool_decide (e1 ∈ current_level) then next_level ∪ {[e2]} else next_level in
           if bool_decide (e2 ∈ current_level) then next_level ∪ {[e1]} else next_level)
        ∅ graph_edges.

(** Body of the loop over [range(hops)]: the state is
    [(expanded, current_level)]. *)
Definition expand_round (graph_edges : list (string * string))
    (st : gset string * gset string) : gset string * gset string :=
  let next_level := neighbours graph_edges (snd st) in
  (fst st ∪ next_level, next_level).

(** The state after [n] passes of the loop; [range(hops)] is empty for
    a negative [hops]. *)
Definition rounds (graph_edges : list (string * string)) (seed_entities : list string)
    (n : nat) : gset string * gset string :=
  Nat.iter n (expand_round graph_edges)
    (list_to_set seed_entities, list_to_set seed_entities).

Definition _expand_entities (seed_entities : list string) (graph : EntityGraph) (hops : Z)
  : gset string :=
  fst (rounds (edges graph) seed_entities (Z.to_nat hops)).

(** [sum(1 for entity in entities if entity.lower() in content_lower)] *)
Definition entity_matches (entities : gset string) (content_lower : string) : Z :=
  Z.of_nat (length (filter (fun entity => Is_true (Py.contains (Py.lower entity) content_lower))
                           (elements entities))).

Definition rescore (entities : gset string) (entry : Scored) : Scored :=
  let '(doc, original_score) := entry in
  let content_lower := Py.lower (page_content doc) in
  (doc, original_score * (1 + inject_Z (entity_matches entities content_lower) * (1 # 10)))%Q.

Definition _filter_docs_by_entities (docs : list Scored) (entities : gset string) (top_k : Z)
  : list Scored :=
  let scored_docs := rescore entities <$> docs in
  Py.slice_to (Py.sorted_reverse snd scored_docs) top_k.

(** The retrieval stage of [graph_rag], lines 55 to 102: from the
    entities of the query to the filtered documents, which are the value.
    The log holds the requests sent when the stage ends; the answer
    request and the evaluation, which the function sends afterwards, are
    not part of the stage. *)
Definition graph_rag (query : string) (initial_top_k expansion_hops final_top_k : Z)
  : M (list Scored) :=
  do! query_entities ← _extract_entities query;
  do! initial_docs ← vector_search query initial_top_k;
  do! entity_graph ← _build_entity_graph initial_docs;
  let expanded_entities := _expand_entities query_entities entity_graph expansion_hops in
  ret (_filter_docs_by_entities initial_docs expanded_entities final_top_k).

End GraphRag.

(** ** hyde_rag.py *)

Module Hyde.




End Hyde.

(** ** reranking_rag.py *)

Module Reranking.

(** One entry of [reranked_sources]. *)
Record Source : Type := mkSource {
  content : string;
  source_metadata : list (string * string);
  original_score : Q;
  rerank_score : Q;
  rerank_index : Z
}.

(** Truth value of [cohere_api_key]: [None] and the empty string are false. *)
Definition key_present (cohere_api_key : option string) : bool :=
  match cohere_api_key with
  | None => false
  | Some key => Py.truthy key
  end.

(** Body of the loop over [rerank_response.results]. *)
Definition source_of (initial_docs : list Scored) (r : RerankResult) : result Source :=
  try! entry ← Py.index initial_docs (index r);
  Ok {| content := page_content (fst entry);
        source_metadata := metadata (fst entry);
        original_score := snd entry;
        rerank_score := relevance_score r;
        rerank_index := index r |}.

(** [reranking_rag] up to the list of reranked sources, which is the
    value here; building the clients makes no request; the answer
    generation that follows is not part of the model. *)
Definition reranking_rag (query : string) (top_k : Z) (cohere_api_key : option string)
    (initial_top_k final_top_n : option Z) : M (list Source) :=
  if negb (key_present cohere_api_key) then
    raise (ValueError "cohere_api_key is required for reranking")
  else
    let initial_top_k := default (top_k * 4)%Z initial_top_k in
    let final_top_n := default top_k final_top_n in
    do! query_vector ← perform (CallEmbed query) (fun W log => embed_query W log query);
    do! initial_docs ←
      perform (CallSearch query initial_top_k)
              (fun W log => similarity_search_with_score W log query initial_top_k);
    let documents_to_rerank := (fun entry => page_content (fst entry)) <$> initial_docs in
    do! results ←
      perform (CallRerank query documents_to_rerank final_top_n)
              (fun W log => rerank W log query documents_to_rerank final_top_n);
    lift (rmap (source_of initial_docs) results).

End Reranking.

(** ** adaptive/prompts.py and adaptive/orchestrator.py *)

Module Adaptive.

(** [CLASSIFICATION_PROMPT.format(query=query)] *)
Definition CLASSIFICATION_PROMPT (query : string) : string :=
    "Você é um classificador de perguntas para um sistema RAG.

Analise a pergunta e classifique em UMA das 4 categorias:

**CATEGORIAS:**

1. **simple** - Pergunta direta e factual
   - Indicadores: " +:+ dq +:+ "O que é" +:+ dq +:+ ", " +:+ dq +:+ "Qual" +:+ dq +:+ ", " +:+ dq +:+ "Quando" +:+ dq +:+ ", " +:+ dq +:+ "Onde" +:+ dq +:+ ", " +:+ dq +:+ "Quem" +:+ dq +:+ ", " +:+ dq +:+ "Defina" +:+ dq +:+ "
   - Exemplo: " +:+ dq +:+ "O que é Python?" +:+ dq +:+ ", " +:+ dq +:+ "Qual a capital do Brasil?" +:+ dq +:+ "
   - Esperado: Resposta curta e factual

2. **complex** - Pergunta com múltiplas partes ou comparação
   - Indicadores: " +:+ dq +:+ "Compare" +:+ dq +:+ ", " +:+ dq +:+ "diferença entre" +:+ dq +:+ ", " +:+ dq +:+ "e também" +:+ dq +:+ ", " +:+ dq +:+ "além de" +:+ dq +:+ ", " +:+ dq +:+ "múltiplos" +:+ dq +:+ ", " +:+ dq +:+ "vantagens e desvantagens" +:+ dq +:+ "
   - Exemplo: " +:+ dq +:+ "Compare Python e Java" +:+ dq +:+ ", " +:+ dq +:+ "Quais são os prós e contras de X?" +:+ dq +:+ "
   - Esperado: Resposta abrangente cobrindo vários aspectos

3. **abstract** - Pergunta conceitual ou explicativa
   - Indicadores: " +:+ dq +:+ "Como funciona" +:+ dq +:+ ", " +:+ dq +:+ "Por que" +:+ dq +:+ ", " +:+ dq +:+ "Explique" +:+ dq +:+ ", " +:+ dq +:+ "De que forma" +:+ dq +:+ "
   - Exemplo: " +:+ dq +:+ "Como funciona o machine learning?" +:+ dq +:+ ", " +:+ dq +:+ "Por que usar microservices?" +:+ dq +:+ "
   - Esperado: Explicação detalhada de conceitos

4. **precision** - Pergunta técnica que requer alta precisão
   - Indicadores: Termos técnicos específicos, jargão de domínio, linguagem formal
   - Domínios: Médico, legal, financeiro, científico, código
   - Exemplo: " +:+ dq +:+ "Qual a dosagem de X para Y?" +:+ dq +:+ ", " +:+ dq +:+ "Quais os requisitos legais para Z?" +:+ dq +:+ "
   - Esperado: Resposta precisa e verificável

**PERGUNTA:**
"
    +:+ query
    +:+ "

**REGRAS:**
- Responda APENAS com uma palavra: simple, complex, abstract, ou precision
- Na dúvida entre simple e outra, escolha simple (mais rápido)
- Na dúvida entre complex e abstract, escolha complex (mais cobertura)

**CATEGORIA:**".

Definition CATEGORY_TO_TECHNIQUE : gmap string string :=
  list_to_map [("simple", "baseline"); ("complex", "subquery");
               ("abstract", "hyde"); ("precision", "reranking")].

Definition DEFAULT_TECHNIQUE : string := "baseline".

Definition VALID_CATEGORIES : list string := ["simple"; "complex"; "abstract"; "precision"].

Record AdaptiveState : Type := mkAdaptiveState {
  query : string;
  query_type : string;
  technique : string;
  confidence : Q
}.

(** The clean-up of the raw response in [classify_query_node]: trimmed
    and lower-cased, first field, letters only. *)
Definition normalize (raw : string) : result string :=
  let classification := Py.lower (Py.strip raw) in
  try! classification ←
    (if Py.truthy classification then Py.index (Py.split classification) 0
     else Ok "simple");
  Ok (Py.filter_chars Py.isalpha classification).

(** The validation of the cleaned label. *)
Definition validate (classification : string) : string :=
  if bool_decide (classification ∈ VALID_CATEGORIES) then classification
  else
    match find (fun cat => Py.contains cat classification) VALID_CATEGORIES with
    | Some cat => cat
    | None => "simple"
    end.

(** [classify_query_node]: the client is built outside the [try]. *)
Definition classify_query_node (state : AdaptiveState) : M AdaptiveState :=
  do! llm ← (fun W log => (get_llm W, log));
  let prompt := CLASSIFICATION_PROMPT (query state) in
  catch
    (do! response ← perform (CallGenerate prompt) (fun W log => generate W log prompt);
     do! classification ← lift (normalize response);
     let classification := validate classification in
     ret {| query := query state;
            query_type := classification;
            technique := technique state;
            confidence := 9 # 10 |})
    (fun e =>
       ret {| query := query state;
              query_type := "simple";
              technique := technique state;
              confidence := 1 # 2 |}).

Definition select_technique_node (state : AdaptiveState) : AdaptiveState :=
  {| query := query state;
     query_type := query_type state;
     technique := default DEFAULT_TECHNIQUE (CATEGORY_TO_TECHNIQUE !! query_type state);
     confidence := confidence state |}.

(** The first two nodes of the linear graph of [create_adaptive_graph]. *)
Definition classify_then_select (state : AdaptiveState) : M AdaptiveState :=
  do! state ← classify_query_node state;
  ret (select_technique_node state).

End Adaptive.



(** ** core/api_keys.py

    The clock is read by [time.time()]; a method that reads it takes the
    reading as an argument, and the loop of [get_next_key] takes the
    reading of each of its passes. *)

Module ApiKeys.

Record APIKeyStatus : Type := mkStatus {
  key : string;
  project_name : string;
  is_exhausted : bool;
  exhausted_until : Q;
  request_count : Z;
  error_count : Z;
  last_used : Q
}.

(** [APIKeyStatus(key=api_key, project_name=project_name)] *)
Definition new_status (now : Q) (api_key project : string) : APIKeyStatus :=
  {| key := api_key; project_name := project; is_exhausted := false;
     exhausted_until := 0; request_count := 0; error_count := 0; last_used := now |}.

Definition mark_exhausted (now cooldown_seconds : Q) (s : APIKeyStatus) : APIKeyStatus :=
  {| key := key s; project_name := project_name s; is_exhausted := true;
     exhausted_until := now + cooldown_seconds; request_count := request_count s;
     error_count := error_count s + 1; last_used := last_used s |}.

(** [is_available]: the status recovers, in place, once the cooldown is over. *)
Definition is_available (now : Q) (s : APIKeyStatus) : bool * APIKeyStatus :=
  if negb (is_exhausted s) then (true, s)
  else if Py.gt now (exhausted_until s) then
    (true, {| key := key s; project_name := project_name s; is_exhausted := false;
              exhausted_until := exhausted_until s; request_count := request_count s;
              error_count := error_count s; last_used := last_used s |})
  else (false, s).

Definition status_record_success (now : Q) (s : APIKeyStatus) : APIKeyStatus :=
  {| key := key s; project_name := project_name s; is_exhausted := is_exhausted s;
     exhausted_until := exhausted_until s; request_count := request_count s + 1;
     error_count := error_count s; last_used := now |}.

Record APIKeyRotator : Type := mkRotator {
  _keys : list APIKeyStatus;
  _current_index : Z
}.

(** [APIKeyRotator()] *)
Definition empty_rotator : APIKeyRotator := {| _keys := []; _current_index := 0 |}.

(** [add_key]: a key that is already in the pool is not added again. *)
Definition add_key (now : Q) (api_key project : string) (r : APIKeyRotator) : APIKeyRotator :=
  if existsb (fun existing => String.eqb (key existing) api_key) (_keys r) then r
  else {| _keys := _keys r ++ [new_status now api_key project];
          _current_index := _current_index r |}.

(** [item.split(":", 1)] for an item that holds a colon. *)
Fixpoint split_once (sep : ascii) (s : string) : string * string :=
  match s with
  | EmptyString => (EmptyString, EmptyString)
  | String c s' =>
      if Ascii.eqb c sep then (EmptyString, s')
      else let '(before, after) := split_once sep s' in (String c before, after)
  end.

Definition colon : ascii := ascii_of_N 58.
Definition comma : ascii := ascii_of_N 44.

(** Body of the loop of [add_keys_from_string]; [clock i] is the reading
    of the clock in the pass of item [i]. *)
Definition add_item (clock : nat → Q) (r : APIKeyRotator) (entry : Z * string)
  : APIKeyRotator :=
  let '(i, item) := entry in
  let now := clock (Z.to_nat i) in
  let item := Py.strip item in
  if negb (Py.truthy item) then r
  else if Py.contains ":" item then
    let '(k, project) := split_once colon item in
    add_key now (Py.strip k) (Py.strip project) r
  else add_key now item ("project-" +:+ Py.str_of_int (i + 1)) r.

Definition add_keys_from_string (clock : nat → Q) (keys_string : string)
    (r : APIKeyRotator) : APIKeyRotator :=
  if negb (Py.truthy keys_string) then r
  else foldl (add_item clock) r (Py.enumerate (Py.split_on comma keys_string) 0).

Definition total_keys (r : APIKeyRotator) : Z := Z.of_nat (length (_keys r)).

Definition get_all_keys (r : APIKeyRotator) : list string := key <$> _keys r.

(** The position that the index [i] denotes in a list of [n] elements: a
    negative index counts from the end. *)
Definition locate (n : nat) (i : Z) : option nat :=
  let j := if (i <? 0)%Z then (Z.of_nat n + i)%Z else i in
  if ((0 <=? j) && (j <? Z.of_nat n))%Z then Some (Z.to_nat j) else None.

(** The loop of [get_next_key]: [passes] passes are left, [clock i] is
    the reading of the clock in pass [i]. *)
Fixpoint next_key_loop (clock : nat → Q) (passes i : nat) (r : APIKeyRotator)
  : result (option string) * APIKeyRotator :=
  match passes with
  | O => (Ok None, r)
  | S passes' =>
      match locate (length (_keys r)) (_current_index r) with
      | None => (Err IndexError, r)
      | Some p =>
          match _keys r !! p with
          | None => (Err IndexError, r)
          | Some key_status =>
              let '(available, key_status) := is_available (clock i) key_status in
              let r := {| _keys := <[p := key_status]> (_keys r);
                          _current_index :=
                            ((_current_index r + 1) mod Z.of_nat (length (_keys r)))%Z |} in
              if available then (Ok (Some (key key_status)), r)
              else next_key_loop clock passes' (S i) r
          end
      end
  end.

Definition get_next_key (clock : nat → Q) (r : APIKeyRotator)
  : result (option string) * APIKeyRotator :=
  match _keys r with
  | [] => (Ok None, r)
  | _ => next_key_loop clock (length (_keys r)) 0 r
  end.

Definition get_current_key (r : APIKeyRotator) : result (option string) :=
  match _keys r with
  | [] => Ok None
  | _ =>
      let idx := ((_current_index r - 1) mod Z.of_nat (length (_keys r)))%Z in
      match locate (length (_keys r)) idx with
      | None => Err IndexError
      | Some p =>
          match _keys r !! p with
          | None => Err IndexError
          | Some key_status => Ok (Some (key key_status))
          end
      end
  end.

(** Apply [f] to the first status that holds [api_key], as the loops of
    [mark_key_exhausted] and [record_success] do. *)
Fixpoint update_first (api_key : string) (f : APIKeyStatus → APIKeyStatus)
    (statuses : list APIKeyStatus) : list APIKeyStatus :=
  match statuses with
  | [] => []
  | s :: rest =>
      if String.eqb (key s) api_key then f s :: rest
      else s :: update_first api_key f rest
  end.

Definition mark_key_exhausted (now : Q) (api_key : string) (cooldown_seconds : Q)
    (r : APIKeyRotator) : APIKeyRotator :=
  {| _keys := update_first api_key (mark_exhausted now cooldown_seconds) (_keys r);
     _current_index := _current_index r |}.

Definition record_success (now : Q) (api_key : string) (r : APIKeyRotator) : APIKeyRotator :=
  {| _keys := update_first api_key (status_record_success now) (_keys r);
     _current_index := _current_index r |}.

Definition mark_current_exhausted (now cooldown_seconds : Q) (r : APIKeyRotator)
  : result APIKeyRotator :=
  match _keys r with
  | [] => Ok r
  | _ =>
      let idx := ((_current_index r - 1) mod Z.of_nat (length (_keys r)))%Z in
      match locate (length (_keys r)) idx with
      | None => Err IndexError
      | Some p =>
          match _keys r !! p with
          | None => Err IndexError
          | Some key_status =>
              Ok {| _keys := <[p := mark_exhausted now cooldown_seconds key_status]> (_keys r);
                    _current_index := _current_index r |}
          end
      end
  end.

(** [initialize_rotator] on the rotator that [get_api_key_rotator] hands out. *)
Definition initialize_rotator (now : Q) (clock : nat → Q)
    (primary_key additional_keys : string) (r : APIKeyRotator) : APIKeyRotator :=
  let r := if Py.truthy primary_key then add_key now primary_key "primary" r else r in
  if Py.truthy additional_keys then add_keys_from_string clock additional_keys r else r.

(** The keys that successive calls of [get_next_key] return, one call
    for each element of [clocks], which gives the readings of the clock
    during that call, with the rotator they leave; a call that raises
    ends the row. *)
Fixpoint next_keys (clocks : list (nat → Q)) (r : APIKeyRotator)
  : list (option string) * APIKeyRotator :=
  match clocks with
  | [] => ([], r)
  | clock :: clocks' =>
      match get_next_key clock r with
      | (Ok k, r') => let '(ks, r'') := next_keys clocks' r' in (k :: ks, r'')
      | (Err _, r') => ([], r')
      end
  end.

(** The pool holds no key twice and the index points into it. *)
Definition well_formed (r : APIKeyRotator) : Prop :=
  NoDup (get_all_keys r) ∧
  (0 ≤ _current_index r)%Z ∧
  (_current_index r < Z.max 1 (Z.of_nat (length (_keys r))))%Z.

(** The status of [api_key] is cooling down until after [t]. *)
Definition cooling (api_key : string) (t : Q) (r : APIKeyRotator) : Prop :=
  ∃ s, s ∈ _keys r ∧ key s = api_key ∧ is_exhausted s = true ∧ (t <= exhausted_until s)%Q.

End ApiKeys.

(** ** Vocabulary of the statements *)

#[global] Instance Qeq_decision (a b : Q) : Decision (a == b)%Q := Qeq_dec a b.

(** The contents of a list in the order in which each is first seen. *)
Fixpoint first_seen (l : list string) : list string :=
  match l with
  | [] => []
  | c :: l' => c :: filter (fun c' => c' ≠ c) (first_seen l')
  end.

(** Descending order of the key. *)
Definition descending {A} (key : A → Q) : list A → Prop :=
  StronglySorted (fun x y => (key y <= key x)%Q).

(** [x] stands before [y] in [l]. *)
Definition before {A} (l : list A) (x y : A) : Prop := [x; y] `sublist_of` l.

(** Equal keys keep the order they have in [input]. *)
Definition ties_as_in {A} (key : A → Q) (input output : list A) : Prop :=
  ∀ x y, before output x y → (key x == key y)%Q → before input x y.

Fixpoint Qsum (l : list Q) : Q :=
  match l with
  | [] => 0
  | q :: l' => q + Qsum l'
  end.

(** Every entry of a ranked list with its 1-based rank. *)
Definition ranked {A} (l : list A) : list (Z * A) :=
  imap (fun i a => (Z.of_nat i + 1, a)%Z) l.

(** Every [(rank, (doc, score))] of the input lists, in the order in which
    the lists are read. *)
Definition occurrences (all_results : list (list Scored)) : list (Z * Scored) :=
  all_results ≫= ranked.

Definition content_of (e : Z * Scored) : string := page_content (fst (snd e)).

(** The occurrences of one content. *)
Definition occurrences_of (c : string) (es : list (Z * Scored)) : list (Z * Scored) :=
  filter (fun e => content_of e = c) es.

(** The sum of [1 / (k + r)] over the occurrences of [c]. *)
Definition rrf_sum (k : Z) (es : list (Z * Scored)) (c : string) : Q :=
  Qsum ((fun e => 1 / inject_Z (k + fst e))%Q <$> occurrences_of c es).

(** The state of the fusion loops at their end, and the items
    [(content, rrf_score)] that are turned into rows. *)
Definition fusion_state (k : Z) (all_results : list (list Scored)) : Fusion.rrf_state :=
  Fusion.state_after k (occurrences all_results).

Definition fusion_items (k : Z) (all_results : list (list Scored)) (top_k : Z)
  : list (string * Q) :=
  Py.slice_to (Py.sorted_reverse snd (Fusion.rrf_scores (fusion_state k all_results))) top_k.

(** The fields of a fused row [(doc, rrf_score, original_scores)]. *)
Definition row_doc (row : Document * Q * list Q) : Document := fst (fst row).
Definition row_score (row : Document * Q * list Q) : Q := snd (fst row).
Definition row_content (row : Document * Q * list Q) : string := page_content (row_doc row).

(** What relates a fused row to the item [(content, rrf_score)] of
    [rrf_scores] it is built from: the Document is the one of the last
    occurrence of the content, the scores are those of all occurrences. *)
Definition fused_row (es : list (Z * Scored))
    (item : string * Q) (row : Document * Q * list Q) : Prop :=
  row_content row = fst item ∧
  row_score row = snd item ∧
  Some (row_doc row) = (fun e => fst (snd e)) <$> last (occurrences_of (fst item) es) ∧
  snd row = (fun e => snd (snd e)) <$> occurrences_of (fst item) es.

Definition content_scored (e : Scored) : string := page_content (fst e).

(** [kept] is the candidate of content [c] to keep among [docs]: an entry
    of [docs] with that content whose score is the maximum of the group,
    the first one if several entries reach the maximum. *)
Definition best_of (c : string) (docs : list Scored) (kept : Scored) : Prop :=
  ∃ l1 l2, docs = l1 ++ kept :: l2 ∧ content_scored kept = c ∧
    (∀ e, e ∈ l1 → content_scored e = c → (snd e < snd kept)%Q) ∧
    (∀ e, e ∈ l2 → content_scored e = c → (snd e <= snd kept)%Q).

(** The number of different contents among [docs]. *)
Definition distinct_contents (docs : list Scored) : nat :=
  size (list_to_set (content_scored <$> docs) : gset string).

(** Two entities joined by an edge, in either direction. *)
Definition adjacent (graph_edges : list (string * string)) (a b : string) : Prop :=
  (a, b) ∈ graph_edges ∨ (b, a) ∈ graph_edges.

(** [walk graph_edges n a b]: [b] is reached from [a] along [n] edges. *)
Inductive walk (graph_edges : list (string * string)) : nat → string → string → Prop :=
| walk_here a : walk graph_edges 0 a a
| walk_step n a b c :
    walk graph_edges n a b → adjacent graph_edges b c → walk graph_edges (S n) a c.

(** [x] is a seed or is reached from a seed along at most [hops] edges. *)
Definition within_hops (graph_edges : list (string * string)) (seed : list string)
    (hops : nat) (x : string) : Prop :=
  ∃ (s : string) (n : nat), s ∈ seed ∧ (n ≤ hops)%nat ∧ walk graph_edges n s x.

(** The extraction request of a document, and what the service answers
    to the request of document [i] of [docs], sent after the requests of
    the documents before it. *)
Definition extraction_call (entry : Scored) : call :=
  CallGenerate (GraphRag.entities_prompt (page_content (fst entry))).

Definition extraction_outcome (W : Services) (log : list call) (docs : list Scored)
    (i : nat) (entry : Scored) : result string :=
  generate W (log ++ (extraction_call <$> take i docs))
    (GraphRag.entities_prompt (page_content (fst entry))).

(** The entities that [_extract_entities] returns for a response. *)
Definition entities_of (response : string) : list string :=
  Py.slice_to (GraphRag.entity_lines response) 10.

(** * Properties of the built-ins *)

Lemma filter_sublist_mono {A} (P : A → Prop) `{!∀ x, Decision (P x)} (l1 l2 : list A) :
  l1 `sublist_of` l2 → filter P l1 `sublist_of` filter P l2.
Proof.
  induction 1 as [|x l1 l2 _ IH|x l1 l2 _ IH]; [done| |].
  - rewrite !filter_cons. destruct (decide (P x)); [by constructor|done].
  - rewrite filter_cons. destruct (decide (P x)); [by constructor|done].
Qed.

Section sorted_reverse.
Context {A : Type} (key : A → Q).

Lemma insert_desc_perm x l : Py.insert_desc key x l ≡ₚ x :: l.
Proof.
  induction l as [|y l IH]; simpl; [done|].
  destruct (Qle_bool (key y) (key x)); [done|].
  rewrite IH. apply Permutation_swap.
Qed.

Lemma sorted_reverse_perm l : Py.sorted_reverse key l ≡ₚ l.
Proof.
  induction l as [|x l IH]; simpl; [done|].
  rewrite insert_desc_perm. by rewrite IH.
Qed.

Lemma insert_desc_descending x l :
  descending key l → descending key (Py.insert_desc key x l).
Proof.
  unfold descending. induction 1 as [|y l Hl IH Hy]; simpl.
  - repeat constructor.
  - destruct (Qle_bool (key y) (key x)) eqn:E.
    + apply Qle_bool_iff in E. constructor; [by constructor|].
      constructor; [done|].
      eapply Forall_impl; [exact Hy|]. intros z Hz. simpl in *.
      by eapply Qle_trans.
    + constructor; [done|].
      assert (key x <= key y)%Q as Hxy.
      { apply Qlt_le_weak, Qnot_le_lt. intros H. apply Qle_bool_iff in H. congruence. }
      rewrite insert_desc_perm. by constructor.
Qed.

Lemma sorted_reverse_descending l : descending key (Py.sorted_reverse key l).
Proof.
  induction l as [|x l IH]; simpl; [constructor|].
  by apply insert_desc_descending.
Qed.

Lemma insert_desc_filter q x l :
  filter (fun a => key a == q)%Q (Py.insert_desc key x l)
  = filter (fun a => key a == q)%Q (x :: l).
Proof.
  induction l as [|y l IH]; simpl; [done|].
  destruct (Qle_bool (key y) (key x)) eqn:E; [done|].
  rewrite filter_cons, IH, !filter_cons.
  destruct (decide (key y == q)%Q) as [Hy|Hy]; [|done].
  destruct (decide (key x == q)%Q) as [Hx|Hx]; [|done].
  exfalso. assert (Qle_bool (key y) (key x) = true); [|congruence].
  apply Qle_bool_iff. rewrite Hx, Hy. apply Qle_refl.
Qed.

Lemma sorted_reverse_filter q l :
  filter (fun a => key a == q)%Q (Py.sorted_reverse key l)
  = filter (fun a => key a == q)%Q l.
Proof.
  induction l as [|x l IH]; simpl; [done|].
  by rewrite insert_desc_filter, !filter_cons, IH.
Qed.

(** The sort is stable. *)
Lemma sorted_reverse_stable l : ties_as_in key l (Py.sorted_reverse key l).
Proof.
  intros x y Hxy Heq. unfold before in *.
  pose (P := fun a => (key a == key x)%Q).
  assert ([x; y] = filter P [x; y]) as ->.
  { rewrite !filter_cons, filter_nil. unfold P.
    rewrite decide_True by reflexivity.
    by rewrite decide_True by (by symmetry). }
  trans (filter P l); [|apply sublist_filter].
  unfold P. rewrite <-(sorted_reverse_filter (key x) l). by apply filter_sublist_mono.
Qed.

Lemma sorted_reverse_length l : length (Py.sorted_reverse key l) = length l.
Proof. by rewrite sorted_reverse_perm. Qed.

Lemma sorted_reverse_elem_of a l : a ∈ Py.sorted_reverse key l ↔ a ∈ l.
Proof. by rewrite sorted_reverse_perm. Qed.

End sorted_reverse.

Example slice_to_positive : Py.slice_to [1; 2; 3]%Z 2 = [1; 2]%Z.
Proof. reflexivity. Qed.

Example slice_to_beyond : Py.slice_to [1; 2; 3]%Z 5 = [1; 2; 3]%Z.
Proof. reflexivity. Qed.

Example slice_to_negative : Py.slice_to [1; 2; 3]%Z (-1) = [1; 2]%Z.
Proof. reflexivity. Qed.

Section slice_to.
Context {A : Type}.
Implicit Types l : list A.

Lemma slice_to_nonneg l n : (0 ≤ n)%Z → Py.slice_to l n = take (Z.to_nat n) l.
Proof. intros Hn. unfold Py.slice_to. by rewrite (proj2 (Z.leb_le 0 n) Hn). Qed.

Lemma slice_to_sublist l n : Py.slice_to l n `sublist_of` l.
Proof. unfold Py.slice_to. destruct (0 <=? n)%Z; apply sublist_take. Qed.

Lemma slice_to_length l n :
  (0 ≤ n)%Z → Z.of_nat (length (Py.slice_to l n)) = Z.min n (Z.of_nat (length l)).
Proof. intros Hn. rewrite slice_to_nonneg, length_take by done. lia. Qed.

Lemma slice_to_descending (key : A → Q) l n :
  descending key l → descending key (Py.slice_to l n).
Proof.
  unfold descending, Py.slice_to. intros Hl.
  destruct (0 <=? n)%Z.
  - rewrite <-(take_drop (Z.to_nat n) l) in Hl. by apply StronglySorted_app_1_l in Hl.
  - rewrite <-(take_drop (length l - Z.to_nat (- n)) l) in Hl.
    by apply StronglySorted_app_1_l in Hl.
Qed.

Lemma slice_to_ties (key : A → Q) input l n :
  ties_as_in key input l → ties_as_in key input (Py.slice_to l n).
Proof.
  intros Hl x y Hxy. apply Hl. unfold before in *.
  etrans; [exact Hxy|apply slice_to_sublist].
Qed.

End slice_to.

Ltac case_eqb :=
  match goal with
  | |- context [String.eqb ?a ?b] => destruct (String.eqb_spec a b); simplify_eq/=
  end.

Section odict.
Context {V : Type}.
Implicit Types d : Py.odict V.

Lemma get_set d k v k' :
  Py.get (Py.set d k v) k' = if decide (k = k') then Some v else Py.get d k'.
Proof.
  induction d as [|[k0 v0] d IH]; simpl.
  - case_eqb; [by rewrite decide_True|by rewrite decide_False].
  - destruct (String.eqb_spec k0 k) as [->|Hne]; simpl.
    + case_eqb; [by rewrite decide_True|by rewrite decide_False].
    + rewrite IH. case_eqb; [by rewrite decide_False|done].
Qed.

Lemma get_None d k : Py.get d k = None ↔ k ∉ Py.keys d.
Proof.
  unfold Py.keys. induction d as [|[k0 v0] d IH]; simpl.
  - split; [intros _; apply not_elem_of_nil|done].
  - rewrite not_elem_of_cons. case_eqb.
    + split; [done|]. intros [[] _]. done.
    + rewrite IH. split; [by split|by intros [_ ?]].
Qed.

Lemma get_Some_elem_of d k v : Py.get d k = Some v → (k, v) ∈ d.
Proof.
  induction d as [|[k0 v0] d IH]; simpl; [done|].
  case_eqb; [intros [= ->]; left|right; auto].
Qed.

Lemma elem_of_get d k v : NoDup (Py.keys d) → (k, v) ∈ d → Py.get d k = Some v.
Proof.
  unfold Py.keys. induction d as [|[k0 v0] d IH]; simpl.
  - intros _ H. by apply elem_of_nil in H.
  - rewrite NoDup_cons, elem_of_cons. intros [Hk0 Hd] [[= -> ->]|Hin].
    + by rewrite String.eqb_refl.
    + case_eqb; [|by apply IH].
      destruct Hk0. apply list_elem_of_fmap. by exists (k, v).
Qed.

Lemma keys_set d k v :
  Py.keys (Py.set d k v)
  = if decide (k ∈ Py.keys d) then Py.keys d else Py.keys d ++ [k].
Proof.
  unfold Py.keys. induction d as [|[k0 v0] d IH].
  - case_decide as Hin; [by apply elem_of_nil in Hin|done].
  - cbn [Py.set]. destruct (String.eqb_spec k0 k) as [->|Hne].
    + rewrite decide_True; [done|rewrite fmap_cons; left].
    + rewrite !fmap_cons, IH. cbn [fst].
      destruct (decide (k ∈ d.*1)) as [Hin|Hnin].
      * rewrite decide_True; [done|by right].
      * rewrite decide_False; [done|].
        rewrite not_elem_of_cons. split; [congruence|done].
Qed.

End odict.

Section first_seen.
Implicit Types l : list string.

Lemma first_seen_elem_of l c : c ∈ first_seen l ↔ c ∈ l.
Proof.
  induction l as [|a l IH]; simpl; [done|].
  rewrite !elem_of_cons, list_elem_of_filter, IH.
  destruct (decide (c = a)); naive_solver.
Qed.

Lemma first_seen_NoDup l : NoDup (first_seen l).
Proof.
  induction l as [|a l IH]; simpl; [constructor|].
  apply NoDup_cons. split; [|by apply NoDup_filter].
  rewrite list_elem_of_filter. naive_solver.
Qed.

Lemma first_seen_snoc l c :
  first_seen (l ++ [c]) = if decide (c ∈ l) then first_seen l else first_seen l ++ [c].
Proof.
  induction l as [|a l IH]; cbn [first_seen app].
  - case_decide as Hin; [by apply elem_of_nil in Hin|done].
  - rewrite IH. destruct (decide (c ∈ l)) as [Hin|Hnin].
    + rewrite decide_True; [done|by right].
    + rewrite filter_app, filter_cons, filter_nil.
      destruct (decide (c = a)) as [->|Hne].
      * rewrite decide_False by (intros ?; done).
        rewrite decide_True by left. by rewrite app_nil_r.
      * rewrite decide_True by done.
        rewrite decide_False; [done|].
        rewrite not_elem_of_cons. by split.
Qed.

End first_seen.

(** * Rank fusion *)

Lemma Qsum_app l1 l2 : (Qsum (l1 ++ l2) == Qsum l1 + Qsum l2)%Q.
Proof.
  induction l1 as [|q l1 IH]; simpl; [by rewrite Qplus_0_l|].
  rewrite IH. apply Qplus_assoc.
Qed.

Lemma rfold_app {A S} (body : S → A → result S) s l1 l2 :
  rfold body s (l1 ++ l2) = (try! s' ← rfold body s l1; rfold body s' l2).
Proof.
  revert s. induction l1 as [|a l1 IH]; intros s; simpl; [done|].
  destruct (body s a); simpl; [apply IH|done].
Qed.

Lemma enumerate_imap {A} (l : list A) start :
  Py.enumerate l start = imap (fun i a => (Z.of_nat i + start, a)%Z) l.
Proof.
  revert start. induction l as [|a l IH]; intros start; simpl; [done|].
  f_equal. rewrite IH. apply imap_ext. intros i x _. simpl. f_equal. lia.
Qed.

Lemma enumerate_ranked {A} (l : list A) : Py.enumerate l 1 = ranked l.
Proof. apply enumerate_imap. Qed.

Lemma ranked_snd {A} (l : list A) : snd <$> ranked l = l.
Proof.
  unfold ranked. generalize 1%Z. induction l as [|a l IH]; intros z; [done|].
  rewrite imap_cons, fmap_cons. simpl. f_equal.
  rewrite <-(IH (1 + z)%Z) at 2. f_equal. apply imap_ext. intros i x _. simpl. f_equal. lia.
Qed.

Lemma ranked_positive {A} (l : list A) : Forall (fun e => (1 ≤ fst e)%Z) (ranked l).
Proof.
  apply Forall_forall. intros [r a] Hin.
  apply elem_of_lookup_imap in Hin as (i & x & [= -> ->] & _). simpl. lia.
Qed.

Lemma occurrences_positive all : Forall (fun e => (1 ≤ fst e)%Z) (occurrences all).
Proof.
  unfold occurrences. induction all as [|l all IH]; [constructor|].
  rewrite bind_cons. apply Forall_app. split; [apply ranked_positive|done].
Qed.

Lemma occurrences_snd all : snd <$> occurrences all = concat all.
Proof.
  unfold occurrences. induction all as [|l all IH]; [done|].
  rewrite bind_cons, fmap_app, ranked_snd, IH. done.
Qed.

Section fusion.
Import Fusion.
Context (k : Z).

Lemma rrf_accumulate_flat all st :
  rfold (fun st result_list => rfold (rrf_visit k) st (Py.enumerate result_list 1)) st all
  = rfold (rrf_visit k) st (occurrences all).
Proof.
  revert st. unfold occurrences. induction all as [|l all IH]; intros st; [done|].
  rewrite bind_cons, rfold_app, <-enumerate_ranked. simpl.
  destruct (rfold _ st (Py.enumerate l 1)); simpl; [apply IH|done].
Qed.

Lemma rfold_visit_ok st es :
  Forall (fun e => (k + fst e)%Z ≠ 0%Z) es →
  rfold (rrf_visit k) st es = Ok (foldl (rrf_update k) st es).
Proof.
  revert st. induction es as [|e es IH]; intros st Hes; [done|].
  apply Forall_cons in Hes as [He Hes]. simpl. unfold rrf_visit at 1.
  rewrite (proj2 (Z.eqb_neq _ _) He). simpl. by apply IH.
Qed.

Lemma state_after_snoc es e :
  state_after k (es ++ [e]) = rrf_update k (state_after k es) e.
Proof. unfold state_after. by rewrite foldl_snoc. Qed.

Lemma rrf_scores_keys es :
  Py.keys (rrf_scores (state_after k es)) = first_seen (content_of <$> es).
Proof.
  induction es as [|[rank [doc score]] es IH] using rev_ind; [done|].
  rewrite state_after_snoc, fmap_app, fmap_cons, fmap_nil, first_seen_snoc.
  cbn [rrf_update rrf_scores doc_map]. rewrite keys_set, IH.
  change (content_of (rank, (doc, score))) with (page_content doc).
  destruct (decide (page_content doc ∈ first_seen (content_of <$> es))) as [Hin|Hnin].
  - rewrite decide_True; [done|by apply first_seen_elem_of].
  - rewrite decide_False; [done|by rewrite <-first_seen_elem_of].
Qed.

Lemma doc_map_keys es :
  Py.keys (doc_map (state_after k es)) = first_seen (content_of <$> es).
Proof.
  induction es as [|[rank [doc score]] es IH] using rev_ind; [done|].
  rewrite state_after_snoc, fmap_app, fmap_cons, fmap_nil, first_seen_snoc.
  cbn [rrf_update rrf_scores doc_map]. rewrite keys_set, IH.
  change (content_of (rank, (doc, score))) with (page_content doc).
  destruct (decide (page_content doc ∈ first_seen (content_of <$> es))) as [Hin|Hnin].
  - rewrite decide_True; [done|by apply first_seen_elem_of].
  - rewrite decide_False; [done|by rewrite <-first_seen_elem_of].
Qed.

Lemma rrf_scores_sum es c :
  (Py.get_default 0 (rrf_scores (state_after k es)) c == rrf_sum k es c)%Q.
Proof.
  unfold rrf_sum, occurrences_of.
  induction es as [|[rank [doc score]] es IH] using rev_ind; [done|].
  rewrite state_after_snoc, filter_app, fmap_app, Qsum_app.
  cbn [rrf_update rrf_scores]. unfold Py.get_default in *.
  rewrite get_set, filter_cons, filter_nil.
  change (content_of (rank, (doc, score))) with (page_content doc).
  destruct (decide (page_content doc = c)) as [Heq|Hne]; simpl.
  - rewrite Heq, IH. by rewrite Qplus_0_r.
  - rewrite IH. by rewrite Qplus_0_r.
Qed.

Lemma doc_map_last es c :
  Py.get (doc_map (state_after k es)) c
  = (fun e => fst (snd e)) <$> last (occurrences_of c es).
Proof.
  unfold occurrences_of.
  induction es as [|[rank [doc score]] es IH] using rev_ind; [done|].
  rewrite state_after_snoc, filter_app.
  cbn [rrf_update doc_map]. rewrite get_set, filter_cons, filter_nil.
  change (content_of (rank, (doc, score))) with (page_content doc).
  destruct (decide (page_content doc = c)) as [Heq|Hne].
  - by rewrite last_snoc.
  - by rewrite app_nil_r.
Qed.

Lemma original_scores_all es c :
  Py.get_default [] (original_scores (state_after k es)) c
  = (fun e => snd (snd e)) <$> occurrences_of c es.
Proof.
  unfold occurrences_of.
  induction es as [|[rank [doc score]] es IH] using rev_ind; [done|].
  rewrite state_after_snoc, filter_app, fmap_app.
  cbn [rrf_update original_scores]. unfold Py.get_default in *.
  rewrite get_set, filter_cons, filter_nil.
  change (content_of (rank, (doc, score))) with (page_content doc).
  destruct (decide (page_content doc = c)) as [Heq|Hne]; simpl.
  - by rewrite Heq, IH.
  - by rewrite app_nil_r.
Qed.

End fusion.

Lemma rmap_Forall2 {A B} (f : A → result B) (R : A → B → Prop) (l : list A) :
  Forall (fun a => ∃ b, f a = Ok b ∧ R a b) l →
  ∃ rows, rmap f l = Ok rows ∧ Forall2 R l rows.
Proof.
  induction 1 as [|a l (b & Hb & HR) _ (rows & Hrows & Hall)]; simpl.
  - exists []. by split.
  - exists (b :: rows). rewrite Hb, Hrows. split; [done|by constructor].
Qed.

Lemma Forall2_elem_of_r {A B} (R : A → B → Prop) l l' y :
  Forall2 R l l' → y ∈ l' → ∃ x, x ∈ l ∧ R x y.
Proof.
  induction 1 as [|a b l l' Hab _ IH]; intros Hin.
  - by apply elem_of_nil in Hin.
  - apply elem_of_cons in Hin as [->|Hin].
    + exists a. split; [left|done].
    + destruct (IH Hin) as (x & Hx & HR). exists x. split; [by right|done].
Qed.

Lemma before_Forall2 {A B} (R : A → B → Prop) l l' x' y' :
  Forall2 R l l' → before l' x' y' →
  ∃ x y, before l x y ∧ R x x' ∧ R y y'.
Proof.
  unfold before. induction 1 as [|a b l l' Hab Hl IH]; intros Hsub.
  - by apply sublist_nil_r in Hsub.
  - apply sublist_cons_r in Hsub as [Hsub|(k' & Heq & Hsub)].
    + destruct (IH Hsub) as (x & y & Hxy & Hx & Hy).
      exists x, y. split; [by apply sublist_cons|done].
    + simplify_eq.
      assert (y' ∈ l') as Hy'.
      { eapply elem_of_sublist; [|exact Hsub]. left. }
      destruct (Forall2_elem_of_r _ _ _ _ Hl Hy') as (y & Hy & HRy).
      exists a, y. split; [|done].
      apply sublist_skip. apply list_elem_of_split in Hy as (l1 & l2 & ->).
      apply sublist_inserts_l. apply sublist_skip, sublist_nil_l.
Qed.

Lemma fused_rows_contents es items out :
  Forall2 (fused_row es) items out → row_content <$> out = fst <$> items.
Proof.
  induction 1 as [|item row items out (Hc & _) _ IH]; [done|].
  rewrite !fmap_cons. by f_equal.
Qed.

Section fusion_result.
Import Fusion.
Context (all_results : list (list Scored)) (k top_k : Z).
Hypothesis k_nonneg : (0 ≤ k)%Z.

Local Abbreviation es := (occurrences all_results).
Local Abbreviation st := (fusion_state k all_results).
Local Abbreviation items := (fusion_items k all_results top_k).
Local Abbreviation row_of := (fused_row (occurrences all_results)).

Lemma rrf_accumulate_ok : rrf_accumulate k all_results = Ok st.
Proof using k_nonneg.
  unfold rrf_accumulate. rewrite rrf_accumulate_flat. apply rfold_visit_ok.
  eapply Forall_impl; [apply occurrences_positive|]. simpl. lia.
Qed.

Lemma items_sublist : items `sublist_of` Py.sorted_reverse snd (rrf_scores st).
Proof. apply slice_to_sublist. Qed.

Lemma items_elem_of item : item ∈ items → item ∈ rrf_scores st.
Proof.
  intros Hin. apply (sorted_reverse_elem_of snd).
  eapply elem_of_sublist; [exact Hin|apply items_sublist].
Qed.

Lemma rrf_row_of item :
  item ∈ rrf_scores st → ∃ row, rrf_row st item = Ok row ∧ row_of item row.
Proof.
  destruct item as [c s]. intros Hin.
  assert (c ∈ first_seen (content_of <$> es)) as Hc.
  { rewrite <-(rrf_scores_keys k es). apply list_elem_of_fmap. by exists (c, s). }
  pose proof (doc_map_last k es c) as Hdoc. fold st in Hdoc.
  destruct (Py.get (doc_map st) c) as [doc|] eqn:Hget.
  - exists (doc, s, Py.get_default [] (original_scores st) c).
    unfold rrf_row, Py.getitem. rewrite Hget. split; [done|].
    unfold row_of, fused_row, row_content, row_score, row_doc. simpl.
    split_and!; [|done|done|apply original_scores_all].
    destruct (last (occurrences_of c es)) as [e|] eqn:Hlast; [|done].
    injection Hdoc as ->. apply last_Some_elem_of in Hlast.
    by apply list_elem_of_filter in Hlast as [? _].
  - apply get_None in Hget. destruct Hget.
    unfold st. by rewrite doc_map_keys.
Qed.

Lemma fusion_rows :
  ∃ out, _reciprocal_rank_fusion all_results k top_k = Ok out ∧ Forall2 row_of items out.
Proof using k_nonneg.
  unfold _reciprocal_rank_fusion. rewrite rrf_accumulate_ok. simpl. fold items.
  apply rmap_Forall2, Forall_forall. intros item Hin.
  by apply rrf_row_of, items_elem_of.
Qed.

Lemma rrf_scores_NoDup : NoDup (Py.keys (rrf_scores st)).
Proof. unfold st. rewrite rrf_scores_keys. apply first_seen_NoDup. Qed.

Lemma item_score c s : (c, s) ∈ rrf_scores st → (s == rrf_sum k es c)%Q.
Proof.
  intros Hin. rewrite <-(rrf_scores_sum k es c). fold st.
  unfold Py.get_default. by rewrite (elem_of_get _ c s rrf_scores_NoDup Hin).
Qed.

End fusion_result.

(** * The claims on rank fusion *)

(** C1. With [0 <= k] the fusion returns, and the fused score of every
    returned candidate is the sum of [1 / (k + r)] over the occurrences of
    its content at rank [r] (1-based) in the input lists.  For the lists
    [[A, B]] and [[B, C]] with [k = 60] the order is [[B, A, C]] and the
    scores are [1/62 + 1/61], [1/61] and [1/62]. *)
Theorem rrf_score_is_sum_of_reciprocal_ranks
    (all_results : list (list Scored)) (k top_k : Z) :
  (0 ≤ k)%Z →
  (∃ out, Fusion._reciprocal_rank_fusion all_results k top_k = Ok out ∧
     ∀ row, row ∈ out →
       (row_score row == rrf_sum k (occurrences all_results) (row_content row))%Q) ∧
  (∀ ma mb mb' mc sa sb sb' sc,
     ∃ out,
       Fusion._reciprocal_rank_fusion
         [[(mkDocument "A" ma, sa); (mkDocument "B" mb, sb)];
          [(mkDocument "B" mb', sb'); (mkDocument "C" mc, sc)]] 60 5 = Ok out ∧
       row_content <$> out = ["B"; "A"; "C"] ∧
       Forall2 Qeq (row_score <$> out) [1 / 62 + 1 / 61; 1 / 61; 1 / 62]%Q).
Proof.
  intros Hk. split.
  - destruct (fusion_rows all_results k top_k Hk) as (out & Hout & Hrows).
    exists out. split; [done|]. intros row Hrow.
    destruct (Forall2_elem_of_r _ _ _ _ Hrows Hrow) as ([c s] & Hin & Hc & Hs & _).
    simpl in Hc, Hs. rewrite Hc, Hs.
    by apply item_score, items_elem_of with top_k.
  - intros. eexists. split; [vm_compute; reflexivity|]. split; [reflexivity|].
    repeat constructor.
Qed.

Lemma rrf_score_is_sum_of_reciprocal_ranks_witness :
  ∃ out, Fusion._reciprocal_rank_fusion
           [[(mkDocument "A" [], 0.9%Q)]; [(mkDocument "A" [], 0.8%Q)]] 60 5 = Ok out ∧
    ∀ row, row ∈ out →
      (row_score row
       == rrf_sum 60 (occurrences [[(mkDocument "A" [], 0.9%Q)]; [(mkDocument "A" [], 0.8%Q)]])
            (row_content row))%Q.
Proof.
  exact (proj1 (rrf_score_is_sum_of_reciprocal_ranks
                  [[(mkDocument "A" [], 0.9%Q)]; [(mkDocument "A" [], 0.8%Q)]] 60 5
                  ltac:(lia))).
Defined.

(** C8, as the code has it.  With [0 <= k] the fusion returns rows of
    pairwise different contents; the Document of a row is the one of the
    last occurrence of its content in the input lists, and the scores of
    all the occurrences are kept, in the order of the occurrences. *)
Theorem fusion_keeps_last_document_and_all_scores
    (all_results : list (list Scored)) (k top_k : Z) :
  (0 ≤ k)%Z →
  ∃ out, Fusion._reciprocal_rank_fusion all_results k top_k = Ok out ∧
    NoDup (row_content <$> out) ∧
    ∀ row, row ∈ out →
      let occ := occurrences_of (row_content row) (occurrences all_results) in
      (fun e => fst (snd e)) <$> last occ = Some (row_doc row) ∧
      snd row = (fun e => snd (snd e)) <$> occ.
Proof.
  intros Hk.
  destruct (fusion_rows all_results k top_k Hk) as (out & Hout & Hrows).
  exists out. split; [done|]. split.
  - rewrite (fused_rows_contents _ _ _ Hrows).
    eapply sublist_NoDup; [|apply (fmap_sublist fst), slice_to_sublist].
    rewrite sorted_reverse_perm. apply rrf_scores_NoDup.
  - intros row Hrow.
    destruct (Forall2_elem_of_r _ _ _ _ Hrows Hrow) as ([c s] & Hin & Hc & Hs & Hdoc & Hos).
    simpl in *. by rewrite Hc.
Qed.

Lemma fusion_keeps_last_document_and_all_scores_witness :
  ∃ out, Fusion._reciprocal_rank_fusion
           [[(mkDocument "A" [("page", "1")], 0.9%Q)];
            [(mkDocument "A" [("page", "2")], 0.8%Q)]] 60 5 = Ok out ∧
    NoDup (row_content <$> out) ∧
    ∀ row, row ∈ out →
      let occ := occurrences_of (row_content row)
                   (occurrences [[(mkDocument "A" [("page", "1")], 0.9%Q)];
                                 [(mkDocument "A" [("page", "2")], 0.8%Q)]]) in
      (fun e => fst (snd e)) <$> last occ = Some (row_doc row) ∧
      snd row = (fun e => snd (snd e)) <$> occ.
Proof.
  apply (fusion_keeps_last_document_and_all_scores
           [[(mkDocument "A" [("page", "1")], 0.9%Q)];
            [(mkDocument "A" [("page", "2")], 0.8%Q)]] 60 5).
  lia.
Defined.

(** C8 as stated fails: the content "A" occurs in both lists with
    different metadata, and the row keeps the Document of the second list,
    not the one of the first occurrence. *)
Lemma fusion_first_occurrence_counterexample :
  let first := mkDocument "A" [("page", "1")] in
  let second := mkDocument "A" [("page", "2")] in
  let all_results := [[(first, 0.9%Q)]; [(second, 0.8%Q)]] in
  (fun e => fst (snd e)) <$> head (occurrences_of "A" (occurrences all_results)) = Some first ∧
  ∃ row, Fusion._reciprocal_rank_fusion all_results 60 5 = Ok [row] ∧
    row_doc row = second ∧ row_doc row ≠ first.
Proof.
  simpl. split; [reflexivity|].
  eexists. split; [vm_compute; reflexivity|]. split; [reflexivity|]. discriminate.
Qed.

(** * Deduplication *)

Lemma gt_spec a b : Py.gt a b = true ↔ (b < a)%Q.
Proof.
  unfold Py.gt. rewrite negb_true_iff, <-not_true_iff_false, Qle_bool_iff.
  split; [apply Qnot_le_lt|apply Qlt_not_le].
Qed.

Section dedup.
Import Subquery.

Lemma seen_after_snoc docs e : seen_after (docs ++ [e]) = dedup_visit (seen_after docs) e.
Proof. unfold seen_after. by rewrite foldl_snoc. Qed.

Lemma seen_after_keys docs :
  Py.keys (seen_after docs) = first_seen (content_scored <$> docs).
Proof.
  induction docs as [|[doc score] docs IH] using rev_ind; [done|].
  rewrite seen_after_snoc, fmap_app, fmap_cons, fmap_nil, first_seen_snoc.
  change (content_scored (doc, score)) with (page_content doc).
  unfold dedup_visit.
  destruct (Py.get (seen_after docs) (page_content doc)) as [kept|] eqn:Hget.
  - assert (page_content doc ∈ content_scored <$> docs) as Hin.
    { apply first_seen_elem_of. rewrite <-IH.
      destruct (decide (page_content doc ∈ Py.keys (seen_after docs))) as [|Hn]; [done|].
      apply get_None in Hn. congruence. }
    rewrite decide_True by done.
    destruct (Py.gt score (snd kept)); [|done].
    rewrite keys_set, IH. rewrite decide_True; [done|by apply first_seen_elem_of].
  - apply get_None in Hget. rewrite keys_set, decide_False by done.
    rewrite IH in *. rewrite decide_False; [done|by rewrite <-first_seen_elem_of].
Qed.

Lemma best_of_snoc_other c docs kept e :
  best_of c docs kept → content_scored e ≠ c → best_of c (docs ++ [e]) kept.
Proof.
  intros (l1 & l2 & -> & Hc & H1 & H2) Hne.
  exists l1, (l2 ++ [e]). split; [by rewrite <-app_assoc|]. split_and!; [done..|].
  intros e' [Hin|Hin%list_elem_of_singleton]%elem_of_app; [by apply H2|]. by subst.
Qed.

Lemma best_of_snoc_le c docs kept e :
  best_of c docs kept → (snd e <= snd kept)%Q → best_of c (docs ++ [e]) kept.
Proof.
  intros (l1 & l2 & -> & Hc & H1 & H2) Hle.
  exists l1, (l2 ++ [e]). split; [by rewrite <-app_assoc|]. split_and!; [done..|].
  intros e' [Hin|Hin%list_elem_of_singleton]%elem_of_app; [by apply H2|]. by subst.
Qed.

Lemma best_of_bound c docs kept e :
  best_of c docs kept → e ∈ docs → content_scored e = c → (snd e <= snd kept)%Q.
Proof.
  intros (l1 & l2 & -> & Hc & H1 & H2) Hin He.
  apply elem_of_app in Hin as [Hin|Hin]; [by apply Qlt_le_weak, H1|].
  apply elem_of_cons in Hin as [->|Hin]; [apply Qle_refl|by apply H2].
Qed.

Lemma seen_after_best docs c kept :
  Py.get (seen_after docs) c = Some kept → best_of c docs kept.
Proof.
  revert kept. induction docs as [|[doc score] docs IH] using rev_ind; [done|].
  intros kept. rewrite seen_after_snoc. unfold dedup_visit.
  destruct (Py.get (seen_after docs) (page_content doc)) as [old|] eqn:Hget.
  - destruct (Py.gt score (snd old)) eqn:Hgt.
    + rewrite get_set. case_decide as Hc.
      * intros [= <-]. subst c. exists docs, []. split_and!; [done..| |].
        -- intros e Hin He. apply gt_spec in Hgt.
           eapply Qle_lt_trans; [|exact Hgt]. eapply best_of_bound; eauto.
        -- intros e Hin. by apply elem_of_nil in Hin.
      * intros Hk. apply best_of_snoc_other; [by apply IH|done].
    + intros Hk. destruct (decide (page_content doc = c)) as [<-|Hne].
      * apply best_of_snoc_le; [by apply IH|]. simplify_eq. simpl.
        apply Qle_bool_iff. unfold Py.gt in Hgt. by apply negb_false_iff in Hgt.
      * apply best_of_snoc_other; [by apply IH|done].
  - rewrite get_set. case_decide as Hc.
    + intros [= <-]. subst c. exists docs, []. split_and!; [done..| |].
      * intros e Hin He. apply get_None in Hget. destruct Hget.
        rewrite seen_after_keys. apply first_seen_elem_of, list_elem_of_fmap. by exists e.
      * intros e Hin. by apply elem_of_nil in Hin.
    + intros Hk. apply best_of_snoc_other; [by apply IH|done].
Qed.

Lemma seen_after_NoDup docs : NoDup (Py.keys (seen_after docs)).
Proof. rewrite seen_after_keys. apply first_seen_NoDup. Qed.

(** Every value of [seen_content] sits under its own content. *)
Lemma seen_after_item docs c kept :
  (c, kept) ∈ seen_after docs → best_of c docs kept.
Proof. intros Hin. by apply seen_after_best, elem_of_get; [apply seen_after_NoDup|]. Qed.

Lemma seen_after_contents docs :
  content_scored <$> Py.values (seen_after docs) = first_seen (content_scored <$> docs).
Proof.
  rewrite <-seen_after_keys. unfold Py.values, Py.keys.
  rewrite <-list_fmap_compose. apply Forall_fmap_ext_1, Forall_forall.
  intros [c kept] Hin. simpl. by apply seen_after_item in Hin as (_ & _ & _ & Hc & _).
Qed.

End dedup.

Lemma sorted_reverse_descending_id {A} (key : A → Q) (l : list A) :
  descending key l → Py.sorted_reverse key l = l.
Proof.
  unfold descending. induction 1 as [|x l Hl IH Hx]; simpl; [done|].
  rewrite IH. destruct Hx as [|y l Hy _]; simpl; [done|].
  by rewrite (proj2 (Qle_bool_iff _ _) Hy).
Qed.

Lemma descending_Forall2 {A B} (keyA : A → Q) (keyB : B → Q) l l' :
  Forall2 (fun a b => keyB b = keyA a) l l' → descending keyA l → descending keyB l'.
Proof.
  unfold descending. induction 1 as [|a b l l' Hab Hl IH]; intros Hs; [constructor|].
  apply StronglySorted_cons in Hs as [Ha Hs]. constructor; [by apply IH|].
  apply Forall_forall. intros b' Hb'.
  destruct (Forall2_elem_of_r _ _ _ _ Hl Hb') as (a' & Ha' & Heq).
  rewrite Hab, Heq. by eapply Forall_forall in Ha.
Qed.

Lemma distinct_contents_first_seen docs :
  distinct_contents docs = length (first_seen (content_scored <$> docs)).
Proof.
  unfold distinct_contents.
  rewrite <-(size_list_to_set (C:=gset string)) by apply first_seen_NoDup.
  f_equal. apply set_eq. intros c.
  by rewrite !elem_of_list_to_set, first_seen_elem_of.
Qed.

(** * The claims on deduplication and on the order of ranked lists *)

(** C3. Deduplication keeps one candidate for each content of the input,
    the instance whose score is the maximum of its group; the selection
    sorts them by descending score and returns the first [top_k]; the
    output has [min(top_k, number of distinct contents)] entries.  The
    input [(D1,0.7), (D2,0.5), (D1,0.9)] with [top_k = 2] gives
    [(D1,0.9), (D2,0.5)]. *)
Theorem dedup_keeps_maximum_then_top_k (docs : list Scored) (top_k : Z) :
  (0 ≤ top_k)%Z →
  let unique_docs := Subquery._deduplicate_docs docs in
  let out := Subquery.dedup_and_select docs top_k in
  content_scored <$> unique_docs ≡ₚ first_seen (content_scored <$> docs) ∧
  (∀ e, e ∈ unique_docs → best_of (content_scored e) docs e) ∧
  descending snd unique_docs ∧
  out = take (Z.to_nat top_k) unique_docs ∧
  Z.of_nat (length out) = Z.min top_k (Z.of_nat (distinct_contents docs)) ∧
  (∀ m1 m2 m3,
     Subquery.dedup_and_select
       [(mkDocument "D1" m1, 0.7); (mkDocument "D2" m2, 0.5); (mkDocument "D1" m3, 0.9)]%Q 2
     = [(mkDocument "D1" m3, 0.9); (mkDocument "D2" m2, 0.5)]%Q).
Proof.
  intros Hk unique_docs out.
  assert (descending snd unique_docs) as Hdesc by apply sorted_reverse_descending.
  assert (content_scored <$> unique_docs ≡ₚ first_seen (content_scored <$> docs)) as Hperm.
  { unfold unique_docs, Subquery._deduplicate_docs.
    by rewrite sorted_reverse_perm, seen_after_contents. }
  assert (out = take (Z.to_nat top_k) unique_docs) as Hout.
  { unfold out, Subquery.dedup_and_select. fold unique_docs.
    by rewrite sorted_reverse_descending_id, slice_to_nonneg. }
  split_and!; [done| |done|done| |done].
  - intros e Hin.
    apply sorted_reverse_elem_of, list_elem_of_fmap in Hin as ([c kept] & Heq & Hin).
    simpl in Heq. subst kept.
    pose proof (seen_after_item _ _ _ Hin) as Hbest.
    destruct Hbest as (l1 & l2 & Hdocs & Hc & Hbounds).
    exists l1, l2. by rewrite Hc.
  - rewrite Hout, length_take, distinct_contents_first_seen, <-Hperm, length_fmap. lia.
Qed.

Lemma dedup_keeps_maximum_then_top_k_witness :
  Z.of_nat (length (Subquery.dedup_and_select
                      [(mkDocument "D1" [], 0.7%Q); (mkDocument "D1" [], 0.9%Q)] 5))
  = Z.min 5 (Z.of_nat (distinct_contents
                         [(mkDocument "D1" [], 0.7%Q); (mkDocument "D1" [], 0.9%Q)])).
Proof.
  exact (proj1 (proj2 (proj2 (proj2 (proj2
    (dedup_keeps_maximum_then_top_k
       [(mkDocument "D1" [], 0.7%Q); (mkDocument "D1" [], 0.9%Q)] 5 ltac:(lia))))))).
Defined.

(** C2. The ranked lists of fusion, of deduplication and selection and of
    the entity filter are in descending order of their score, entries of
    equal score stand in first-seen order (for fusion and deduplication
    the order in which the contents are first seen, for the entity filter
    the order of the retrieved documents), and no list is longer than
    [top_k]. *)
Theorem ranked_lists_sorted_stable_bounded
    (all_results : list (list Scored)) (k : Z)
    (docs : list Scored) (entities : gset string) (top_k : Z) :
  (0 ≤ k)%Z → (0 ≤ top_k)%Z →
  (∃ out, Fusion._reciprocal_rank_fusion all_results k top_k = Ok out ∧
     (Z.of_nat (length out) ≤ top_k)%Z ∧
     descending row_score out ∧
     ∀ x y, before out x y → (row_score x == row_score y)%Q →
       before (first_seen (content_of <$> occurrences all_results))
              (row_content x) (row_content y)) ∧
  (let out := Subquery.dedup_and_select docs top_k in
     (Z.of_nat (length out) ≤ top_k)%Z ∧
     descending snd out ∧
     ∀ x y, before out x y → (snd x == snd y)%Q →
       before (first_seen (content_scored <$> docs)) (content_scored x) (content_scored y)) ∧
  (let out := GraphRag._filter_docs_by_entities docs entities top_k in
     (Z.of_nat (length out) ≤ top_k)%Z ∧
     descending snd out ∧
     ties_as_in snd (GraphRag.rescore entities <$> docs) out).
Proof.
  intros Hk Htop. split_and!.
  - destruct (fusion_rows all_results k top_k Hk) as (out & Hout & Hrows).
    exists out. split_and!; [done| | |].
    + rewrite <-(Forall2_length _ _ _ Hrows). unfold fusion_items.
      rewrite slice_to_length by done. lia.
    + apply (descending_Forall2 snd row_score (fusion_items k all_results top_k) out).
      * eapply Forall2_impl; [exact Hrows|]. by intros item row (_ & Hs & _).
      * apply slice_to_descending, sorted_reverse_descending.
    + intros x y Hxy Heq.
      destruct (before_Forall2 _ _ _ _ _ Hrows Hxy)
        as (ix & iy & Hi & (Hcx & Hsx & _) & (Hcy & Hsy & _)).
      rewrite Hcx, Hcy, Hsx, Hsy in *.
      rewrite <-(rrf_scores_keys k). unfold before, Py.keys.
      apply (fmap_sublist fst [ix; iy]).
      apply (sorted_reverse_stable snd); [|done].
      unfold before. etrans; [exact Hi|apply slice_to_sublist].
  - intros out. unfold out, Subquery.dedup_and_select. split_and!.
    + rewrite slice_to_length by done. lia.
    + apply slice_to_descending, sorted_reverse_descending.
    + intros x y Hxy Heq.
      rewrite <-seen_after_contents. apply (fmap_sublist content_scored [x; y]).
      apply (sorted_reverse_stable snd); [|done].
      apply (sorted_reverse_stable snd); [|done].
      unfold before. etrans; [exact Hxy|apply slice_to_sublist].
  - intros out. unfold out, GraphRag._filter_docs_by_entities. split_and!.
    + rewrite slice_to_length by done. lia.
    + apply slice_to_descending, sorted_reverse_descending.
    + apply slice_to_ties, sorted_reverse_stable.
Qed.

Lemma ranked_lists_sorted_stable_bounded_witness :
  let docs := [(mkDocument "D1" [], 0.5%Q); (mkDocument "D2" [], 0.5%Q)] in
  let out := GraphRag._filter_docs_by_entities docs {[ "d2" ]} 1 in
  (Z.of_nat (length out) ≤ 1)%Z ∧
  descending snd out ∧
  ties_as_in snd (GraphRag.rescore {[ "d2" ]} <$> docs) out.
Proof.
  exact (proj2 (proj2
    (ranked_lists_sorted_stable_bounded
       [[(mkDocument "A" [], 0.9%Q)]] 60
       [(mkDocument "D1" [], 0.5%Q); (mkDocument "D2" [], 0.5%Q)] {[ "d2" ]} 1
       ltac:(lia) ltac:(lia)))).
Defined.

(** * Entity graph expansion *)

Section expansion.
Import GraphRag.
Context (graph_edges : list (string * string)).

Lemma neighbours_acc (current_level acc : gset string) es x :
  x ∈ foldl (fun next_level edge =>
               let '(e1, e2) := edge in
               let next_level :=
                 if bool_decide (e1 ∈ current_level) then next_level ∪ {[e2]}
                 else next_level in
               if bool_decide (e2 ∈ current_level) then next_level ∪ {[e1]}
               else next_level) acc es
  ↔ x ∈ acc ∨ ∃ y, y ∈ current_level ∧ adjacent es y x.
Proof.
  unfold adjacent. revert acc. induction es as [|[e1 e2] es IH]; intros acc; simpl.
  - split; [by left|]. intros [?|(y & _ & [H|H])]; [done|by apply elem_of_nil in H..].
  - rewrite IH. setoid_rewrite elem_of_cons.
    do 2 case_bool_decide; set_solver.
Qed.

Lemma elem_of_neighbours current_level x :
  x ∈ neighbours graph_edges current_level
  ↔ ∃ y, y ∈ current_level ∧ adjacent graph_edges y x.
Proof. unfold neighbours. rewrite neighbours_acc. set_solver. Qed.

Lemma rounds_level seed n x :
  x ∈ snd (rounds graph_edges seed n) ↔ ∃ s, s ∈ seed ∧ walk graph_edges n s x.
Proof.
  revert x. induction n as [|n IH]; intros x; simpl.
  - rewrite elem_of_list_to_set. split.
    + intros Hx. exists x. split; [done|constructor].
    + intros (s & Hs & Hw). by inversion Hw; subst.
  - rewrite elem_of_neighbours. split.
    + intros (y & Hy & Hadj). apply IH in Hy as (s & Hs & Hw).
      exists s. split; [done|]. by econstructor.
    + intros (s & Hs & Hw). inversion Hw as [|n' a b c Hw' Hadj]; subst.
      exists b. split; [|done]. apply IH. by exists s.
Qed.

Lemma rounds_expanded seed n x :
  x ∈ fst (rounds graph_edges seed n) ↔ within_hops graph_edges seed n x.
Proof.
  unfold within_hops. revert x. induction n as [|n IH]; intros x; simpl.
  - rewrite elem_of_list_to_set. split.
    + intros Hx. exists x, 0. split_and!; [done..|constructor].
    + intros (s & m & Hs & Hm & Hw). assert (m = 0) as -> by lia.
      by inversion Hw; subst.
  - rewrite elem_of_union, IH. fold (rounds graph_edges seed n).
    pose proof (rounds_level seed (S n) x) as Hlevel. simpl in Hlevel.
    fold (rounds graph_edges seed n) in Hlevel. rewrite Hlevel. split.
    + intros [(s & m & Hs & Hm & Hw)|(s & Hs & Hw)].
      * exists s, m. split_and!; [done|lia|done].
      * exists s, (S n). by split_and!.
    + intros (s & m & Hs & Hm & Hw).
      destruct (decide (m = S n)) as [->|Hne].
      * right. by exists s.
      * left. exists s, m. split_and!; [done|lia|done].
Qed.

End expansion.

(** * The claims on entity expansion *)

(** C6. The expansion returns the seeds together with the entities
    reached from a seed along at most [hops] edges; with [hops = 0] it
    returns the seed set; on the edges (Python, Guido), (Guido, 1991) and
    the seed Python, one hop gives {Python, Guido} and two hops give
    {Python, Guido, 1991}. *)
Theorem expansion_is_seed_and_reachable_within_hops
    (seed_entities : list string) (graph : GraphRag.EntityGraph) (hops : Z) :
  (∀ x, x ∈ GraphRag._expand_entities seed_entities graph hops
        ↔ within_hops (GraphRag.edges graph) seed_entities (Z.to_nat hops) x) ∧
  GraphRag._expand_entities seed_entities graph 0 = list_to_set seed_entities ∧
  (∀ graph_nodes,
     let g := GraphRag.mkGraph graph_nodes [("Python", "Guido"); ("Guido", "1991")] in
     GraphRag._expand_entities ["Python"] g 0 = {[ "Python" ]} ∧
     GraphRag._expand_entities ["Python"] g 1 = {[ "Python"; "Guido" ]} ∧
     GraphRag._expand_entities ["Python"] g 2 = {[ "Python"; "Guido"; "1991" ]}).
Proof.
  split_and!.
  - intros x. apply rounds_expanded.
  - done.
  - intros graph_nodes g. split_and!; vm_compute; reflexivity.
Qed.

(** C10. The expansion contains every seed, and one more hop never loses
    an entity (a negative hop count makes no round at all). *)
Theorem expansion_extends_seed_and_grows_with_hops
    (seed_entities : list string) (graph : GraphRag.EntityGraph) (hops : Z) :
  list_to_set seed_entities ⊆ GraphRag._expand_entities seed_entities graph hops ∧
  GraphRag._expand_entities seed_entities graph hops
    ⊆ GraphRag._expand_entities seed_entities graph (hops + 1).
Proof.
  unfold GraphRag._expand_entities. split.
  - intros x Hx. apply rounds_expanded. apply elem_of_list_to_set in Hx.
    exists x, 0. split_and!; [done|lia|constructor].
  - destruct (Z.le_gt_cases 0 hops) as [Hpos|Hneg].
    + rewrite Z2Nat.inj_add by lia. rewrite Nat.add_1_r. simpl.
      apply union_subseteq_l.
    + by rewrite !(Z2Nat.nonpos) by lia.
Qed.

(** * Two-stage reranking *)

(** With a credential the orchestrator does call the services: when each
    of them returns, the log holds the embedding request, the stage-1
    search and the stage-2 reranking, in that order. *)
Lemma reranking_calls_with_credential W query top_k key initial_top_k final_top_n
    vector initial_docs results :
  Py.truthy key = true →
  let k1 := default (top_k * 4)%Z initial_top_k in
  let n2 := default top_k final_top_n in
  let passages := (fun entry => page_content (fst entry)) <$> initial_docs in
  embed_query W [] query = Ok vector →
  similarity_search_with_score W [CallEmbed query] query k1 = Ok initial_docs →
  rerank W [CallEmbed query; CallSearch query k1] query passages n2 = Ok results →
  snd (run (Reranking.reranking_rag query top_k (Some key) initial_top_k final_top_n) W)
  = [CallEmbed query; CallSearch query k1; CallRerank query passages n2].
Proof.
  intros Hkey k1 n2 passages Hembed Hsearch Hrerank.
  unfold run, Reranking.reranking_rag, Reranking.key_present. rewrite Hkey. simpl.
  unfold bind, perform, lift. simpl. fold k1 n2. rewrite Hembed, Hsearch. fold passages.
  rewrite Hrerank. done.
Qed.

(** C5. Without a reranking credential ([None] or the empty string) the
    orchestrator raises the configuration error and has called no
    service: the log of calls is empty, so neither stage 1 nor stage 2
    was reached. *)
Theorem reranking_fails_fast_without_credential
    (W : Services) (query : string) (top_k : Z) (cohere_api_key : option string)
    (initial_top_k final_top_n : option Z) :
  cohere_api_key = None ∨ cohere_api_key = Some "" →
  run (Reranking.reranking_rag query top_k cohere_api_key initial_top_k final_top_n) W
  = (Err (ValueError "cohere_api_key is required for reranking"), []).
Proof. by intros [-> | ->]. Qed.

Lemma reranking_fails_fast_without_credential_witness :
  run (Reranking.reranking_rag "what is RAG?" 5 None None None)
      {| get_llm := Ok tt;
         generate := fun _ _ => Ok "";
         embed_query := fun _ _ => Ok [];
         similarity_search_with_score := fun _ _ _ => Ok [];
         rerank := fun _ _ _ _ => Ok [] |}
  = (Err (ValueError "cohere_api_key is required for reranking"), []).
Proof.
  apply reranking_fails_fast_without_credential. by left.
Defined.

(** * Adaptive routing *)

(** Every category of the closed set has its technique in the table. *)
Lemma category_table_total cat :
  cat ∈ Adaptive.VALID_CATEGORIES → is_Some (Adaptive.CATEGORY_TO_TECHNIQUE !! cat).
Proof.
  unfold Adaptive.VALID_CATEGORIES. rewrite !elem_of_cons, elem_of_nil.
  intros [->|[->|[->|[->|[]]]]]; eexists; vm_compute; reflexivity.
Qed.

Lemma validate_default c :
  c ∉ Adaptive.VALID_CATEGORIES →
  Forall (fun cat => Py.contains cat c = false) Adaptive.VALID_CATEGORIES →
  Adaptive.validate c = "simple".
Proof.
  intros Hc Hsub. unfold Adaptive.validate. rewrite bool_decide_eq_false_2 by done.
  unfold Adaptive.VALID_CATEGORIES in *.
  repeat (apply Forall_cons in Hsub as [? Hsub]). simpl.
  by repeat match goal with H : Py.contains _ _ = false |- _ => rewrite H; clear H end.
Qed.

(** C9. Once the client is built, if the classification call raises, or
    returns a response whose cleaned form is not a category and contains
    none, the category is "simple" and the technique is "baseline", the
    entry of "simple" in the category table. *)
Theorem router_falls_back_to_default
    (W : Services) (state : Adaptive.AdaptiveState) (log : list call) :
  get_llm W = Ok () →
  match generate W log (Adaptive.CLASSIFICATION_PROMPT (Adaptive.query state)) with
  | Ok raw =>
      ∀ c, Adaptive.normalize raw = Ok c →
        ((c ∉ Adaptive.VALID_CATEGORIES) ∧
         Forall (fun cat => Py.contains cat c = false) Adaptive.VALID_CATEGORIES)
  | Err _ => True
  end →
  ∃ state', fst (Adaptive.classify_then_select state W log) = Ok state' ∧
    Adaptive.query_type state' = "simple" ∧
    Adaptive.technique state' = "baseline" ∧
    Adaptive.CATEGORY_TO_TECHNIQUE !! "simple" = Some (Adaptive.technique state').
Proof.
  intros Hllm Hraw.
  unfold Adaptive.classify_then_select, Adaptive.classify_query_node.
  unfold bind, catch, perform, lift, ret. rewrite Hllm.
  destruct (generate W log _) as [raw|e]; [|by eexists].
  destruct (Adaptive.normalize raw) as [c|e]; [|by eexists].
  destruct (Hraw c eq_refl) as [Hc Hsub].
  eexists. split; [done|]. simpl. rewrite validate_default by done. done.
Qed.

Lemma router_falls_back_to_default_witness :
  let W := {| get_llm := Ok tt;
              generate := fun _ _ => Ok "  Banana. ";
              embed_query := fun _ _ => Ok [];
              similarity_search_with_score := fun _ _ _ => Ok [];
              rerank := fun _ _ _ _ => Ok [] |} in
  let state := Adaptive.mkAdaptiveState "why?" "" "" 0 in
  Adaptive.normalize "  Banana. " = Ok "banana" ∧
  ∃ state', fst (Adaptive.classify_then_select state W []) = Ok state' ∧
    Adaptive.query_type state' = "simple" ∧
    Adaptive.technique state' = "baseline" ∧
    Adaptive.CATEGORY_TO_TECHNIQUE !! "simple" = Some (Adaptive.technique state').
Proof.
  intros W state. split; [reflexivity|].
  apply (router_falls_back_to_default W state []); [reflexivity|].
  simpl. intros c [= <-]. split.
  - unfold Adaptive.VALID_CATEGORIES. rewrite !not_elem_of_cons.
    split_and!; [discriminate..|apply not_elem_of_nil].
  - repeat constructor.
Defined.

(** * Query expansion and graph building when the generation call fails *)

Section generation_failure.
Context (W : Services) (log : list call).





End generation_failure.


Section graph_build.
Import GraphRag.
Context (W : Services).

Lemma build_visit_outcome g (entry : Scored) log :
  build_visit g entry W log
  = (match generate W log (entities_prompt (page_content (fst entry))) with
     | Ok response =>
         let entities := Py.slice_to (entity_lines response) 10 in
         Ok {| nodes := nodes g ∪ list_to_set entities;
               edges := edges g ++ pairs entities |}
     | Err e => Err e
     end,
     log ++ [CallGenerate (entities_prompt (page_content (fst entry)))]).
Proof.
  unfold build_visit, _extract_entities, ainvoke_smart, bind, perform, ret.
  by destruct (generate W log _).
Qed.

Lemma build_one_failed docs g log entry :
  entry ∈ docs →
  (∀ log', ∃ e, generate W log' (entities_prompt (page_content (fst entry))) = Err e) →
  ∃ e, fst (mfold build_visit g docs W log) = Err e.
Proof.
  intros Hin Hfail. revert g log. induction docs as [|entry0 docs IH]; intros g log.
  - by apply elem_of_nil in Hin.
  - cbn [mfold]. unfold bind at 1. rewrite build_visit_outcome.
    destruct (generate W log _) as [response|e] eqn:Hcall; [|by exists e].
    cbv beta iota zeta.
    apply elem_of_cons in Hin as [->|Hin]; [|by apply IH].
    destruct (Hfail log) as [e He]. congruence.
Qed.

Lemma build_every_call_returned docs responses g log :
  length responses = length docs →
  (∀ i entry, docs !! i = Some entry →
     ∃ response, responses !! i = Some response ∧
                 extraction_outcome W log docs i entry = Ok response) →
  mfold build_visit g docs W log
  = (Ok {| nodes := nodes g ∪ list_to_set (concat (entities_of <$> responses));
           edges := edges g ++ concat ((fun r => pairs (entities_of r)) <$> responses) |},
     log ++ (extraction_call <$> docs)).
Proof.
  revert responses g log. induction docs as [|entry docs IH]; intros responses g log Hlen Hall.
  - destruct responses; [|done]. simpl. destruct g as [ns es]. simpl.
    by rewrite union_empty_r_L, !app_nil_r.
  - destruct responses as [|response responses]; [done|].
    destruct (Hall 0%nat entry eq_refl) as (r0 & [= <-] & Hr0).
    unfold extraction_outcome in Hr0. simpl in Hr0. rewrite app_nil_r in Hr0.
    cbn [mfold]. unfold bind at 1. rewrite build_visit_outcome, Hr0.
    cbv beta iota zeta. rewrite (IH responses).
    + rewrite !fmap_cons. cbn [concat nodes edges]. fold (entities_of response).
      rewrite list_to_set_app_L, (assoc_L (∪)), <-!app_assoc. done.
    + simpl in Hlen. lia.
    + intros i entry' Hi. destruct (Hall (S i) entry' Hi) as (r & Hr & Hout).
      exists r. split; [done|]. unfold extraction_outcome in *.
      rewrite <-Hout. simpl. by rewrite <-app_assoc.
Qed.

Lemma build_first_failure docs g log i entry e :
  docs !! i = Some entry →
  (∀ j entry', (j < i)%nat → docs !! j = Some entry' →
     ∃ response, extraction_outcome W log docs j entry' = Ok response) →
  extraction_outcome W log docs i entry = Err e →
  mfold build_visit g docs W log = (Err e, log ++ (extraction_call <$> take (S i) docs)).
Proof.
  revert i g log. induction docs as [|entry0 docs IH]; intros i g log Hi Hbefore Hfail; [done|].
  cbn [mfold]. unfold bind at 1. rewrite build_visit_outcome.
  destruct i as [|i].
  - injection Hi as ->. unfold extraction_outcome in Hfail. simpl in Hfail.
    rewrite app_nil_r in Hfail. rewrite Hfail. reflexivity.
  - destruct (Hbefore 0%nat entry0) as (r0 & Hr0); [lia|done|].
    unfold extraction_outcome in Hr0. simpl in Hr0. rewrite app_nil_r in Hr0.
    rewrite Hr0. cbv beta iota zeta.
    rewrite (IH i _ _ Hi).
    + by rewrite <-app_assoc.
    + intros j entry' Hj Hlook. destruct (Hbefore (S j) entry') as (r & Hr); [lia|done|].
      exists r. unfold extraction_outcome in *. rewrite <-Hr. simpl. by rewrite <-app_assoc.
    + unfold extraction_outcome in *. rewrite <-Hfail. simpl. by rewrite <-app_assoc.
Qed.

End graph_build.

(** C7, as the code has it.  The builder asks for the entities of the
    first five documents, one request after the other.  When every one
    of these requests returns, the builder returns the graph whose nodes
    are the entities extracted from the responses and whose edges join
    every pair of entities of one document.  The first request that
    raises aborts the build: its exception is the outcome and no graph
    is returned.  So a document whose request raises, whatever the log,
    makes the build raise. *)
Theorem graph_build_aborts_on_failed_extraction
    (W : Services) (docs : list Scored) (log : list call) :
  (∀ responses,
     length responses = length (take 5 docs) →
     (∀ i entry, take 5 docs !! i = Some entry →
        ∃ response, responses !! i = Some response ∧
                    extraction_outcome W log (take 5 docs) i entry = Ok response) →
     fst (GraphRag._build_entity_graph docs W log)
     = Ok {| GraphRag.nodes := list_to_set (concat (entities_of <$> responses));
             GraphRag.edges :=
               concat ((fun r => GraphRag.pairs (entities_of r)) <$> responses) |}) ∧
  (∀ i entry e,
     take 5 docs !! i = Some entry →
     (∀ j entry', (j < i)%nat → take 5 docs !! j = Some entry' →
        ∃ response, extraction_outcome W log (take 5 docs) j entry' = Ok response) →
     extraction_outcome W log (take 5 docs) i entry = Err e →
     fst (GraphRag._build_entity_graph docs W log) = Err e) ∧
  (∀ entry,
     entry ∈ take 5 docs →
     (∀ log', ∃ e,
        generate W log' (GraphRag.entities_prompt (page_content (fst entry))) = Err e) →
     ∃ e, fst (GraphRag._build_entity_graph docs W log) = Err e).
Proof.
  unfold GraphRag._build_entity_graph. rewrite slice_to_nonneg by done.
  change (Z.to_nat 5) with 5%nat. split_and!.
  - intros responses Hlen Hall. rewrite (build_every_call_returned W _ responses) by done.
    simpl. by rewrite union_empty_l_L.
  - intros i entry e Hi Hbefore Hfail.
    by rewrite (build_first_failure W _ _ _ i entry e).
  - intros entry Hin Hfail. by eapply build_one_failed.
Qed.

Lemma graph_build_aborts_on_failed_extraction_witness :
  let W := {| get_llm := Ok tt;
              generate := fun _ _ => Err (RuntimeError "Live API returned empty response");
              embed_query := fun _ _ => Ok [];
              similarity_search_with_score := fun _ _ _ => Ok [];
              rerank := fun _ _ _ _ => Ok [] |} in
  ∃ e, fst (GraphRag._build_entity_graph [(mkDocument "Python was created by Guido" [], 1%Q)] W [])
       = Err e.
Proof.
  intros W.
  apply (proj2 (proj2 (graph_build_aborts_on_failed_extraction W
                  [(mkDocument "Python was created by Guido" [], 1%Q)] []))
               (mkDocument "Python was created by Guido" [], 1%Q)).
  - left.
  - intros log'. by eexists.
Defined.

(** C7 as stated fails: the extraction call of the only sampled document
    raises, and the builder raises with it instead of returning a
    graph. *)
Lemma graph_build_counterexample :
  let W := {| get_llm := Ok tt;
              generate := fun _ _ => Err (RuntimeError "Live API returned empty response");
              embed_query := fun _ _ => Ok [];
              similarity_search_with_score := fun _ _ _ => Ok [];
              rerank := fun _ _ _ _ => Ok [] |} in
  fst (run (GraphRag._build_entity_graph
              [(mkDocument "Python was created by Guido" [], 1%Q)]) W)
  = Err (RuntimeError "Live API returned empty response").
Proof. reflexivity. Qed.

(** * Further properties of rank fusion *)

Lemma rfold_visit_err k st es :
  Exists (fun e => (k + fst e)%Z = 0%Z) es →
  rfold (Fusion.rrf_visit k) st es = Err ZeroDivisionError.
Proof.
  intros Hex. revert st. induction es as [|e es IH]; intros st.
  - by apply Exists_nil in Hex.
  - simpl. unfold Fusion.rrf_visit at 1.
    destruct (Z.eqb_spec (k + fst e) 0) as [Hz|Hnz]; [done|]. simpl.
    apply Exists_cons in Hex as [Hz|Hex]; [done|by apply IH].
Qed.

Lemma elem_of_occurrences e all :
  e ∈ occurrences all
  ↔ ∃ l i, l ∈ all ∧ l !! i = Some (snd e) ∧ fst e = (Z.of_nat i + 1)%Z.
Proof.
  unfold occurrences, ranked. rewrite list_elem_of_bind. split.
  - intros (l & Hin & Hl). apply elem_of_lookup_imap in Hin as (i & x & -> & Hi).
    by exists l, i.
  - intros (l & i & Hl & Hi & Hr). exists l. split; [|done].
    destruct e as [r x]. simpl in *. subst r.
    by apply (elem_of_lookup_imap_2 (fun i a => (Z.of_nat i + 1, a)%Z)).
Qed.

(** Some list is long enough to hold the rank [- k]. *)
Lemma rank_cancels_iff k all :
  Exists (fun e => (k + fst e)%Z = 0%Z) (occurrences all)
  ↔ ∃ l, l ∈ all ∧ (1 ≤ - k ≤ Z.of_nat (length l))%Z.
Proof.
  rewrite Exists_exists. split.
  - intros (e & (l & i & Hl & Hi & Hr)%elem_of_occurrences & Hz).
    exists l. split; [done|]. apply lookup_lt_Some in Hi. lia.
  - intros (l & Hl & Hk).
    destruct (lookup_lt_is_Some_2 l (Z.to_nat (- k - 1))) as [x Hx]; [lia|].
    exists ((- k)%Z, x). split; [|simpl; lia].
    apply elem_of_occurrences. exists l, (Z.to_nat (- k - 1)). simpl.
    split_and!; [done..|lia].
Qed.

Lemma fusion_rows_when_no_rank_cancels all k top_k :
  ¬ Exists (fun e => (k + fst e)%Z = 0%Z) (occurrences all) →
  ∃ out, Fusion._reciprocal_rank_fusion all k top_k = Ok out ∧
    Forall2 (fused_row (occurrences all)) (fusion_items k all top_k) out.
Proof.
  intros Hno. unfold Fusion._reciprocal_rank_fusion, Fusion.rrf_accumulate.
  rewrite rrf_accumulate_flat, rfold_visit_ok.
  - simpl. apply rmap_Forall2, Forall_forall. intros item Hin.
    by apply rrf_row_of, items_elem_of with top_k.
  - apply Forall_forall. intros e He Hz. apply Hno, Exists_exists. by exists e.
Qed.

(** X1. Fusion of lists that are all empty, or of no list at all, is the
    empty ranking, whatever [k] and [top_k] are. *)
Theorem fusion_of_empty_lists_is_empty (all_results : list (list Scored)) (k top_k : Z) :
  Forall (fun result_list => result_list = []) all_results →
  Fusion._reciprocal_rank_fusion all_results k top_k = Ok [].
Proof.
  intros Hall.
  assert (occurrences all_results = []) as Hocc.
  { unfold occurrences. induction Hall as [|l all -> _ IH]; [done|].
    by rewrite bind_cons, IH. }
  unfold Fusion._reciprocal_rank_fusion, Fusion.rrf_accumulate.
  rewrite rrf_accumulate_flat, Hocc. simpl.
  unfold Py.slice_to. by destruct (0 <=? top_k)%Z; rewrite take_nil.
Qed.

Lemma fusion_of_empty_lists_is_empty_witness :
  Fusion._reciprocal_rank_fusion [[]; []] (-1) 5 = Ok [].
Proof.
  apply fusion_of_empty_lists_is_empty. by repeat constructor.
Defined.

(** X2. While [k + rank] stays an integer that a double can hold (its
    magnitude below [2 ^ 1023], so that the conversion of the divisor
    cannot overflow), fusion raises exactly when [- k] is a rank that
    occurs, that is when some input list has at least [- k >= 1] entries;
    the exception is then the division by zero, and otherwise fusion
    returns. *)
Theorem fusion_raises_iff_rank_cancels_k (all_results : list (list Scored)) (k top_k : Z) :
  Forall (fun l : list Scored => (Z.abs k + Z.of_nat (length l) < 2 ^ 1023)%Z) all_results →
  match Fusion._reciprocal_rank_fusion all_results k top_k with
  | Ok _ => ¬ ∃ l, l ∈ all_results ∧ (1 ≤ - k ≤ Z.of_nat (length l))%Z
  | Err e => e = ZeroDivisionError ∧
             ∃ l, l ∈ all_results ∧ (1 ≤ - k ≤ Z.of_nat (length l))%Z
  end.
Proof.
  intros _.
  destruct (decide (Exists (fun e => (k + fst e)%Z = 0%Z) (occurrences all_results)))
    as [Hex|Hno].
  - unfold Fusion._reciprocal_rank_fusion, Fusion.rrf_accumulate.
    rewrite rrf_accumulate_flat, rfold_visit_err by done. simpl.
    split; [done|]. by apply rank_cancels_iff.
  - destruct (fusion_rows_when_no_rank_cancels _ _ top_k Hno) as (out & -> & _).
    by rewrite <-rank_cancels_iff.
Qed.

Lemma fusion_raises_iff_rank_cancels_k_witness :
  match Fusion._reciprocal_rank_fusion
          [[(mkDocument "A" [], 0.9%Q); (mkDocument "B" [], 0.8%Q)]] (-2) 5 with
  | Ok _ =>
      ¬ ∃ l, l ∈ [[(mkDocument "A" [], 0.9%Q); (mkDocument "B" [], 0.8%Q)]] ∧
             (1 ≤ - -2 ≤ Z.of_nat (length l))%Z
  | Err e =>
      e = ZeroDivisionError ∧
      ∃ l, l ∈ [[(mkDocument "A" [], 0.9%Q); (mkDocument "B" [], 0.8%Q)]] ∧
           (1 ≤ - -2 ≤ Z.of_nat (length l))%Z
  end.
Proof.
  apply (fusion_raises_iff_rank_cancels_k
           [[(mkDocument "A" [], 0.9%Q); (mkDocument "B" [], 0.8%Q)]] (-2) 5).
  repeat constructor.
Defined.

Lemma reciprocal_of_positive z :
  (0 < z)%Z → (1 / inject_Z z == 1 # Z.to_pos z)%Q.
Proof. destruct z; [lia| |lia]. intros _. reflexivity. Qed.

Lemma reciprocal_rank_bounds k r :
  (0 ≤ k)%Z → (1 ≤ r)%Z →
  (0 < 1 / inject_Z (k + r))%Q ∧ (1 / inject_Z (k + r) <= 1 / inject_Z (k + 1))%Q.
Proof.
  intros Hk Hr. rewrite !reciprocal_of_positive by lia.
  unfold Qlt, Qle. simpl. split; [lia|].
  rewrite !Z2Pos.id by lia. lia.
Qed.

Lemma Qsum_bounds hi l :
  Forall (fun q => 0 < q ∧ q <= hi)%Q l →
  (l ≠ [] → (0 < Qsum l)%Q) ∧ (Qsum l <= inject_Z (Z.of_nat (length l)) * hi)%Q.
Proof.
  induction 1 as [|q l [Hpos Hle] _ [IHpos IHle]]; cbn [Qsum length].
  - split; [done|]. simpl. rewrite Qmult_0_l. apply Qle_refl.
  - split.
    + intros _. destruct l as [|q' l'].
      * simpl. by rewrite Qplus_0_r.
      * rewrite <-(Qplus_0_r 0). apply Qplus_lt_le_compat; [done|].
        apply Qlt_le_weak, IHpos. done.
    + rewrite Nat2Z.inj_succ, <-Z.add_1_l, inject_Z_plus, Qmult_plus_distr_l, Qmult_1_l.
      by apply Qplus_le_compat.
Qed.

(** X3. With [0 <= k] every fused score is positive, also for a candidate
    found by one list only, and is at most [n / (k + 1)], where [n >= 1]
    is the number of original scores kept for the candidate. *)
Theorem fused_score_is_positive_and_bounded
    (all_results : list (list Scored)) (k top_k : Z) :
  (0 ≤ k)%Z →
  ∃ out, Fusion._reciprocal_rank_fusion all_results k top_k = Ok out ∧
    ∀ row, row ∈ out →
      (1 ≤ length (snd row))%nat ∧
      (0 < row_score row)%Q ∧
      (row_score row <= inject_Z (Z.of_nat (length (snd row))) * (1 / inject_Z (k + 1)))%Q.
Proof.
  intros Hk. destruct (fusion_rows all_results k top_k Hk) as (out & Hout & Hrows).
  exists out. split; [done|]. intros row Hrow.
  destruct (Forall2_elem_of_r _ _ _ _ Hrows Hrow) as ([c s] & Hin & Hc & Hs & Hdoc & Hos).
  simpl in *. rewrite Hos, Hs, length_fmap.
  apply items_elem_of, item_score in Hin. rewrite Hin. unfold rrf_sum.
  set (occ := occurrences_of c (occurrences all_results)) in *.
  assert (occ ≠ []) as Hne by (intros Hnil; by rewrite Hnil in Hdoc).
  destruct (Qsum_bounds (1 / inject_Z (k + 1))
              ((fun e => 1 / inject_Z (k + fst e))%Q <$> occ)) as [Hpos Hle].
  { apply Forall_fmap, Forall_forall. intros e He. simpl.
    apply reciprocal_rank_bounds; [done|].
    apply list_elem_of_filter in He as [_ He].
    by eapply Forall_forall in He; [|apply occurrences_positive]. }
  rewrite length_fmap in Hle. split_and!; [|apply Hpos|done].
  - destruct occ; [done|simpl; lia].
  - by intros ?%fmap_nil_inv.
Qed.

Lemma fused_score_is_positive_and_bounded_witness :
  ∃ out, Fusion._reciprocal_rank_fusion [[(mkDocument "A" [], 0.3%Q)]] 0 1 = Ok out ∧
    ∀ row, row ∈ out →
      (1 ≤ length (snd row))%nat ∧
      (0 < row_score row)%Q ∧
      (row_score row <= inject_Z (Z.of_nat (length (snd row))) * (1 / inject_Z (0 + 1)))%Q.
Proof.
  apply (fused_score_is_positive_and_bounded [[(mkDocument "A" [], 0.3%Q)]] 0 1). lia.
Defined.

Lemma size_list_to_set_first_seen (l : list string) :
  size (list_to_set l : gset string) = length (first_seen l).
Proof.
  rewrite <-(size_list_to_set (C:=gset string)) by apply first_seen_NoDup.
  f_equal. apply set_eq. intros c.
  by rewrite !elem_of_list_to_set, first_seen_elem_of.
Qed.

(** X4. With [0 <= k] and [0 <= top_k] fusion returns
    [min(top_k, number of different contents in the input lists)] rows:
    every content gets a row when [top_k] allows it. *)
Theorem fusion_returns_min_of_top_k_and_distinct_contents
    (all_results : list (list Scored)) (k top_k : Z) :
  (0 ≤ k)%Z → (0 ≤ top_k)%Z →
  ∃ out, Fusion._reciprocal_rank_fusion all_results k top_k = Ok out ∧
    Z.of_nat (length out)
    = Z.min top_k
        (Z.of_nat (size (list_to_set (content_scored <$> concat all_results) : gset string))).
Proof.
  intros Hk Htop. destruct (fusion_rows all_results k top_k Hk) as (out & Hout & Hrows).
  exists out. split; [done|].
  rewrite <-(Forall2_length _ _ _ Hrows). unfold fusion_items.
  rewrite slice_to_length, sorted_reverse_length by done. f_equal. f_equal.
  rewrite size_list_to_set_first_seen, <-occurrences_snd, <-list_fmap_compose.
  unfold fusion_state. rewrite <-(rrf_scores_keys k). unfold Py.keys.
  by rewrite length_fmap.
Qed.

Lemma fusion_returns_min_of_top_k_and_distinct_contents_witness :
  ∃ out, Fusion._reciprocal_rank_fusion
           [[(mkDocument "A" [], 0.3%Q); (mkDocument "B" [], 0.2%Q)];
            [(mkDocument "A" [], 0.9%Q)]] 60 5 = Ok out ∧
    Z.of_nat (length out)
    = Z.min 5
        (Z.of_nat (size (list_to_set
           (content_scored <$> concat [[(mkDocument "A" [], 0.3%Q); (mkDocument "B" [], 0.2%Q)];
                                       [(mkDocument "A" [], 0.9%Q)]]) : gset string))).
Proof.
  apply (fusion_returns_min_of_top_k_and_distinct_contents
           [[(mkDocument "A" [], 0.3%Q); (mkDocument "B" [], 0.2%Q)];
            [(mkDocument "A" [], 0.9%Q)]] 60 5); lia.
Defined.

Lemma rrf_scores_only_ranks_and_contents k es1 es2 st1 st2 :
  Fusion.rrf_scores st1 = Fusion.rrf_scores st2 →
  (fun e => (fst e, content_of e)) <$> es1 = (fun e => (fst e, content_of e)) <$> es2 →
  Fusion.rrf_scores (foldl (Fusion.rrf_update k) st1 es1)
  = Fusion.rrf_scores (foldl (Fusion.rrf_update k) st2 es2).
Proof.
  revert es2 st1 st2. induction es1 as [|[r1 [d1 s1]] es1 IH]; intros es2 st1 st2 Hst Hes.
  - symmetry in Hes. by apply fmap_nil_inv in Hes as ->.
  - destruct es2 as [|[r2 [d2 s2]] es2]; [done|].
    rewrite !fmap_cons in Hes. injection Hes as Hr Hc Hes.
    unfold content_of in Hc. simpl in Hc. simpl. apply IH; [|done].
    simpl. by rewrite Hst, Hr, Hc.
Qed.

Lemma ranked_contents (g : nat → Z) (l1 l2 : list Scored) :
  content_scored <$> l1 = content_scored <$> l2 →
  (fun e => (fst e, content_of e)) <$> imap (fun i a => (g i, a)) l1
  = (fun e => (fst e, content_of e)) <$> imap (fun i a => (g i, a)) l2.
Proof.
  revert g l2. induction l1 as [|a1 l1 IH]; intros g l2 Hl.
  - symmetry in Hl. by apply fmap_nil_inv in Hl as ->.
  - destruct l2 as [|a2 l2]; [done|].
    rewrite !fmap_cons in Hl. injection Hl as Ha Hl.
    rewrite !imap_cons, !fmap_cons. f_equal.
    + unfold content_of. simpl. unfold content_scored in Ha. by rewrite Ha.
    + by apply (IH (g ∘ S)).
Qed.

Lemma occurrences_contents (all1 all2 : list (list Scored)) :
  (fun l : list Scored => content_scored <$> l) <$> all1
  = (fun l : list Scored => content_scored <$> l) <$> all2 →
  (fun e => (fst e, content_of e)) <$> occurrences all1
  = (fun e => (fst e, content_of e)) <$> occurrences all2.
Proof.
  unfold occurrences. revert all2. induction all1 as [|l1 all1 IH]; intros all2 Hall.
  - symmetry in Hall. by apply fmap_nil_inv in Hall as ->.
  - destruct all2 as [|l2 all2]; [done|].
    rewrite !fmap_cons in Hall. injection Hall as Hl Hall.
    rewrite !bind_cons, !fmap_app. f_equal; [|by apply IH].
    by apply ranked_contents.
Qed.

Lemma fused_rows_scores es items out :
  Forall2 (fused_row es) items out → row_score <$> out = snd <$> items.
Proof.
  induction 1 as [|item row items out (_ & Hs & _) _ IH]; [done|].
  rewrite !fmap_cons. by f_equal.
Qed.

(** X5. The similarity scores of the input lists never influence the
    fused ranking: two inputs with the same contents at the same ranks
    give rows with the same contents, in the same order, with the same
    fused scores. *)
Theorem fusion_ignores_original_scores
    (all_results1 all_results2 : list (list Scored)) (k top_k : Z) :
  (0 ≤ k)%Z →
  (fun l : list Scored => content_scored <$> l) <$> all_results1
  = (fun l : list Scored => content_scored <$> l) <$> all_results2 →
  ∃ out1 out2,
    Fusion._reciprocal_rank_fusion all_results1 k top_k = Ok out1 ∧
    Fusion._reciprocal_rank_fusion all_results2 k top_k = Ok out2 ∧
    row_content <$> out1 = row_content <$> out2 ∧
    row_score <$> out1 = row_score <$> out2.
Proof.
  intros Hk Hsame.
  destruct (fusion_rows all_results1 k top_k Hk) as (out1 & Hout1 & Hrows1).
  destruct (fusion_rows all_results2 k top_k Hk) as (out2 & Hout2 & Hrows2).
  exists out1, out2. split_and!; [done..| |].
  - rewrite (fused_rows_contents _ _ _ Hrows1), (fused_rows_contents _ _ _ Hrows2).
    unfold fusion_items, fusion_state, Fusion.state_after.
    by rewrite (rrf_scores_only_ranks_and_contents k _ (occurrences all_results2)
                  Fusion.rrf_init Fusion.rrf_init eq_refl (occurrences_contents _ _ Hsame)).
  - rewrite (fused_rows_scores _ _ _ Hrows1), (fused_rows_scores _ _ _ Hrows2).
    unfold fusion_items, fusion_state, Fusion.state_after.
    by rewrite (rrf_scores_only_ranks_and_contents k _ (occurrences all_results2)
                  Fusion.rrf_init Fusion.rrf_init eq_refl (occurrences_contents _ _ Hsame)).
Qed.

Lemma fusion_ignores_original_scores_witness :
  ∃ out1 out2,
    Fusion._reciprocal_rank_fusion
      [[(mkDocument "A" [], 0.1%Q); (mkDocument "B" [], 0.9%Q)]] 60 5 = Ok out1 ∧
    Fusion._reciprocal_rank_fusion
      [[(mkDocument "A" [("page", "7")], 0.8%Q); (mkDocument "B" [], 0.2%Q)]] 60 5 = Ok out2 ∧
    row_content <$> out1 = row_content <$> out2 ∧
    row_score <$> out1 = row_score <$> out2.
Proof.
  apply (fusion_ignores_original_scores
           [[(mkDocument "A" [], 0.1%Q); (mkDocument "B" [], 0.9%Q)]]
           [[(mkDocument "A" [("page", "7")], 0.8%Q); (mkDocument "B" [], 0.2%Q)]] 60 5);
    [lia|reflexivity].
Defined.

(** * Further properties of deduplication *)

Lemma set_fresh {V} (d : Py.odict V) k v :
  k ∉ Py.keys d → Py.set d k v = d ++ [(k, v)].
Proof.
  unfold Py.keys. induction d as [|[k0 v0] d IH]; [done|].
  rewrite fmap_cons, not_elem_of_cons. intros [Hne Hd]. simpl.
  destruct (String.eqb_spec k0 k) as [->|_]; [done|]. by rewrite IH.
Qed.

Lemma seen_after_distinct docs :
  NoDup (content_scored <$> docs) →
  Subquery.seen_after docs = (fun e => (content_scored e, e)) <$> docs.
Proof.
  induction docs as [|[doc score] docs IH] using rev_ind; [done|].
  rewrite fmap_app. intros [Hdocs [Hnew _]]%NoDup_app.
  rewrite seen_after_snoc, fmap_app. unfold Subquery.dedup_visit.
  assert (page_content doc ∉ Py.keys (Subquery.seen_after docs)) as Hfresh.
  { rewrite seen_after_keys, first_seen_elem_of. intros Hin. apply (Hnew _ Hin). left. }
  rewrite (proj2 (get_None _ _) Hfresh), set_fresh by done. by rewrite IH.
Qed.

Lemma deduplicate_docs_contents docs :
  content_scored <$> Subquery._deduplicate_docs docs ≡ₚ first_seen (content_scored <$> docs).
Proof.
  unfold Subquery._deduplicate_docs. by rewrite sorted_reverse_perm, seen_after_contents.
Qed.

(** X6. Deduplication is idempotent: a list that went through
    [_deduplicate_docs] comes out of a second pass unchanged. *)
Theorem deduplicate_docs_idempotent (docs : list Scored) :
  Subquery._deduplicate_docs (Subquery._deduplicate_docs docs)
  = Subquery._deduplicate_docs docs.
Proof.
  set (unique_docs := Subquery._deduplicate_docs docs).
  assert (NoDup (content_scored <$> unique_docs)) as Hnodup.
  { unfold unique_docs. rewrite deduplicate_docs_contents. apply first_seen_NoDup. }
  unfold Subquery._deduplicate_docs at 1. rewrite seen_after_distinct by done.
  unfold Py.values. rewrite <-list_fmap_compose.
  rewrite (list_fmap_ext _ id) by done. rewrite list_fmap_id.
  apply sorted_reverse_descending_id, sorted_reverse_descending.
Qed.

(** X7. When at least one chunk is asked for, the first selected
    candidate is an entry of the input whose score no entry of the input
    exceeds: the best retrieved passage is never lost. *)
Theorem dedup_select_starts_with_a_top_scoring_candidate (docs : list Scored) (top_k : Z) :
  docs ≠ [] → (1 ≤ top_k)%Z →
  ∃ best rest, Subquery.dedup_and_select docs top_k = best :: rest ∧
    best ∈ docs ∧ ∀ e, e ∈ docs → (snd e <= snd best)%Q.
Proof.
  intros Hdocs Htop. unfold Subquery.dedup_and_select.
  set (unique_docs := Subquery._deduplicate_docs docs).
  assert (descending snd unique_docs) as Hdesc by apply sorted_reverse_descending.
  rewrite sorted_reverse_descending_id, slice_to_nonneg by (done || lia).
  assert (∀ kept, kept ∈ unique_docs → best_of (content_scored kept) docs kept) as Hbest.
  { intros kept Hin.
    apply sorted_reverse_elem_of, list_elem_of_fmap in Hin as ([c kept'] & Heq & Hin).
    simpl in Heq. subst kept'. pose proof (seen_after_item _ _ _ Hin) as Hb.
    destruct Hb as (l1 & l2 & Hd & Hc & Hb). exists l1, l2. by rewrite Hc. }
  assert (∀ e, e ∈ docs → ∃ kept, kept ∈ unique_docs ∧ (snd e <= snd kept)%Q) as Hcover.
  { intros e He.
    assert (content_scored e ∈ content_scored <$> unique_docs) as Hc.
    { unfold unique_docs. rewrite deduplicate_docs_contents, first_seen_elem_of.
      apply list_elem_of_fmap. by exists e. }
    apply list_elem_of_fmap in Hc as (kept & Hc & Hkept).
    exists kept. split; [done|]. eapply best_of_bound; [by apply Hbest|done|done]. }
  destruct unique_docs as [|best rest] eqn:Hu.
  { destruct docs as [|e docs]; [done|].
    destruct (Hcover e) as (kept & Hkept & _); [left|]. by apply elem_of_nil in Hkept. }
  exists best, (take (Z.to_nat top_k - 1) rest). split_and!.
  - destruct (Z.to_nat top_k) as [|n] eqn:Hn; [lia|]. simpl. by rewrite Nat.sub_0_r.
  - destruct (Hbest best) as (l1 & l2 & -> & _); [left|].
    apply elem_of_app. right. left.
  - intros e He. destruct (Hcover e He) as (kept & Hkept & Hle).
    eapply Qle_trans; [exact Hle|].
    apply elem_of_cons in Hkept as [->|Hkept]; [apply Qle_refl|].
    apply StronglySorted_cons in Hdesc as [Hall _].
    by eapply Forall_forall in Hall.
Qed.

Lemma dedup_select_starts_with_a_top_scoring_candidate_witness :
  ∃ best rest,
    Subquery.dedup_and_select [(mkDocument "D1" [], 0.2%Q); (mkDocument "D2" [], 0.7%Q)] 1
    = best :: rest ∧
    best ∈ [(mkDocument "D1" [], 0.2%Q); (mkDocument "D2" [], 0.7%Q)] ∧
    ∀ e, e ∈ [(mkDocument "D1" [], 0.2%Q); (mkDocument "D2" [], 0.7%Q)] →
         (snd e <= snd best)%Q.
Proof.
  apply (dedup_select_starts_with_a_top_scoring_candidate
           [(mkDocument "D1" [], 0.2%Q); (mkDocument "D2" [], 0.7%Q)] 1); [done|lia].
Defined.

(** * Further properties of the entity graph *)

(** X8. The edges that one document contributes are the pairs of its
    entities taken at increasing positions, [n (n - 1) / 2] of them for
    [n] entities; an entity listed twice is paired with itself. *)
Theorem pairs_are_the_increasing_index_pairs (entities : list string) :
  (∀ a b, (a, b) ∈ GraphRag.pairs entities
          ↔ ∃ i j, (i < j)%nat ∧ entities !! i = Some a ∧ entities !! j = Some b) ∧
  (2 * length (GraphRag.pairs entities) = length entities * (length entities - 1))%nat.
Proof.
  induction entities as [|e rest [IHin IHlen]]; simpl.
  - split; [|done]. intros a b. split; [by intros ?%elem_of_nil|].
    by intros (i & j & _ & Hi & _).
  - split.
    + intros a b. rewrite elem_of_app, list_elem_of_fmap, IHin. split.
      * intros [(y & [= -> ->] & Hy)|(i & j & Hij & Hi & Hj)].
        -- apply list_elem_of_lookup in Hy as [j Hj]. exists 0%nat, (S j).
           split_and!; [lia|done|done].
        -- exists (S i), (S j). split_and!; [lia|done|done].
      * intros (i & j & Hij & Hi & Hj). destruct j as [|j]; [lia|]. simpl in Hj.
        destruct i as [|i]; simpl in Hi.
        -- left. exists b. split; [congruence|]. apply list_elem_of_lookup. by exists j.
        -- right. exists i, j. split_and!; [lia|done|done].
    + rewrite length_app, length_fmap, Nat.sub_0_r. nia.
Qed.

Lemma walk_app graph_edges m n a b c :
  walk graph_edges m a b → walk graph_edges n b c → walk graph_edges (m + n) a c.
Proof.
  intros Hab. induction 1 as [|n b b' c Hbb' IH Hadj].
  - by rewrite Nat.add_0_r.
  - rewrite Nat.add_succ_r. econstructor; [by apply IH|done].
Qed.

Lemma walk_split graph_edges m n a c :
  walk graph_edges (m + n) a c →
  ∃ b, walk graph_edges m a b ∧ walk graph_edges n b c.
Proof.
  revert c. induction n as [|n IH]; intros c.
  - rewrite Nat.add_0_r. intros Hw. exists c. split; [done|constructor].
  - rewrite Nat.add_succ_r. inversion 1 as [|n' a' b' c' Hw Hadj]; subst.
    destruct (IH _ Hw) as (b & Hab & Hbb'). exists b. split; [done|].
    by econstructor.
Qed.

Lemma elem_of_expand_entities seed graph hops x :
  x ∈ GraphRag._expand_entities seed graph hops
  ↔ within_hops (GraphRag.edges graph) seed (Z.to_nat hops) x.
Proof. apply rounds_expanded. Qed.

(** X9. Expanding in two stages is expanding once with the sum of the hop
    counts: the entities within [hops2] of the entities within [hops1] of
    the seeds are the entities within [hops1 + hops2] of the seeds. *)
Theorem expansion_composes (seed_entities : list string) (graph : GraphRag.EntityGraph)
    (hops1 hops2 : Z) :
  (0 ≤ hops1)%Z → (0 ≤ hops2)%Z →
  GraphRag._expand_entities
    (elements (GraphRag._expand_entities seed_entities graph hops1)) graph hops2
  = GraphRag._expand_entities seed_entities graph (hops1 + hops2).
Proof.
  intros H1 H2. apply set_eq. intros x.
  rewrite !elem_of_expand_entities, Z2Nat.inj_add by done. unfold within_hops. split.
  - intros (y & n & Hy & Hn & Hyx).
    apply elem_of_elements, elem_of_expand_entities in Hy as (s & m & Hs & Hm & Hsy).
    exists s, (m + n)%nat. split_and!; [done|lia|by eapply walk_app].
  - intros (s & n & Hs & Hn & Hsx).
    destruct (decide (n ≤ Z.to_nat hops1)%nat) as [Hle|Hgt].
    + exists x, 0%nat. split_and!; [|lia|constructor].
      apply elem_of_elements, elem_of_expand_entities. by exists s, n.
    + replace n with (Z.to_nat hops1 + (n - Z.to_nat hops1))%nat in Hsx by lia.
      apply walk_split in Hsx as (y & Hsy & Hyx).
      exists y, (n - Z.to_nat hops1)%nat. split_and!; [|lia|done].
      apply elem_of_elements, elem_of_expand_entities. by exists s, (Z.to_nat hops1).
Qed.

Lemma expansion_composes_witness :
  let g := GraphRag.mkGraph ∅ [("Python", "Guido"); ("Guido", "1991")] in
  GraphRag._expand_entities (elements (GraphRag._expand_entities ["Python"] g 1)) g 1
  = GraphRag._expand_entities ["Python"] g (1 + 1).
Proof.
  intros g. apply (expansion_composes ["Python"] g 1 1); lia.
Defined.

(** X10. The expansion never invents an entity: whatever the hop count,
    every entity of the result is a seed or an end of an edge of the
    graph; on a graph without edges the result is the seed set. *)
Theorem expansion_stays_within_seeds_and_edge_ends
    (seed_entities : list string) (graph : GraphRag.EntityGraph) (hops : Z) :
  (∀ x, x ∈ GraphRag._expand_entities seed_entities graph hops →
        x ∈ seed_entities ∨
        ∃ edge, edge ∈ GraphRag.edges graph ∧ (x = fst edge ∨ x = snd edge)) ∧
  (GraphRag.edges graph = [] →
   GraphRag._expand_entities seed_entities graph hops = list_to_set seed_entities).
Proof.
  assert (∀ x, x ∈ GraphRag._expand_entities seed_entities graph hops →
               x ∈ seed_entities ∨
               ∃ edge, edge ∈ GraphRag.edges graph ∧ (x = fst edge ∨ x = snd edge)) as Hin.
  { intros x (s & n & Hs & _ & Hw)%elem_of_expand_entities.
    destruct Hw as [|n a b c _ [Hadj|Hadj]]; [by left|right..].
    - exists (b, c). split; [done|by right].
    - exists (c, b). split; [done|by left]. }
  split; [done|]. intros Hnil. apply set_eq. intros x.
  rewrite elem_of_list_to_set. split.
  - intros [Hs|(edge & Hedge & _)]%Hin; [done|]. rewrite Hnil in Hedge.
    by apply elem_of_nil in Hedge.
  - intros Hs. apply elem_of_expand_entities. exists x, 0%nat.
    split_and!; [done|lia|constructor].
Qed.

Lemma expansion_stays_within_seeds_and_edge_ends_witness :
  GraphRag._expand_entities ["Python"] {| GraphRag.nodes := ∅; GraphRag.edges := [] |} 3
  = list_to_set ["Python"].
Proof.
  exact (proj2 (expansion_stays_within_seeds_and_edge_ends
                  ["Python"] {| GraphRag.nodes := ∅; GraphRag.edges := [] |} 3) eq_refl).
Defined.

Lemma walk_adjacent_ext edges1 edges2 n a b :
  (∀ x y, adjacent edges1 x y → adjacent edges2 x y) →
  walk edges1 n a b → walk edges2 n a b.
Proof. intros Hadj. induction 1; econstructor; eauto. Qed.

(** X11. The expansion depends on the graph only through which entities
    are joined, and on the seeds only as a set: the order of the edges,
    the direction in which a pair is stored, and repeated edges or seeds
    make no difference. *)
Theorem expansion_depends_on_unordered_edges_only
    (seed1 seed2 : list string) (graph1 graph2 : GraphRag.EntityGraph) (hops : Z) :
  (∀ s, s ∈ seed1 ↔ s ∈ seed2) →
  (∀ a b, adjacent (GraphRag.edges graph1) a b ↔ adjacent (GraphRag.edges graph2) a b) →
  GraphRag._expand_entities seed1 graph1 hops = GraphRag._expand_entities seed2 graph2 hops.
Proof.
  intros Hseed Hadj. apply set_eq. intros x.
  rewrite !elem_of_expand_entities. unfold within_hops. split.
  - intros (s & n & Hs & Hn & Hw). exists s, n. split_and!; [by apply Hseed|done|].
    eapply walk_adjacent_ext; [|done]. intros ??. by apply Hadj.
  - intros (s & n & Hs & Hn & Hw). exists s, n. split_and!; [by apply Hseed|done|].
    eapply walk_adjacent_ext; [|done]. intros ??. by apply Hadj.
Qed.

Lemma expansion_depends_on_unordered_edges_only_witness :
  GraphRag._expand_entities ["Python"; "Python"]
    (GraphRag.mkGraph ∅ [("Python", "Guido"); ("Guido", "1991")]) 2
  = GraphRag._expand_entities ["Python"]
      (GraphRag.mkGraph ∅ [("1991", "Guido"); ("Guido", "Python"); ("Guido", "Python")]) 2.
Proof.
  apply expansion_depends_on_unordered_edges_only.
  - intros s. rewrite !elem_of_cons. naive_solver.
  - intros a b. unfold adjacent. simpl. rewrite !elem_of_cons, !elem_of_nil. naive_solver.
Defined.

Section saturation.
Context (graph_edges : list (string * string)) (seed : list string).

Local Abbreviation within n := (within_hops graph_edges seed n).
Local Abbreviation level n := (fst (GraphRag.rounds graph_edges seed n)).
Local Abbreviation universe :=
  (list_to_set (seed ++ graph_edges.*1 ++ graph_edges.*2) : gset string).

Lemma within_hops_mono n m x : (n ≤ m)%nat → within n x → within m x.
Proof. intros Hnm (s & k & Hs & Hk & Hw). exists s, k. split_and!; [done|lia|done]. Qed.

Lemma within_hops_stable_step n :
  (∀ x, within (S n) x → within n x) → ∀ x, within (S (S n)) x → within (S n) x.
Proof.
  intros Hstable x (s & k & Hs & Hk & Hw).
  destruct (decide (k ≤ S n)%nat) as [Hle|Hgt]; [by exists s, k|].
  assert (k = S (S n)) as -> by lia.
  inversion Hw as [|k' a y c Hw' Hadj]; subst.
  destruct (Hstable y) as (s' & k' & Hs' & Hk' & Hw''); [by exists s, (S n)|].
  exists s', (S k'). split_and!; [done|lia|by econstructor].
Qed.

Lemma within_hops_stable_forever n m :
  (∀ x, within (S n) x → within n x) → ∀ x, within m x → within n x.
Proof.
  intros Hstable.
  assert (∀ d x, within (d + n) x → within n x) as Hd.
  { induction d as [|d IH]; intros x; [done|]. intros Hx. apply IH.
    clear IH. revert x Hx. induction d as [|d IH]; [done|].
    by apply (within_hops_stable_step (d + n)). }
  intros x Hx. destruct (decide (m ≤ n)%nat) as [Hle|Hgt].
  - by eapply within_hops_mono.
  - apply (Hd (m - n)%nat). by replace (m - n + n)%nat with m by lia.
Qed.

Lemma level_within n x : x ∈ level n ↔ within n x.
Proof. apply rounds_expanded. Qed.

Lemma level_in_universe n : level n ⊆ universe.
Proof.
  intros x (s & k & Hs & _ & Hw)%level_within.
  rewrite elem_of_list_to_set, !elem_of_app.
  destruct Hw as [|k a b c _ [Hadj|Hadj]]; [by left|right..].
  - right. apply list_elem_of_fmap. by exists (b, c).
  - left. apply list_elem_of_fmap. by exists (c, b).
Qed.

Lemma level_grows_or_is_stable n :
  (∃ m, (m ≤ n)%nat ∧ level (S m) ⊆ level m) ∨ (n + size (level 0) ≤ size (level n))%nat.
Proof.
  induction n as [|n [(m & Hm & Hstable)|Hsize]]; [by right| |].
  - left. exists m. split; [lia|done].
  - destruct (decide (level (S n) ⊆ level n)) as [Hsub|Hnsub].
    + left. exists n. split; [lia|done].
    + right. assert (level n ⊂ level (S n)) as Hstrict.
      { split; [|done]. intros x Hx. apply level_within.
        apply level_within in Hx. by eapply within_hops_mono; [|done]; lia. }
      apply subset_size in Hstrict. lia.
Qed.

Lemma within_hops_saturates n x :
  within n x → within (size universe) x.
Proof.
  intros Hx.
  destruct seed as [|s0 seed'] eqn:Hseed.
  { destruct Hx as (s & _ & Hs & _). by apply elem_of_nil in Hs. }
  rewrite <-Hseed in *.
  destruct (level_grows_or_is_stable (size universe)) as [(m & Hm & Hstable)|Hsize].
  - eapply within_hops_mono; [exact Hm|].
    apply (within_hops_stable_forever m n); [|done].
    intros y Hy. by apply level_within, Hstable, level_within.
  - pose proof (subseteq_size _ _ (level_in_universe (size universe))) as Hle.
    assert (1 ≤ size (level 0))%nat; [|lia].
    assert (s0 ∈ level 0) as Hs0.
    { apply level_within. exists s0, 0%nat. rewrite Hseed.
      split_and!; [left|lia|constructor]. }
    destruct (decide (size (level 0) = 0)) as [Hz|]; [|lia].
    apply size_empty_iff in Hz. by apply Hz in Hs0.
Qed.

End saturation.

(** X12. The expansion saturates: with at least as many hops as there are
    entities among the seeds and the edge ends, the result is the set of
    all entities connected to a seed by a path of any length, and more
    hops add nothing. *)
Theorem expansion_saturates_at_the_number_of_entities
    (seed_entities : list string) (graph : GraphRag.EntityGraph) (hops : Z) :
  (Z.of_nat (size (list_to_set
               (seed_entities ++ (GraphRag.edges graph).*1 ++ (GraphRag.edges graph).*2)
             : gset string)) ≤ hops)%Z →
  ∀ x, x ∈ GraphRag._expand_entities seed_entities graph hops
       ↔ ∃ s n, s ∈ seed_entities ∧ walk (GraphRag.edges graph) n s x.
Proof.
  intros Hbound x. rewrite elem_of_expand_entities. split.
  - intros (s & n & Hs & _ & Hw). by exists s, n.
  - intros (s & n & Hs & Hw).
    eapply within_hops_mono; [|apply (within_hops_saturates _ _ n)].
    + lia.
    + by exists s, n.
Qed.

Lemma expansion_saturates_at_the_number_of_entities_witness :
  let g := GraphRag.mkGraph ∅ [("Python", "Guido"); ("Guido", "1991")] in
  "1991" ∈ GraphRag._expand_entities ["Python"] g 3
  ↔ ∃ s n, s ∈ ["Python"] ∧ walk (GraphRag.edges g) n s "1991".
Proof.
  intros g. apply (expansion_saturates_at_the_number_of_entities ["Python"] g 3).
  vm_compute. discriminate.
Defined.

(** * Further properties of the entity filter *)

Lemma rescore_document entities (docs : list Scored) :
  fst <$> (GraphRag.rescore entities <$> docs) = fst <$> docs.
Proof.
  rewrite <-list_fmap_compose. apply list_fmap_ext. by intros i [doc score] _.
Qed.

(** X13. The entity filter only reorders and truncates: for [0 <= top_k]
    the documents it returns are documents of the input, each at most as
    often as it was retrieved, [min(top_k, len(docs))] of them, and all
    of them when [top_k] is not smaller than the input. *)
Theorem entity_filter_returns_retrieved_documents
    (docs : list Scored) (entities : gset string) (top_k : Z) :
  (0 ≤ top_k)%Z →
  let out := GraphRag._filter_docs_by_entities docs entities top_k in
  fst <$> out ⊆+ fst <$> docs ∧
  Z.of_nat (length out) = Z.min top_k (Z.of_nat (length docs)) ∧
  ((Z.of_nat (length docs) ≤ top_k)%Z → fst <$> out ≡ₚ fst <$> docs).
Proof.
  intros Htop out. unfold out, GraphRag._filter_docs_by_entities.
  rewrite slice_to_nonneg by done. split_and!.
  - rewrite <-(rescore_document entities docs).
    apply fmap_submseteq. etrans; [apply submseteq_take|].
    apply Permutation_submseteq, sorted_reverse_perm.
  - rewrite length_take, sorted_reverse_length, length_fmap. lia.
  - intros Hall. rewrite take_ge by (rewrite sorted_reverse_length, length_fmap; lia).
    by rewrite sorted_reverse_perm, rescore_document.
Qed.

Lemma entity_filter_returns_retrieved_documents_witness :
  let docs := [(mkDocument "Guido wrote Python" [], 0.4%Q); (mkDocument "1991" [], 0.5%Q)] in
  let out := GraphRag._filter_docs_by_entities docs {[ "Python" ]} 1 in
  fst <$> out ⊆+ fst <$> docs ∧
  Z.of_nat (length out) = Z.min 1 (Z.of_nat (length docs)) ∧
  ((Z.of_nat (length docs) ≤ 1)%Z → fst <$> out ≡ₚ fst <$> docs).
Proof.
  intros docs. apply (entity_filter_returns_retrieved_documents docs {[ "Python" ]} 1). lia.
Defined.

Lemma entity_matches_bounds entities content_lower :
  (0 ≤ GraphRag.entity_matches entities content_lower ≤ Z.of_nat (size entities))%Z.
Proof.
  unfold GraphRag.entity_matches. split; [lia|].
  apply inj_le. etrans; [apply length_filter|done].
Qed.

(** X14. The entity boost never lowers a non-negative score and never
    raises a non-positive one: a score [s >= 0] becomes a score between
    [s] and [s (1 + n / 10)] for [n] expanded entities, a score [s <= 0]
    becomes a score that is at most [s]; without expanded entities every
    score keeps its value. *)
Theorem entity_boost_scales_away_from_zero
    (entities : gset string) (doc : Document) (score : Q) :
  let boosted := snd (GraphRag.rescore entities (doc, score)) in
  fst (GraphRag.rescore entities (doc, score)) = doc ∧
  ((0 <= score)%Q →
   (score <= boosted)%Q ∧
   (boosted <= score * (1 + inject_Z (Z.of_nat (size entities)) * (1 # 10)))%Q) ∧
  ((score <= 0)%Q → (boosted <= score)%Q) ∧
  (entities = ∅ → (boosted == score)%Q).
Proof.
  simpl. set (m := GraphRag.entity_matches entities (Py.lower (page_content doc))).
  pose proof (entity_matches_bounds entities (Py.lower (page_content doc))) as [Hlo Hhi].
  fold m in Hlo, Hhi.
  assert (0 <= inject_Z m)%Q as Hm by (change 0%Q with (inject_Z 0); by rewrite <-Zle_Qle).
  assert (inject_Z m <= inject_Z (Z.of_nat (size entities)))%Q as Hn by (by rewrite <-Zle_Qle).
  split_and!; [done| | |].
  - intros Hs. split; nra.
  - intros Hs. nra.
  - intros ->. unfold m, GraphRag.entity_matches. rewrite elements_empty. simpl. ring.
Qed.

Lemma entity_boost_scales_away_from_zero_witness :
  (0.5 <= snd (GraphRag.rescore {[ "python" ]} (mkDocument "Python 1991" [], 0.5)))%Q.
Proof.
  refine (proj1 (proj1 (proj2 (entity_boost_scales_away_from_zero
                                 {[ "python" ]} (mkDocument "Python 1991" []) 0.5%Q)) _)).
  by vm_compute.
Defined.

(** * Further properties of entity extraction and graph building *)

Lemma rstrip_idempotent s : Py.rstrip (Py.rstrip s) = Py.rstrip s.
Proof.
  induction s as [|c s IH]; [done|]. simpl.
  destruct (Py.rstrip s) as [|c' r] eqn:Hr.
  - destruct (Py.isspace c) eqn:Hc; [done|]. simpl. by rewrite Hc.
  - cbn [Py.rstrip]. cbn [Py.rstrip] in IH. by rewrite IH.
Qed.

Lemma lstrip_starts_nonspace s :
  match Py.lstrip s with
  | EmptyString => True
  | String c _ => Py.isspace c = false
  end.
Proof.
  induction s as [|c s IH]; [done|]. simpl.
  by destruct (Py.isspace c) eqn:Hc; [|simpl].
Qed.

Lemma lstrip_rstrip_of_nonspace s :
  match s with
  | EmptyString => True
  | String c _ => Py.isspace c = false
  end →
  Py.lstrip (Py.rstrip s) = Py.rstrip s.
Proof.
  destruct s as [|c s]; [done|]. intros Hc. simpl.
  destruct (Py.rstrip s); rewrite ?Hc; simpl; by rewrite Hc.
Qed.

Lemma strip_idempotent s : Py.strip (Py.strip s) = Py.strip s.
Proof.
  unfold Py.strip.
  rewrite lstrip_rstrip_of_nonspace by apply lstrip_starts_nonspace.
  apply rstrip_idempotent.
Qed.

Lemma entity_lines_spec response e :
  e ∈ GraphRag.entity_lines response →
  Py.strip e = e ∧ (3 ≤ Py.len e)%Z.
Proof.
  unfold GraphRag.entity_lines.
  intros (line & -> & Hline)%list_elem_of_fmap.
  apply list_elem_of_filter in Hline as [Hline _].
  apply Is_true_true, andb_prop in Hline as [_ Hlen%Z.ltb_lt].
  split; [apply strip_idempotent|lia].
Qed.

(** X15. An entity extraction sends one request.  When the request
    returns, at most ten entities come back, and each of them has at
    least three characters and no whitespace at either end; when it
    raises, the exception is the outcome. *)
Theorem extract_entities_returns_at_most_ten_clean_entities
    (W : Services) (log : list call) (text : string) :
  snd (GraphRag._extract_entities text W log)
  = log ++ [CallGenerate (GraphRag.entities_prompt text)] ∧
  match generate W log (GraphRag.entities_prompt text) with
  | Ok response =>
      ∃ entities, fst (GraphRag._extract_entities text W log) = Ok entities ∧
        (length entities ≤ 10)%nat ∧
        ∀ e, e ∈ entities → Py.strip e = e ∧ (3 ≤ Py.len e)%Z
  | Err e => fst (GraphRag._extract_entities text W log) = Err e
  end.
Proof.
  unfold GraphRag._extract_entities, ainvoke_smart, bind, perform, ret.
  destruct (generate W log _) as [response|e]; [|done]. simpl.
  split; [done|]. eexists. split_and!; [done| |].
  - rewrite slice_to_nonneg, length_take by done. change (Z.to_nat 10) with 10%nat. lia.
  - intros e He. apply (entity_lines_spec response).
    eapply elem_of_sublist; [exact He|apply slice_to_sublist].
Qed.

Lemma first_seen_length l : (length (first_seen l) ≤ length l)%nat.
Proof.
  induction l as [|c l IH]; simpl; [done|].
  pose proof (length_filter (fun c' => c' ≠ c) (first_seen l)). lia.
Qed.

Lemma size_union_list_to_set (X : gset string) (l : list string) :
  (size (X ∪ list_to_set l) ≤ size X + length l)%nat.
Proof.
  rewrite size_union_alt.
  pose proof (subseteq_size (list_to_set l ∖ X) (list_to_set l : gset string)) as Hsub.
  pose proof (size_list_to_set_first_seen l). pose proof (first_seen_length l).
  assert (list_to_set l ∖ X ⊆ (list_to_set l : gset string)) by set_solver.
  specialize (Hsub ltac:(done)). lia.
Qed.

Lemma elem_of_pairs a b entities :
  (a, b) ∈ GraphRag.pairs entities → a ∈ entities ∧ b ∈ entities.
Proof.
  induction entities as [|e rest IH]; simpl; [by intros ?%elem_of_nil|].
  rewrite elem_of_app, list_elem_of_fmap.
  intros [(y & [= -> ->] & Hy)|Hin].
  - split; [left|by right].
  - destruct (IH Hin). split; by right.
Qed.

Lemma length_pairs entities :
  (2 * length (GraphRag.pairs entities) = length entities * (length entities - 1))%nat.
Proof.
  induction entities as [|e rest IH]; simpl; [done|].
  rewrite length_app, length_fmap, Nat.sub_0_r. nia.
Qed.

Section graph_build_invariants.
Import GraphRag.
Context (W : Services).

Local Abbreviation call_of :=
  (fun entry : Scored => CallGenerate (entities_prompt (page_content (fst entry)))).

Lemma mfold_build_log docs g log :
  ∃ calls,
    snd (mfold build_visit g docs W log) = log ++ calls ∧
    calls `prefix_of` (call_of <$> docs) ∧
    (∀ g', fst (mfold build_visit g docs W log) = Ok g' → calls = call_of <$> docs).
Proof.
  revert g log. induction docs as [|entry docs IH]; intros g log.
  - exists []. simpl. by rewrite app_nil_r.
  - cbn [mfold]. unfold bind at 1 2. rewrite build_visit_outcome.
    destruct (generate W log _) as [response|e]; cbv beta iota zeta.
    + match goal with |- context [mfold build_visit ?g1 docs W ?log1] =>
        destruct (IH g1 log1) as (calls & Hlog & Hprefix & Hall) end.
      exists (call_of entry :: calls). rewrite Hlog, <-app_assoc. split_and!; [done| |].
      * rewrite fmap_cons. by apply prefix_cons.
      * intros g' Hg'. rewrite fmap_cons. f_equal. by eapply Hall.
    + exists [call_of entry]. split_and!; [done| |done].
      rewrite fmap_cons. apply prefix_cons, prefix_nil.
Qed.

(** A graph whose edges join nodes of the graph. *)
Local Abbreviation closed g :=
  (∀ a b, (a, b) ∈ edges g → a ∈ nodes g ∧ b ∈ nodes g).

Lemma mfold_build_closed docs g log g' :
  fst (mfold build_visit g docs W log) = Ok g' →
  closed g →
  closed g' ∧
  (size (nodes g') ≤ size (nodes g) + 10 * length docs)%nat ∧
  (length (edges g') ≤ length (edges g) + 45 * length docs)%nat.
Proof.
  revert g log. induction docs as [|entry docs IH]; intros g log.
  - simpl. intros [= <-] Hg. split_and!; [done|lia..].
  - cbn [mfold]. unfold bind at 1. rewrite build_visit_outcome.
    destruct (generate W log _) as [response|e]; cbv beta iota zeta; [|done].
    set (entities := Py.slice_to (entity_lines response) 10).
    assert (length entities ≤ 10)%nat as Hlen.
    { unfold entities. rewrite slice_to_nonneg, length_take by done.
      change (Z.to_nat 10) with 10%nat. lia. }
    intros Hg' Hg. apply IH in Hg' as (Hclosed & Hnodes & Hedges).
    + split; [done|]. cbn [nodes edges length] in *.
      pose proof (size_union_list_to_set (nodes g) entities).
      pose proof (length_pairs entities). rewrite length_app in Hedges. nia.
    + cbn [nodes edges]. intros a b [Hin|Hin]%elem_of_app.
      * destruct (Hg a b Hin). set_solver.
      * apply elem_of_pairs in Hin as [Ha Hb].
        rewrite !elem_of_union, !elem_of_list_to_set. by split; right.
Qed.

End graph_build_invariants.

(** X16. Whatever the services do, building the entity graph sends at
    most five requests, the extraction prompts of the first five documents
    in their order, and stops at the first request that raises: when the
    requests before that of document [i] returned and that of document
    [i] raises, the requests sent are those of the documents up to [i]
    and no other, and the exception is the outcome; when the build
    returns, one request was sent for each of those documents. *)
Theorem graph_build_sends_at_most_five_requests
    (W : Services) (docs : list Scored) (log : list call) :
  ∃ calls,
    snd (GraphRag._build_entity_graph docs W log) = log ++ calls ∧
    (length calls ≤ 5)%nat ∧
    calls `prefix_of`
      ((fun entry : Scored =>
          CallGenerate (GraphRag.entities_prompt (page_content (fst entry)))) <$> take 5 docs) ∧
    (∀ g, fst (GraphRag._build_entity_graph docs W log) = Ok g →
          length calls = Nat.min 5 (length docs)) ∧
    (∀ i entry e,
       take 5 docs !! i = Some entry →
       (∀ j entry', (j < i)%nat → take 5 docs !! j = Some entry' →
          ∃ response, extraction_outcome W log (take 5 docs) j entry' = Ok response) →
       extraction_outcome W log (take 5 docs) i entry = Err e →
       calls = extraction_call <$> take (S i) (take 5 docs) ∧
       fst (GraphRag._build_entity_graph docs W log) = Err e).
Proof.
  unfold GraphRag._build_entity_graph. rewrite slice_to_nonneg by done.
  change (Z.to_nat 5) with 5%nat.
  destruct (mfold_build_log W (take 5 docs) {| GraphRag.nodes := ∅; GraphRag.edges := [] |} log)
    as (calls & Hlog & Hprefix & Hall).
  exists calls. split_and!; [done| |done| |].
  - apply prefix_length in Hprefix. rewrite length_fmap, length_take in Hprefix. lia.
  - intros g Hg. by rewrite (Hall g Hg), length_fmap, length_take.
  - intros i entry e Hi Hbefore Hfail.
    rewrite (build_first_failure W _ _ _ i entry e) in Hlog |- * by done.
    split; [|done]. simpl in Hlog. by apply app_inv_head in Hlog.
Qed.

(** X17. Whatever the services answer, a graph that the builder returns
    is closed and small: both ends of every edge are nodes, there are at
    most 50 nodes and at most 225 edges. *)
Theorem built_graph_is_closed_and_bounded
    (W : Services) (docs : list Scored) (log : list call) (g : GraphRag.EntityGraph) :
  fst (GraphRag._build_entity_graph docs W log) = Ok g →
  (∀ a b, (a, b) ∈ GraphRag.edges g → a ∈ GraphRag.nodes g ∧ b ∈ GraphRag.nodes g) ∧
  (size (GraphRag.nodes g) ≤ 50)%nat ∧
  (length (GraphRag.edges g) ≤ 225)%nat.
Proof.
  unfold GraphRag._build_entity_graph. rewrite slice_to_nonneg by done.
  change (Z.to_nat 5) with 5%nat. intros Hg.
  apply mfold_build_closed in Hg as (Hclosed & Hnodes & Hedges).
  - split; [done|]. cbn [GraphRag.nodes GraphRag.edges length] in Hnodes, Hedges.
    rewrite size_empty in Hnodes. rewrite length_take in Hnodes, Hedges. lia.
  - simpl. by intros a b ?%elem_of_nil.
Qed.

Lemma built_graph_is_closed_and_bounded_witness :
  let W := {| get_llm := Ok tt;
              generate := fun _ _ => Ok "Python
Guido van Rossum";
              embed_query := fun _ _ => Ok [];
              similarity_search_with_score := fun _ _ _ => Ok [];
              rerank := fun _ _ _ _ => Ok [] |} in
  let g := {| GraphRag.nodes := {[ "Python"; "Guido van Rossum" ]};
              GraphRag.edges := [("Python", "Guido van Rossum")] |} in
  (∀ a b, (a, b) ∈ GraphRag.edges g → a ∈ GraphRag.nodes g ∧ b ∈ GraphRag.nodes g) ∧
  (size (GraphRag.nodes g) ≤ 50)%nat ∧
  (length (GraphRag.edges g) ≤ 225)%nat.
Proof.
  intros W g.
  apply (built_graph_is_closed_and_bounded W
           [(mkDocument "Python was created by Guido van Rossum" [], 1%Q)] [] g).
  vm_compute. reflexivity.
Defined.

(** * The pipelines *)

Lemma mfold_cons {A St} (body : St → A → M St) s a l W log :
  mfold body s (a :: l) W log =
  match body s a W log with
  | (Ok s', log') => mfold body s' l W log'
  | (Err e, log') => (Err e, log')
  end.
Proof. done. Qed.

Lemma search_step {St} (step : St → list Scored → St) k s q W log :
  (do! docs ← vector_search q k; ret (step s docs)) W log =
  (match similarity_search_with_score W log q k with
   | Ok docs => Ok (step s docs)
   | Err e => Err e
   end, log ++ [CallSearch q k]).
Proof.
  unfold bind, vector_search, perform, ret.
  by destruct (similarity_search_with_score W log q k).
Qed.

Section search_loop.
Context {St : Type} (step : St → list Scored → St) (k : Z) (W : Services).

Lemma mfold_search_log qs s log :
  ∃ n, (n ≤ length qs)%nat ∧
    snd (mfold (fun acc q => do! docs ← vector_search q k; ret (step acc docs)) s qs W log)
    = log ++ ((fun q => CallSearch q k) <$> take n qs) ∧
    (qs ≠ [] → (1 ≤ n)%nat) ∧
    (∀ out,
       fst (mfold (fun acc q => do! docs ← vector_search q k; ret (step acc docs)) s qs W log)
       = Ok out → n = length qs).
Proof.
  revert s log. induction qs as [|q qs IH]; intros s log.
  - exists 0%nat. simpl. by rewrite app_nil_r.
  - rewrite mfold_cons, search_step.
    destruct (similarity_search_with_score W log q k) as [docs|e].
    + destruct (IH (step s docs) (log ++ [CallSearch q k])) as (n & Hn & Hlog & _ & Hall).
      exists (S n). cbn [length take]. rewrite fmap_cons.
      split_and!; [lia| |lia|].
      * by rewrite Hlog, <-app_assoc.
      * intros out Hout. f_equal. by eapply Hall.
    + exists 1%nat. cbn [length take fst snd]. rewrite take_0.
      split_and!; [lia|done|lia|done].
Qed.

End search_loop.

Lemma fusion_rag_run W query num_queries top_k_per_query final_top_k rrf_k :
  run (Fusion.fusion_rag query num_queries top_k_per_query final_top_k rrf_k) W =
  match generate W [] (Fusion.variations_prompt query num_queries) with
  | Err e => (Err e, [CallGenerate (Fusion.variations_prompt query num_queries)])
  | Ok response =>
      match mfold (fun all_results q =>
                     do! docs ← vector_search q top_k_per_query;
                     ret (all_results ++ [docs]))
                  [] (query :: Py.slice_to (Fusion.variation_lines response) (num_queries - 1))
                  W [CallGenerate (Fusion.variations_prompt query num_queries)] with
      | (Ok all_results, log) =>
          (Fusion._reciprocal_rank_fusion all_results rrf_k final_top_k, log)
      | (Err e, log) => (Err e, log)
      end
  end.
Proof.
  unfold run, Fusion.fusion_rag, Fusion._generate_query_variations, ainvoke_smart.
  unfold bind at 1 2 3, perform, ret at 1. simpl.
  by destruct (generate W [] _).
Qed.

(** X18. With [1 <= num_queries], whatever the services do, [fusion_rag]
    sends the variation request and then at most [num_queries] searches,
    the first of them for the query as it was asked; when the variation
    request raises, no search is sent and the exception is the outcome. *)
Theorem fusion_rag_fans_out_to_at_most_num_queries_searches
    (W : Services) (query : string) (num_queries top_k_per_query final_top_k rrf_k : Z) :
  (1 ≤ num_queries)%Z →
  ∃ searched,
    snd (run (Fusion.fusion_rag query num_queries top_k_per_query final_top_k rrf_k) W)
    = CallGenerate (Fusion.variations_prompt query num_queries)
      :: ((fun q => CallSearch q top_k_per_query) <$> searched) ∧
    (Z.of_nat (length searched) ≤ num_queries)%Z ∧
    match generate W [] (Fusion.variations_prompt query num_queries) with
    | Ok response => head searched = Some query
    | Err e =>
        searched = [] ∧
        fst (run (Fusion.fusion_rag query num_queries top_k_per_query final_top_k rrf_k) W)
        = Err e
    end.
Proof.
  intros Hnum. rewrite fusion_rag_run.
  destruct (generate W [] _) as [response|e]; cbn [fst snd].
  2:{ exists []. split_and!; [done|simpl; lia|done|done]. }
  set (qs := query :: _).
  assert (Z.of_nat (length qs) ≤ num_queries)%Z as Hlen.
  { unfold qs. cbn [length]. rewrite slice_to_nonneg, length_take by lia. lia. }
  destruct (mfold_search_log (fun all docs => all ++ [docs]) top_k_per_query W qs []
              [CallGenerate (Fusion.variations_prompt query num_queries)])
    as (n & Hn & Hlog & Hpos & _).
  exists (take n qs).
  assert (1 ≤ n)%nat as Hn1 by by apply Hpos.
  split_and!.
  - destruct (mfold _ _ _ _ _) as [[all|e] log']; cbn [fst snd] in *; by rewrite Hlog.
  - rewrite length_take. lia.
  - destruct n; [lia|done].
Qed.

Lemma fusion_rag_fans_out_to_at_most_num_queries_searches_witness :
  ∃ searched,
    snd (run (Fusion.fusion_rag "q" 2 10 5 60)
           (mkServices (Ok ()) (fun _ _ => Ok "a
b
c") (fun _ _ => Ok [])
              (fun _ _ _ => Ok []) (fun _ _ _ _ => Ok [])))
    = CallGenerate (Fusion.variations_prompt "q" 2)
      :: ((fun q => CallSearch q 10) <$> searched) ∧
    (Z.of_nat (length searched) ≤ 2)%Z.
Proof.
  destruct (fusion_rag_fans_out_to_at_most_num_queries_searches
              (mkServices (Ok ()) (fun _ _ => Ok "a
b
c") (fun _ _ => Ok [])
                 (fun _ _ _ => Ok []) (fun _ _ _ _ => Ok [])) "q" 2 10 5 60)
    as (searched & H1 & H2 & _); [lia|].
  by exists searched.
Defined.

Lemma subquery_rag_run W query top_k max_subqueries top_k_per_subquery :
  run (Subquery.subquery_rag query top_k max_subqueries top_k_per_subquery) W =
  match generate W [] (Subquery.decompose_prompt query max_subqueries) with
  | Err e => (Err e, [CallGenerate (Subquery.decompose_prompt query max_subqueries)])
  | Ok response =>
      match mfold (fun all_docs subq =>
                     do! docs ← vector_search subq top_k_per_subquery;
                     ret (all_docs ++ docs))
                  []
                  (Subquery.or_query query
                     (Py.slice_to (Subquery.subquery_lines response) max_subqueries))
                  W [CallGenerate (Subquery.decompose_prompt query max_subqueries)] with
      | (Ok all_docs, log) => (Ok (Subquery.dedup_and_select all_docs top_k), log)
      | (Err e, log) => (Err e, log)
      end
  end.
Proof.
  unfold run, Subquery.subquery_rag, Subquery._decompose_query, ainvoke_smart.
  unfold bind at 1 2 3, perform at 1, ret at 1 3. simpl.
  by destruct (generate W [] _).
Qed.

Lemma length_or_query query subqueries :
  (1 ≤ length (Subquery.or_query query subqueries) ≤ Nat.max 1 (length subqueries))%nat.
Proof.
  unfold Subquery.or_query.
  destruct (Z.leb_spec (Z.of_nat (length subqueries)) 1); simpl; lia.
Qed.

(** X19. With [0 <= max_subqueries], whatever the services do,
    [subquery_rag] sends the decomposition request and then at most
    [max(1, max_subqueries)] searches, at least one when the decomposition
    returned; when the decomposition raises, no search is sent and the
    exception is the outcome. *)
Theorem subquery_rag_fans_out_to_at_most_max_subqueries_searches
    (W : Services) (query : string) (top_k max_subqueries top_k_per_subquery : Z) :
  (0 ≤ max_subqueries)%Z →
  ∃ searched,
    snd (run (Subquery.subquery_rag query top_k max_subqueries top_k_per_subquery) W)
    = CallGenerate (Subquery.decompose_prompt query max_subqueries)
      :: ((fun q => CallSearch q top_k_per_subquery) <$> searched) ∧
    (Z.of_nat (length searched) ≤ Z.max 1 max_subqueries)%Z ∧
    match generate W [] (Subquery.decompose_prompt query max_subqueries) with
    | Ok response => (1 ≤ length searched)%nat
    | Err e =>
        searched = [] ∧
        fst (run (Subquery.subquery_rag query top_k max_subqueries top_k_per_subquery) W)
        = Err e
    end.
Proof.
  intros Hmax. rewrite subquery_rag_run.
  destruct (generate W [] _) as [response|e]; cbn [fst snd].
  2:{ exists []. split_and!; [done|simpl; lia|done|done]. }
  set (subqueries := Py.slice_to _ _).
  assert (Z.of_nat (length subqueries) ≤ max_subqueries)%Z as Hlen.
  { unfold subqueries. rewrite slice_to_nonneg, length_take by lia. lia. }
  set (qs := Subquery.or_query query subqueries).
  assert ((1 ≤ length qs)%nat ∧ (Z.of_nat (length qs) ≤ Z.max 1 max_subqueries)%Z)
    as [Hqs1 Hqs2].
  { pose proof (length_or_query query subqueries). fold qs in H. lia. }
  destruct (mfold_search_log (fun all docs => all ++ docs) top_k_per_subquery W qs []
              [CallGenerate (Subquery.decompose_prompt query max_subqueries)])
    as (n & Hn & Hlog & Hpos & _).
  exists (take n qs).
  assert (1 ≤ n)%nat as Hn1.
  { apply Hpos. intros E. rewrite E in Hqs1. simpl in Hqs1. lia. }
  split_and!.
  - destruct (mfold _ _ _ _ _) as [[all|e] log']; cbn [fst snd] in *; by rewrite Hlog.
  - rewrite length_take. lia.
  - rewrite length_take. lia.
Qed.

Lemma subquery_rag_fans_out_to_at_most_max_subqueries_searches_witness :
  ∃ searched,
    snd (run (Subquery.subquery_rag "q" 5 2 3)
           (mkServices (Ok ()) (fun _ _ => Ok "a
b
c") (fun _ _ => Ok [])
              (fun _ _ _ => Ok []) (fun _ _ _ _ => Ok [])))
    = CallGenerate (Subquery.decompose_prompt "q" 2)
      :: ((fun q => CallSearch q 3) <$> searched) ∧
    (Z.of_nat (length searched) ≤ Z.max 1 2)%Z.
Proof.
  destruct (subquery_rag_fans_out_to_at_most_max_subqueries_searches
              (mkServices (Ok ()) (fun _ _ => Ok "a
b
c") (fun _ _ => Ok [])
                 (fun _ _ _ => Ok []) (fun _ _ _ _ => Ok [])) "q" 5 2 3)
    as (searched & H1 & H2 & _); [lia|].
  by exists searched.
Defined.

Lemma graph_rag_run W query initial_top_k expansion_hops final_top_k :
  run (GraphRag.graph_rag query initial_top_k expansion_hops final_top_k) W =
  match generate W [] (GraphRag.entities_prompt query) with
  | Err e => (Err e, [CallGenerate (GraphRag.entities_prompt query)])
  | Ok response =>
      match similarity_search_with_score W [CallGenerate (GraphRag.entities_prompt query)]
              query initial_top_k with
      | Err e => (Err e, [CallGenerate (GraphRag.entities_prompt query);
                          CallSearch query initial_top_k])
      | Ok initial_docs =>
          match GraphRag._build_entity_graph initial_docs W
                  [CallGenerate (GraphRag.entities_prompt query);
                   CallSearch query initial_top_k] with
          | (Ok entity_graph, log) =>
              (Ok (GraphRag._filter_docs_by_entities initial_docs
                     (GraphRag._expand_entities
                        (Py.slice_to (GraphRag.entity_lines response) 10)
                        entity_graph expansion_hops)
                     final_top_k), log)
          | (Err e, log) => (Err e, log)
          end
      end
  end.
Proof.
  unfold run, GraphRag.graph_rag, GraphRag._extract_entities, ainvoke_smart, vector_search.
  unfold bind at 1 2 3 4, perform at 1 2, ret at 1 2. simpl.
  destruct (generate W [] _); [|done].
  by destruct (similarity_search_with_score W _ _ _).
Qed.

(** X20. The retrieval stage of [graph_rag] (before the answer is
    requested) sends at most seven requests.  Whatever the services do,
    it asks for the entities of the query; if that raises, nothing else
    is sent and the exception is the outcome; otherwise it sends one
    search, for the query as it was asked and [initial_top_k]; if that
    raises, nothing else is sent and the exception is the outcome;
    otherwise it sends extraction requests of documents among the first
    five retrieved ones, in their order, all of them when the stage
    returns.  The documents it selects are then documents of that one
    search, each at most as often as it was retrieved,
    [min(final_top_k, len(initial_docs))] of them. *)
Theorem graph_rag_retrieval_sends_at_most_seven_requests
    (W : Services) (query : string) (initial_top_k expansion_hops final_top_k : Z) :
  (0 ≤ final_top_k)%Z →
  let stage := run (GraphRag.graph_rag query initial_top_k expansion_hops final_top_k) W in
  let entities_request := CallGenerate (GraphRag.entities_prompt query) in
  let search_request := CallSearch query initial_top_k in
  (length (snd stage) ≤ 7)%nat ∧
  match generate W [] (GraphRag.entities_prompt query) with
  | Err e => stage = (Err e, [entities_request])
  | Ok _ =>
      match similarity_search_with_score W [entities_request] query initial_top_k with
      | Err e => stage = (Err e, [entities_request; search_request])
      | Ok initial_docs =>
          ∃ document_requests,
            snd stage = entities_request :: search_request :: document_requests ∧
            document_requests `prefix_of` (extraction_call <$> take 5 initial_docs) ∧
            ∀ out, fst stage = Ok out →
              document_requests = extraction_call <$> take 5 initial_docs ∧
              fst <$> out ⊆+ fst <$> initial_docs ∧
              Z.of_nat (length out) = Z.min final_top_k (Z.of_nat (length initial_docs))
      end
  end.
Proof.
  intros Htop stage entities_request search_request. unfold stage. rewrite graph_rag_run.
  destruct (generate W [] _) as [response|e]; [|split; [simpl; lia|done]].
  fold entities_request.
  destruct (similarity_search_with_score W _ _ _) as [initial_docs|e];
    [|split; [simpl; lia|done]].
  fold search_request.
  pose proof (mfold_build_log W (Py.slice_to initial_docs 5)
                {| GraphRag.nodes := ∅; GraphRag.edges := [] |}
                [entities_request; search_request]) as (calls & Hlog & Hprefix & Hall).
  fold (GraphRag._build_entity_graph initial_docs) in Hlog, Hall.
  rewrite slice_to_nonneg in Hprefix, Hall by done.
  change (Z.to_nat 5) with 5%nat in Hprefix, Hall.
  assert (length calls ≤ 5)%nat as Hlen.
  { apply prefix_length in Hprefix. rewrite length_fmap, length_take in Hprefix. lia. }
  destruct (GraphRag._build_entity_graph initial_docs W _) as [[g|e] log]; cbn [fst snd] in *.
  - split; [rewrite Hlog, length_app; simpl; lia|].
    exists calls. split_and!; [done..|].
    intros out [= <-]. split; [by eapply Hall|].
    unfold GraphRag._filter_docs_by_entities. rewrite slice_to_nonneg by done. split.
    + etrans; [|by rewrite <-(rescore_document
                     (GraphRag._expand_entities
                        (Py.slice_to (GraphRag.entity_lines response) 10) g expansion_hops)
                     initial_docs)].
      apply fmap_submseteq. etrans; [apply submseteq_take|].
      apply Permutation_submseteq, sorted_reverse_perm.
    + rewrite length_take, sorted_reverse_length, length_fmap. lia.
  - split; [rewrite Hlog, length_app; simpl; lia|].
    exists calls. by split_and!.
Qed.

Lemma graph_rag_retrieval_sends_at_most_seven_requests_witness :
  (length (snd (run (GraphRag.graph_rag "Python" 10 1 5)
                  (mkServices (Ok ()) (fun _ _ => Ok "Python") (fun _ _ => Ok [])
                     (fun _ _ _ => Ok [(mkDocument "Python 1991" [], 0.5%Q)])
                     (fun _ _ _ _ => Ok []))))
   ≤ 7)%nat.
Proof.
  refine (proj1 (graph_rag_retrieval_sends_at_most_seven_requests _ "Python" 10 1 5 _)). lia.
Defined.




Lemma index_in_range {A} (l : list A) (i : Z) :
  (- Z.of_nat (length l) ≤ i < Z.of_nat (length l))%Z →
  ∃ a, l !! Z.to_nat (i mod Z.of_nat (length l)) = Some a ∧ Py.index l i = Ok a.
Proof.
  intros Hi. unfold Py.index.
  set (n := Z.of_nat (length l)) in *.
  assert ((if (i <? 0)%Z then (n + i)%Z else i) = (i mod n)%Z) as ->.
  { destruct (Z.ltb_spec i 0).
    - apply Z.mod_unique with (-1)%Z; lia.
    - symmetry. apply Z.mod_small. lia. }
  pose proof (Z.mod_pos_bound i n) as Hb.
  destruct (Z.leb_spec 0 (i mod n)); [|lia].
  destruct (Z.ltb_spec (i mod n) n); [|lia]. simpl.
  destruct (lookup_lt_is_Some_2 l (Z.to_nat (i mod n))) as [a Ha]; [lia|].
  exists a. by rewrite Ha.
Qed.

Lemma index_out_of_range {A} (l : list A) (i : Z) :
  ¬ (- Z.of_nat (length l) ≤ i < Z.of_nat (length l))%Z → Py.index l i = Err IndexError.
Proof.
  intros Hi. unfold Py.index.
  destruct (Z.ltb_spec i 0).
  - destruct (Z.leb_spec 0 (Z.of_nat (length l) + i)); [lia|done].
  - destruct (Z.leb_spec 0 i); [|lia].
    destruct (Z.ltb_spec i (Z.of_nat (length l))); [lia|done].
Qed.

Lemma rmap_first_error {A B} (f : A → result B) (e : exn) (l : list A) :
  Forall (fun a => (∃ b, f a = Ok b) ∨ f a = Err e) l →
  Exists (fun a => f a = Err e) l →
  rmap f l = Err e.
Proof.
  induction 1 as [|a l [[b Hb]|Ha] _ IH]; intros Hex; [by apply Exists_nil in Hex| |].
  - apply Exists_cons in Hex as [?|Hex]; [congruence|].
    simpl. rewrite Hb. simpl. by rewrite IH.
  - simpl. by rewrite Ha.
Qed.

Lemma reranking_outcome W query top_k key initial_top_k final_top_n
    vector initial_docs results :
  Py.truthy key = true →
  let k1 := default (top_k * 4)%Z initial_top_k in
  let n2 := default top_k final_top_n in
  let passages := (fun entry => page_content (fst entry)) <$> initial_docs in
  embed_query W [] query = Ok vector →
  similarity_search_with_score W [CallEmbed query] query k1 = Ok initial_docs →
  rerank W [CallEmbed query; CallSearch query k1] query passages n2 = Ok results →
  fst (run (Reranking.reranking_rag query top_k (Some key) initial_top_k final_top_n) W)
  = rmap (Reranking.source_of initial_docs) results.
Proof.
  intros Hkey k1 n2 passages Hembed Hsearch Hrerank.
  unfold run, Reranking.reranking_rag, Reranking.key_present. rewrite Hkey. simpl.
  unfold bind, perform, lift. simpl. fold k1 n2. rewrite Hembed, Hsearch. fold passages.
  rewrite Hrerank. done.
Qed.

(** X22. When the three stages of [reranking_rag] return, the sources
    follow the reranker: one source per result, in the reranker's order,
    with the reranker's score and index and with the content, metadata and
    similarity score of the retrieved document at that index (a negative
    index counts from the end); an index outside the retrieved list makes
    the whole call raise [IndexError]. *)
Theorem reranked_sources_follow_the_reranker
    (W : Services) (query : string) (top_k : Z) (key : string)
    (initial_top_k final_top_n : option Z)
    (vector : list Q) (initial_docs : list Scored) (results : list RerankResult) :
  Py.truthy key = true →
  let k1 := default (top_k * 4)%Z initial_top_k in
  let n2 := default top_k final_top_n in
  let passages := (fun entry => page_content (fst entry)) <$> initial_docs in
  let n := Z.of_nat (length initial_docs) in
  let outcome :=
    fst (run (Reranking.reranking_rag query top_k (Some key) initial_top_k final_top_n) W) in
  embed_query W [] query = Ok vector →
  similarity_search_with_score W [CallEmbed query] query k1 = Ok initial_docs →
  rerank W [CallEmbed query; CallSearch query k1] query passages n2 = Ok results →
  (Forall (fun r => (- n ≤ index r < n)%Z) results →
   ∃ sources,
     outcome = Ok sources ∧
     Forall2 (fun r s =>
                Reranking.rerank_score s = relevance_score r ∧
                Reranking.rerank_index s = index r ∧
                ∃ entry, initial_docs !! Z.to_nat (index r mod n) = Some entry ∧
                         Reranking.content s = page_content (fst entry) ∧
                         Reranking.source_metadata s = metadata (fst entry) ∧
                         Reranking.original_score s = snd entry)
             results sources) ∧
  (Exists (fun r => ¬ (- n ≤ index r < n)%Z) results → outcome = Err IndexError).
Proof.
  intros Hkey k1 n2 passages n outcome Hembed Hsearch Hrerank.
  unfold outcome. erewrite reranking_outcome by done. split.
  - intros Hvalid. apply rmap_Forall2. eapply Forall_impl; [exact Hvalid|].
    intros r Hr. cbv beta in Hr. destruct (index_in_range initial_docs (index r) Hr) as (entry & Hentry & Hidx).
    unfold Reranking.source_of. rewrite Hidx. eexists. split; [done|]. simpl.
    split_and!; [done..|]. by exists entry.
  - intros Hinvalid. apply rmap_first_error.
    + apply Forall_forall. intros r _.
      destruct (decide (- n ≤ index r < n)%Z) as [Hr|Hr].
      * left. destruct (index_in_range initial_docs (index r) Hr) as (entry & _ & Hidx).
        unfold Reranking.source_of. rewrite Hidx. by eexists.
      * right. unfold Reranking.source_of. by rewrite index_out_of_range.
    + eapply Exists_impl; [exact Hinvalid|]. intros r Hr.
      unfold Reranking.source_of. by rewrite index_out_of_range.
Qed.

Lemma reranked_sources_follow_the_reranker_witness :
  fst (run (Reranking.reranking_rag "q" 1 (Some "key") None None)
         {| get_llm := Ok tt;
            generate := fun _ _ => Ok "";
            embed_query := fun _ _ => Ok [];
            similarity_search_with_score := fun _ _ _ =>
              Ok [(mkDocument "a" [], 0.5%Q); (mkDocument "b" [], 0.4%Q)];
            rerank := fun _ _ _ _ => Ok [mkRerankResult 2 0.9%Q] |})
  = Err IndexError.
Proof.
  refine (proj2 (reranked_sources_follow_the_reranker _ "q" 1 "key" None None [] 
                   [(mkDocument "a" [], 0.5%Q); (mkDocument "b" [], 0.4%Q)]
                   [mkRerankResult 2 0.9%Q] _ _ _ _) _); try reflexivity.
  apply Exists_cons_hd. simpl. lia.
Defined.

Lemma validate_valid c : Adaptive.validate c ∈ Adaptive.VALID_CATEGORIES.
Proof.
  unfold Adaptive.validate. case_bool_decide; [done|].
  destruct (find _ _) as [cat|] eqn:E.
  - apply find_some in E as [Hin _]. by apply list_elem_of_In.
  - unfold Adaptive.VALID_CATEGORIES. set_solver.
Qed.

Lemma technique_of_category cat :
  cat ∈ Adaptive.VALID_CATEGORIES →
  ∃ t, Adaptive.CATEGORY_TO_TECHNIQUE !! cat = Some t ∧
       t ∈ ["baseline"; "subquery"; "hyde"; "reranking"].
Proof.
  unfold Adaptive.VALID_CATEGORIES. rewrite !elem_of_cons, elem_of_nil.
  intros [->|[->|[->|[->|[]]]]]; eexists; (split; [vm_compute; reflexivity|set_solver]).
Qed.

Lemma selected_technique_is_core st :
  Adaptive.technique (Adaptive.select_technique_node st)
  ∈ ["baseline"; "subquery"; "hyde"; "reranking"].
Proof.
  unfold Adaptive.select_technique_node. cbn [Adaptive.technique].
  destruct (Adaptive.CATEGORY_TO_TECHNIQUE !! Adaptive.query_type st) as [t|] eqn:E.
  - unfold Adaptive.CATEGORY_TO_TECHNIQUE in E.
    apply elem_of_list_to_map_2, list_elem_of_In in E. simpl in E.
    destruct E as [[= _ <-]|[[= _ <-]|[[= _ <-]|[[= _ <-]|[]]]]]; simpl; set_solver.
  - simpl. set_solver.
Qed.

(** X23. Once the client is built, the first two nodes of the adaptive
    graph always return: they send exactly one request, keep the query,
    put a category of the closed set in [query_type] and the technique of
    the table for it, one of the four core techniques, in [technique].
    When the client cannot be built its exception is the outcome and no
    request is sent.  [select_technique_node] selects a core technique
    for every state. *)
Theorem router_always_selects_a_core_technique
    (W : Services) (state : Adaptive.AdaptiveState) (log : list call) :
  match get_llm W with
  | Ok _ =>
      ∃ st,
        Adaptive.classify_then_select state W log
        = (Ok st, log ++ [CallGenerate (Adaptive.CLASSIFICATION_PROMPT (Adaptive.query state))]) ∧
        Adaptive.query st = Adaptive.query state ∧
        Adaptive.query_type st ∈ Adaptive.VALID_CATEGORIES ∧
        Adaptive.CATEGORY_TO_TECHNIQUE !! Adaptive.query_type st = Some (Adaptive.technique st) ∧
        Adaptive.technique st ∈ ["baseline"; "subquery"; "hyde"; "reranking"]
  | Err e => Adaptive.classify_then_select state W log = (Err e, log)
  end ∧
  ∀ st, Adaptive.technique (Adaptive.select_technique_node st)
        ∈ ["baseline"; "subquery"; "hyde"; "reranking"].
Proof.
  split; [|apply selected_technique_is_core].
  unfold Adaptive.classify_then_select, Adaptive.classify_query_node.
  unfold bind, catch, perform, lift, ret.
  destruct (get_llm W) as [[]|e]; [|done].
  assert (∀ cat conf,
    cat ∈ Adaptive.VALID_CATEGORIES →
    let st := Adaptive.select_technique_node
                {| Adaptive.query := Adaptive.query state; Adaptive.query_type := cat;
                   Adaptive.technique := Adaptive.technique state;
                   Adaptive.confidence := conf |} in
    Adaptive.query st = Adaptive.query state ∧
    Adaptive.query_type st ∈ Adaptive.VALID_CATEGORIES ∧
    Adaptive.CATEGORY_TO_TECHNIQUE !! Adaptive.query_type st = Some (Adaptive.technique st) ∧
    Adaptive.technique st ∈ ["baseline"; "subquery"; "hyde"; "reranking"]) as Hsel.
  { intros cat conf Hcat st. destruct (technique_of_category cat Hcat) as (t & Ht & Hcore).
    unfold st, Adaptive.select_technique_node.
    cbn [Adaptive.query Adaptive.query_type Adaptive.technique Adaptive.confidence].
    rewrite Ht. by simpl. }
  destruct (generate W log _) as [response|e].
  - destruct (Adaptive.normalize response) as [c|e].
    + eexists. split; [done|]. apply Hsel, validate_valid.
    + eexists. split; [done|]. apply Hsel. unfold Adaptive.VALID_CATEGORIES. set_solver.
  - eexists. split; [done|]. apply Hsel. unfold Adaptive.VALID_CATEGORIES. set_solver.
Qed.

Lemma isspace_lower_char c : Py.isspace (Py.lower_char c) = Py.isspace c.
Proof. by destruct c as [[] [] [] [] [] [] [] []]. Qed.

Lemma isalpha_lower_char c :
  Py.isalpha (Py.lower_char c) = true →
  Py.isspace (Py.lower_char c) = false ∧ ¬ (65 ≤ N_of_ascii (Py.lower_char c) ≤ 90)%N.
Proof.
  destruct c as [[] [] [] [] [] [] [] []]; vm_compute; try done;
    (intros _; split; [done|]; intros [H1 H2]; by (apply H1 || apply H2)).
Qed.

Lemma rstrip_starts_nonspace c s :
  Py.isspace c = false → ∃ s', Py.rstrip (String c s) = String c s'.
Proof. intros Hc. simpl. rewrite Hc. destruct (Py.rstrip s); by eexists. Qed.

Lemma strip_starts_nonspace s :
  match Py.strip s with
  | EmptyString => True
  | String c _ => Py.isspace c = false
  end.
Proof.
  unfold Py.strip. pose proof (lstrip_starts_nonspace s) as H.
  destruct (Py.lstrip s) as [|c s0]; [done|].
  destruct (rstrip_starts_nonspace c s0 H) as [s' ->]. done.
Qed.

Lemma fields_nonspace c s b :
  Py.isspace c = false → ∃ w ws, Py.fields (String c s) b = String c w :: ws.
Proof.
  intros Hc. simpl. rewrite Hc. destruct (Py.fields s true); by eexists _, _.
Qed.

Lemma fields_chars s b w ch :
  w ∈ Py.fields s b → ch ∈ list_ascii_of_string w → ch ∈ list_ascii_of_string s.
Proof.
  revert b w. induction s as [|c s IH]; intros b w; simpl.
  - destruct b; [|by intros ?%elem_of_nil].
    intros ->%list_elem_of_singleton. done.
  - destruct (Py.isspace c).
    + destruct b.
      * intros [->|Hw]%elem_of_cons; [by intros ?%elem_of_nil|].
        intros. right. by eapply IH.
      * intros. right. by eapply IH.
    + destruct (Py.fields s true) as [|w0 ws] eqn:E.
      * intros ->%list_elem_of_singleton. simpl. set_solver.
      * intros [->|Hw]%elem_of_cons.
        -- simpl. intros [->|Hch]%elem_of_cons; [by left|].
           right. eapply (IH true w0); [rewrite E; by left|done].
        -- intros. right. eapply (IH true w); [rewrite E; by right|done].
Qed.

Lemma lower_chars s ch :
  ch ∈ list_ascii_of_string (Py.lower s) → ∃ c, ch = Py.lower_char c.
Proof.
  induction s as [|c s IH]; simpl; [by intros ?%elem_of_nil|].
  intros [->|?]%elem_of_cons; [by eexists|auto].
Qed.

Lemma filter_chars_spec p s ch :
  ch ∈ list_ascii_of_string (Py.filter_chars p s) ↔
  ch ∈ list_ascii_of_string s ∧ p ch = true.
Proof.
  induction s as [|c s IH]; simpl.
  { rewrite elem_of_nil. tauto. }
  destruct (p c) eqn:Hc; simpl; rewrite ?elem_of_cons, IH.
  - split; [intros [->|[? ?]]; auto|intros [[->|?] ?]; auto].
  - split; [intros [? ?]; auto|intros [[->|?] ?]; [congruence|auto]].
Qed.

(** X24. The clean-up of the classifier's response never raises: a
    response that is not blank has a first field, so taking it cannot
    fail.  The label it returns holds no whitespace and no upper-case
    letter from A to Z. *)
Theorem label_cleanup_never_raises (raw : string) :
  ∃ label,
    Adaptive.normalize raw = Ok label ∧
    Forall (fun ch => Py.isspace ch = false ∧ ¬ (65 ≤ N_of_ascii ch ≤ 90)%N)
           (list_ascii_of_string label).
Proof.
  unfold Adaptive.normalize. pose proof (strip_starts_nonspace raw) as Hstrip.
  destruct (Py.strip raw) as [|c0 s0].
  { eexists. split; [done|]. vm_compute.
    repeat constructor; by intros [H1 H2]; (apply H1 || apply H2). }
  cbn [Py.lower]. set (c := Py.lower_char c0). set (s' := Py.lower s0).
  assert (Py.isspace c = false) as Hc by by unfold c; rewrite isspace_lower_char.
  change (Py.truthy (String c s')) with true. cbv iota.
  unfold Py.split.
  destruct (fields_nonspace c s' false Hc) as (w & ws & Hf). rewrite Hf.
  eexists. split; [done|].
  apply Forall_forall. intros ch [Hch Halpha]%filter_chars_spec.
  assert (ch ∈ list_ascii_of_string (Py.lower (String c0 s0))) as Hin.
  { cbn [Py.lower]. fold c s'. eapply fields_chars; [|done]. rewrite Hf. by left. }
  apply lower_chars in Hin as [c1 ->]. by apply isalpha_lower_char.
Qed.

(** * The API key rotator *)

Section rotator.
Import ApiKeys.

Lemma locate_in_range (n : nat) (i : Z) :
  (0 ≤ i < Z.of_nat n)%Z → locate n i = Some (Z.to_nat i).
Proof.
  intros H. unfold locate.
  destruct (Z.ltb_spec i 0); [lia|].
  destruct (Z.leb_spec 0 i); [|lia].
  destruct (Z.ltb_spec i (Z.of_nat n)); [|lia]. done.
Qed.

Lemma is_available_key now s : key (is_available now s).2 = key s.
Proof. unfold is_available. by repeat case_match. Qed.

Lemma is_available_fresh now s : is_exhausted s = false → is_available now s = (true, s).
Proof. unfold is_available. by intros ->. Qed.

Lemma is_available_cooling now s :
  is_exhausted s = true → (now <= exhausted_until s)%Q → is_available now s = (false, s).
Proof.
  unfold is_available, Py.gt. intros -> H%Qle_bool_iff. by rewrite H.
Qed.

Lemma is_available_false now s :
  (is_available now s).1 = false → is_exhausted s = true ∧ (now <= exhausted_until s)%Q.
Proof.
  unfold is_available, Py.gt. destruct (is_exhausted s); [|done]. simpl.
  destruct (Qle_bool now (exhausted_until s)) eqn:E; [|done].
  intros _. split; [done|]. by apply Qle_bool_iff.
Qed.

Lemma NoDup_fmap_elem_eq {A B} (f : A → B) (l : list A) (x y : A) :
  NoDup (f <$> l) → x ∈ l → y ∈ l → f x = f y → x = y.
Proof.
  intros Hnd (i & Hi)%list_elem_of_lookup (j & Hj)%list_elem_of_lookup Hxy.
  assert (i = j) as ->; [|congruence].
  eapply NoDup_lookup; [done|..]; rewrite list_lookup_fmap.
  - by rewrite Hi.
  - by rewrite Hj, Hxy.
Qed.

Lemma keys_insert_status (l : list APIKeyStatus) p s s' :
  l !! p = Some s → key s' = key s → key <$> <[p := s']> l = key <$> l.
Proof.
  intros Hp Hk. rewrite list_fmap_insert, Hk. apply list_insert_id.
  by rewrite list_lookup_fmap, Hp.
Qed.

Lemma locate_Some n i p : locate n i = Some p → (p < n)%nat.
Proof.
  unfold locate. intros H. repeat case_match; simplify_eq; lia.
Qed.

Lemma next_key_loop_ok clock passes i r :
  (0 ≤ _current_index r < Z.of_nat (length (_keys r)))%Z →
  ∃ k r', next_key_loop clock passes i r = (Ok k, r') ∧
    get_all_keys r' = get_all_keys r ∧
    (0 ≤ _current_index r' < Z.of_nat (length (_keys r')))%Z.
Proof.
  revert i r. induction passes as [|passes IH]; intros i r Hidx; simpl.
  { by exists None, r. }
  rewrite locate_in_range by done.
  destruct (lookup_lt_is_Some_2 (_keys r) (Z.to_nat (_current_index r))) as [s Hs]; [lia|].
  rewrite Hs. destruct (is_available (clock i) s) as [av s'] eqn:Eav.
  assert (key s' = key s) as Hk.
  { by rewrite <-(is_available_key (clock i) s), Eav. }
  set (r1 := {| _keys := _ |}).
  assert (get_all_keys r1 = get_all_keys r) as Hkeys.
  { unfold get_all_keys, r1. simpl. by eapply keys_insert_status. }
  assert (0 ≤ _current_index r1 < Z.of_nat (length (_keys r1)))%Z as Hidx1.
  { unfold r1. simpl. rewrite length_insert. apply Z.mod_pos_bound. lia. }
  destruct av.
  - by exists (Some (key s')), r1.
  - destruct (IH (S i) r1 Hidx1) as (k & r' & -> & Hk' & Hi').
    exists k, r'. split; [done|]. split; [congruence|done].
Qed.

Lemma existsb_key api_key (l : list APIKeyStatus) :
  existsb (λ e, String.eqb (key e) api_key) l = true ↔ api_key ∈ key <$> l.
Proof.
  rewrite existsb_exists, list_elem_of_fmap. split.
  - intros (s & Hs%list_elem_of_In & <-%String.eqb_eq). by exists s.
  - intros (s & -> & Hs). exists s. split; [by apply list_elem_of_In|apply String.eqb_refl].
Qed.

Lemma add_key_present now k p r : k ∈ get_all_keys r → add_key now k p r = r.
Proof. intros H%existsb_key. unfold add_key. by rewrite H. Qed.

Lemma add_key_absent now k p r :
  k ∉ get_all_keys r →
  add_key now k p r =
  {| _keys := _keys r ++ [new_status now k p]; _current_index := _current_index r |}.
Proof.
  intros H. unfold add_key.
  destruct (existsb _ _) eqn:E; [|done]. by apply existsb_key in E.
Qed.

Lemma add_key_elem now k p r : k ∈ get_all_keys (add_key now k p r).
Proof.
  destruct (decide (k ∈ get_all_keys r)) as [H|H].
  - by rewrite add_key_present.
  - rewrite add_key_absent by done. unfold get_all_keys. simpl.
    rewrite fmap_app. set_solver.
Qed.

Lemma add_key_prefix now k p r :
  get_all_keys r `prefix_of` get_all_keys (add_key now k p r).
Proof.
  destruct (decide (k ∈ get_all_keys r)) as [H|H].
  - by rewrite add_key_present.
  - rewrite add_key_absent by done. unfold get_all_keys. simpl.
    rewrite fmap_app. by apply prefix_app_r.
Qed.

Lemma add_key_well_formed now k p r : well_formed r → well_formed (add_key now k p r).
Proof.
  intros (Hnd & Hidx). destruct (decide (k ∈ get_all_keys r)) as [H|H].
  - by rewrite add_key_present.
  - rewrite add_key_absent by done. unfold well_formed, get_all_keys in *. simpl.
    rewrite fmap_app, length_app. split; [|simpl; lia].
    apply NoDup_app. split; [done|]. split; [|apply NoDup_singleton].
    intros x Hx ->%list_elem_of_singleton. done.
Qed.

Lemma add_item_cases (e : Z * string) :
  (∀ clock r, add_item clock r e = r) ∨
  (∃ k, ∀ clock r, ∃ now p, add_item clock r e = add_key now k p r).
Proof.
  destruct e as [i item]. unfold add_item.
  destruct (negb (Py.truthy (Py.strip item))); [by left|].
  destruct (Py.contains ":" (Py.strip item)).
  - destruct (split_once colon (Py.strip item)) as [k project].
    right. exists (Py.strip k). intros. by eexists _, _.
  - right. exists (Py.strip item). intros. by eexists _, _.
Qed.

Lemma add_item_prefix clock r e :
  get_all_keys r `prefix_of` get_all_keys (add_item clock r e).
Proof.
  destruct (add_item_cases e) as [H|(k & H)].
  - by rewrite H.
  - destruct (H clock r) as (now & p & ->). apply add_key_prefix.
Qed.

Lemma add_item_well_formed clock r e : well_formed r → well_formed (add_item clock r e).
Proof.
  destruct (add_item_cases e) as [H|(k & H)].
  - by rewrite H.
  - destruct (H clock r) as (now & p & ->). apply add_key_well_formed.
Qed.

Lemma add_items_prefix clock es r :
  get_all_keys r `prefix_of` get_all_keys (foldl (add_item clock) r es).
Proof.
  revert r. induction es as [|e es IH]; intros r; simpl; [done|].
  etrans; [apply add_item_prefix|apply IH].
Qed.

Lemma add_items_well_formed clock es r :
  well_formed r → well_formed (foldl (add_item clock) r es).
Proof.
  revert r. induction es as [|e es IH]; intros r; simpl; [done|].
  intros. by apply IH, add_item_well_formed.
Qed.

Lemma add_items_absorbed clock es r e r' clock' :
  e ∈ es →
  get_all_keys (foldl (add_item clock) r es) ⊆ get_all_keys r' →
  add_item clock' r' e = r'.
Proof.
  revert r. induction es as [|e0 es IH]; intros r; [by intros ?%elem_of_nil|].
  simpl. intros [Heq|He]%elem_of_cons Hsub; [subst e0|by eapply IH].
  destruct (add_item_cases e) as [H|(k & H)]; [done|].
  destruct (H clock' r') as (now & p & ->).
  apply add_key_present, Hsub.
  eapply elem_of_prefix; [|apply add_items_prefix].
  destruct (H clock r) as (now0 & p0 & ->). apply add_key_elem.
Qed.

Lemma add_items_fixed clock es r :
  (∀ e, e ∈ es → add_item clock r e = r) → foldl (add_item clock) r es = r.
Proof.
  induction es as [|e es IH]; simpl; [done|]. intros H.
  rewrite H by set_solver. apply IH. intros; apply H; set_solver.
Qed.

Lemma add_keys_from_string_twice clock clock' keys_string r r' :
  get_all_keys (add_keys_from_string clock keys_string r) ⊆ get_all_keys r' →
  add_keys_from_string clock' keys_string r' = r'.
Proof.
  unfold add_keys_from_string. destruct (negb (Py.truthy keys_string)); [done|].
  intros Hsub. apply add_items_fixed. intros e He. by eapply add_items_absorbed.
Qed.

Lemma add_keys_from_string_prefix clock keys_string r :
  get_all_keys r `prefix_of` get_all_keys (add_keys_from_string clock keys_string r).
Proof.
  unfold add_keys_from_string. destruct (negb (Py.truthy keys_string)); [done|].
  apply add_items_prefix.
Qed.

Lemma add_keys_from_string_well_formed clock keys_string r :
  well_formed r → well_formed (add_keys_from_string clock keys_string r).
Proof.
  unfold add_keys_from_string. destruct (negb (Py.truthy keys_string)); [done|].
  apply add_items_well_formed.
Qed.

(** X30. [initialize_rotator] is idempotent: initializing the shared
    rotator again with the same keys changes nothing, whatever the clock
    reads. *)
Theorem initialize_rotator_is_idempotent
    (now now' : Q) (clock clock' : nat → Q) (primary_key additional_keys : string)
    (r : APIKeyRotator) :
  initialize_rotator now' clock' primary_key additional_keys
    (initialize_rotator now clock primary_key additional_keys r) =
  initialize_rotator now clock primary_key additional_keys r.
Proof.
  unfold initialize_rotator.
  set (r1 := if Py.truthy primary_key then add_key now primary_key "primary" r else r).
  set (r2 := if Py.truthy additional_keys
             then add_keys_from_string clock additional_keys r1 else r1).
  assert (get_all_keys r1 ⊆ get_all_keys r2) as H12.
  { unfold r2. destruct (Py.truthy additional_keys); [|done].
    intros x Hx. eapply elem_of_prefix; [done|apply add_keys_from_string_prefix]. }
  assert ((if Py.truthy primary_key then add_key now' primary_key "primary" r2 else r2) = r2)
    as ->.
  { destruct (Py.truthy primary_key) eqn:E; [|done].
    apply add_key_present, H12. unfold r1. apply add_key_elem. }
  destruct (Py.truthy additional_keys) eqn:E; [|done].
  apply (add_keys_from_string_twice clock clock' additional_keys r1).
  unfold r2. by intros x Hx.
Qed.

Lemma update_first_keys api_key f (l : list APIKeyStatus) :
  (∀ s, key (f s) = key s) → key <$> update_first api_key f l = key <$> l.
Proof.
  intros Hf. induction l as [|s l IH]; cbn [update_first]; [done|].
  destruct (String.eqb (key s) api_key); rewrite !fmap_cons; [by rewrite Hf|by rewrite IH].
Qed.

Lemma length_update_first api_key f (l : list APIKeyStatus) :
  length (update_first api_key f l) = length l.
Proof.
  induction l as [|s l IH]; simpl; [done|].
  destruct (String.eqb (key s) api_key); simpl; [done|by rewrite IH].
Qed.

Lemma well_formed_same_keys r r' :
  get_all_keys r' = get_all_keys r → _current_index r' = _current_index r →
  well_formed r → well_formed r'.
Proof.
  unfold well_formed. intros Hk Hi (Hnd & Hidx). rewrite Hk, Hi. split; [done|].
  assert (length (_keys r') = length (_keys r)) as ->; [|done].
  by rewrite <-(length_fmap key (_keys r')), <-(length_fmap key (_keys r)); unfold get_all_keys in Hk; rewrite Hk.
Qed.

Lemma well_formed_index r :
  well_formed r → _keys r ≠ [] → (0 ≤ _current_index r < Z.of_nat (length (_keys r)))%Z.
Proof.
  intros (_ & Hidx) Hne. destruct (_keys r); [done|]. simpl length in *. lia.
Qed.

Lemma get_next_key_ok clock r :
  well_formed r →
  ∃ k r', get_next_key clock r = (Ok k, r') ∧ well_formed r' ∧
          get_all_keys r' = get_all_keys r.
Proof.
  intros Hwf. unfold get_next_key. destruct (_keys r) as [|s l] eqn:E.
  { by exists None, r. }
  rewrite <-E.
  destruct (next_key_loop_ok clock (length (_keys r)) 0 r) as (k & r' & -> & Hk & Hi).
  { apply well_formed_index; [done|]. by rewrite E. }
  exists k, r'. split; [done|]. split; [|done].
  destruct Hwf as (Hnd & _). split; [by rewrite Hk|]. lia.
Qed.

Lemma current_position r :
  well_formed r → _keys r ≠ [] →
  ∃ s, locate (length (_keys r))
         ((_current_index r - 1) mod Z.of_nat (length (_keys r)))%Z =
       Some (Z.to_nat ((_current_index r - 1) mod Z.of_nat (length (_keys r)))) ∧
       _keys r !! Z.to_nat ((_current_index r - 1) mod Z.of_nat (length (_keys r))) = Some s.
Proof.
  intros Hwf Hne.
  assert (0 < Z.of_nat (length (_keys r)))%Z as Hlen.
  { destruct (_keys r); [done|]. simpl. lia. }
  pose proof (Z.mod_pos_bound (_current_index r - 1) _ Hlen) as Hb.
  destruct (lookup_lt_is_Some_2 (_keys r)
    (Z.to_nat ((_current_index r - 1) mod Z.of_nat (length (_keys r))))) as [s Hs]; [lia|].
  exists s. split; [by apply locate_in_range|done].
Qed.

(** X25. A pool without repeated keys whose index points into it stays
    so under every operation of the rotator; [add_key] and
    [add_keys_from_string] only append to the keys, the other operations
    leave the keys as they are, and [get_next_key], [get_current_key] and
    [mark_current_exhausted] never raise on such a pool. *)
Theorem rotator_operations_keep_the_pool_well_formed (r : APIKeyRotator) :
  well_formed r →
  (∀ now k p, well_formed (add_key now k p r) ∧
              get_all_keys r `prefix_of` get_all_keys (add_key now k p r)) ∧
  (∀ clock ks, well_formed (add_keys_from_string clock ks r) ∧
               get_all_keys r `prefix_of` get_all_keys (add_keys_from_string clock ks r)) ∧
  (∀ now k c, well_formed (mark_key_exhausted now k c r) ∧
              get_all_keys (mark_key_exhausted now k c r) = get_all_keys r) ∧
  (∀ now k, well_formed (record_success now k r) ∧
            get_all_keys (record_success now k r) = get_all_keys r) ∧
  (∀ clock, ∃ k r', get_next_key clock r = (Ok k, r') ∧ well_formed r' ∧
                    get_all_keys r' = get_all_keys r) ∧
  (∃ k, get_current_key r = Ok k) ∧
  (∀ now c, ∃ r', mark_current_exhausted now c r = Ok r' ∧ well_formed r' ∧
                  get_all_keys r' = get_all_keys r).
Proof.
  intros Hwf. split_and!.
  - intros. split; [by apply add_key_well_formed|apply add_key_prefix].
  - intros. split; [by apply add_keys_from_string_well_formed|].
    apply add_keys_from_string_prefix.
  - intros now k c.
    assert (get_all_keys (mark_key_exhausted now k c r) = get_all_keys r) as Hk.
    { unfold get_all_keys. simpl. by apply update_first_keys. }
    split; [|done]. by eapply well_formed_same_keys.
  - intros now k.
    assert (get_all_keys (record_success now k r) = get_all_keys r) as Hk.
    { unfold get_all_keys. simpl. by apply update_first_keys. }
    split; [|done]. by eapply well_formed_same_keys.
  - intros clock. by apply get_next_key_ok.
  - unfold get_current_key. destruct (_keys r) as [|s0 l] eqn:E; [by exists None|].
    rewrite <-E. destruct (current_position r) as (s & -> & ->); [done|by rewrite E|].
    by eexists.
  - intros now c. unfold mark_current_exhausted.
    destruct (_keys r) as [|s0 l] eqn:E; [by exists r|].
    rewrite <-E. destruct (current_position r) as (s & -> & Hs); [done|by rewrite E|].
    rewrite Hs. eexists. split; [done|].
    match goal with |- well_formed ?r' ∧ _ =>
      assert (get_all_keys r' = get_all_keys r) as Hk end.
    { unfold get_all_keys. simpl. by eapply keys_insert_status. }
    split; [|done]. by eapply well_formed_same_keys.
Qed.

Lemma get_next_key_nonempty clock r :
  _keys r ≠ [] → get_next_key clock r = next_key_loop clock (length (_keys r)) 0 r.
Proof. unfold get_next_key. by destruct (_keys r). Qed.

Lemma next_key_loop_fresh clock passes i r :
  (0 ≤ _current_index r < Z.of_nat (length (_keys r)))%Z →
  Forall (λ s, is_exhausted s = false) (_keys r) →
  next_key_loop clock (S passes) i r =
  (Ok (get_all_keys r !! Z.to_nat (_current_index r)),
   {| _keys := _keys r;
      _current_index := ((_current_index r + 1) mod Z.of_nat (length (_keys r)))%Z |}).
Proof.
  intros Hidx Hfresh. cbn [next_key_loop]. rewrite locate_in_range by done.
  destruct (lookup_lt_is_Some_2 (_keys r) (Z.to_nat (_current_index r))) as [s Hs]; [lia|].
  rewrite Hs. rewrite is_available_fresh.
  2:{ eapply Forall_forall in Hfresh; [done|]. by eapply list_elem_of_lookup_2. }
  rewrite list_insert_id by done. unfold get_all_keys.
  by rewrite list_lookup_fmap, Hs.
Qed.

Lemma next_keys_fresh clocks r :
  (0 ≤ _current_index r < Z.of_nat (length (_keys r)))%Z →
  Forall (λ s, is_exhausted s = false) (_keys r) →
  next_keys clocks r =
  ((λ j, get_all_keys r !!
           Z.to_nat ((_current_index r + Z.of_nat j) mod Z.of_nat (length (_keys r)))%Z)
     <$> seq 0 (length clocks),
   {| _keys := _keys r;
      _current_index :=
        ((_current_index r + Z.of_nat (length clocks)) mod Z.of_nat (length (_keys r)))%Z |}).
Proof.
  revert r. induction clocks as [|clock clocks IH]; intros r Hidx Hfresh.
  { simpl. rewrite Z.add_0_r, Z.mod_small by done. by destruct r. }
  cbn [next_keys length].
  rewrite get_next_key_nonempty by (intros E; rewrite E in Hidx; simpl in Hidx; lia).
  assert (length (_keys r) = S (pred (length (_keys r)))) as Hlen by lia.
  rewrite Hlen at 1. rewrite next_key_loop_fresh by done.
  rewrite IH; cbn [_keys _current_index]; [|apply Z.mod_pos_bound; lia|done].
  change (seq 0 (S (length clocks))) with (0%nat :: seq 1 (length clocks)). rewrite fmap_cons.
  change (Z.of_nat 0) with 0%Z. rewrite Z.add_0_r, (Z.mod_small (_current_index r)) by done.
  rewrite <-fmap_S_seq, <-list_fmap_compose. f_equal.
  - f_equal. apply list_fmap_ext. intros _ j _. unfold compose, get_all_keys.
    cbn [_keys]. do 2 f_equal. rewrite Zplus_mod_idemp_l. f_equal. lia.
  - f_equal. rewrite Zplus_mod_idemp_l. f_equal. lia.
Qed.

(** X26. While no key is exhausted, [get_next_key] is a round robin:
    calls in a row, whatever the clock reads during each of them, serve
    the keys in pool order starting at the index, and after as many
    calls as there are keys the rotator is back in the state it started
    from. *)
Theorem round_robin_serves_the_keys_in_turn
    (clocks : list (nat → Q)) (r : APIKeyRotator) :
  well_formed r →
  Forall (λ s, is_exhausted s = false) (_keys r) →
  (length clocks ≤ length (_keys r))%nat →
  (next_keys clocks r).1 =
    Some <$> take (length clocks) (rotate (Z.to_nat (_current_index r)) (get_all_keys r)) ∧
  (length clocks = length (_keys r) → (next_keys clocks r).2 = r).
Proof.
  intros Hwf Hfresh Hn.
  destruct (decide (_keys r = [])) as [E|Hne].
  { rewrite E in *. simpl in Hn. by destruct clocks; [|simpl in Hn; lia]. }
  pose proof (well_formed_index r Hwf Hne) as Hidx.
  rewrite !next_keys_fresh by done. cbn [fst snd]. split.
  - apply list_eq. intros j. rewrite !list_lookup_fmap.
    destruct (decide (j < length clocks)%nat) as [Hj|Hj].
    + rewrite lookup_seq_lt, lookup_take_lt by done.
      rewrite lookup_rotate_r by (unfold get_all_keys; rewrite length_fmap; lia).
      unfold rotate_nat_add, get_all_keys. rewrite length_fmap, Z2Nat.id by lia.
      cbn [fmap option_fmap option_map Nat.add].
      set (p := Z.to_nat _).
      destruct (lookup_lt_is_Some_2 (key <$> _keys r) p) as [k ->]; [|done].
      rewrite length_fmap. unfold p.
      pose proof (Z.mod_pos_bound (_current_index r + Z.of_nat j)
                    (Z.of_nat (length (_keys r)))). lia.
    + by rewrite lookup_seq_ge, lookup_take_ge by lia.
  - intros ->. rewrite <-(Z.mul_1_l (Z.of_nat (length (_keys r)))) at 1.
    rewrite Z_mod_plus_full, Z.mod_small by done. by destruct r.
Qed.

Lemma next_key_loop_pool clock passes i r :
  get_all_keys (next_key_loop clock passes i r).2 = get_all_keys r ∧
  ∀ k, (next_key_loop clock passes i r).1 = Ok (Some k) → k ∈ get_all_keys r.
Proof.
  revert i r. induction passes as [|passes IH]; intros i r; cbn [next_key_loop].
  { by split. }
  destruct (locate _ _) as [p|]; [|by split].
  destruct (_keys r !! p) as [s|] eqn:Hs; [|by split].
  destruct (is_available (clock i) s) as [av s'] eqn:Eav.
  assert (key s' = key s) as Hk.
  { by rewrite <-(is_available_key (clock i) s), Eav. }
  set (r1 := {| _keys := _ |}).
  assert (get_all_keys r1 = get_all_keys r) as Hkeys.
  { unfold get_all_keys, r1. simpl. by eapply keys_insert_status. }
  destruct av.
  - split; [done|]. intros k [= <-]. rewrite Hk. unfold get_all_keys.
    apply list_elem_of_fmap. exists s. split; [done|]. by eapply list_elem_of_lookup_2.
  - destruct (IH (S i) r1) as [H1 H2]. rewrite <-Hkeys. by split.
Qed.

Lemma get_next_key_pool clock r :
  get_all_keys (get_next_key clock r).2 = get_all_keys r ∧
  ∀ k, (get_next_key clock r).1 = Ok (Some k) → k ∈ get_all_keys r.
Proof.
  unfold get_next_key. destruct (_keys r) eqn:E; [by split|].
  rewrite <-E. apply next_key_loop_pool.
Qed.

Lemma cooling_insert api_key t r p s s' idx :
  NoDup (get_all_keys r) → _keys r !! p = Some s →
  (key s = api_key → s' = s) →
  cooling api_key t r →
  cooling api_key t {| _keys := <[p := s']> (_keys r); _current_index := idx |}.
Proof.
  intros Hnd Hs Hsame (s0 & [q Hq]%list_elem_of_lookup & Hk & Hex & Ht).
  exists s0. split; [|done]. cbn [_keys].
  destruct (decide (p = q)) as [->|Hpq].
  - assert (s0 = s) as -> by congruence. rewrite Hsame by done.
    rewrite list_insert_id by done. by eapply list_elem_of_lookup_2.
  - eapply list_elem_of_lookup_2. by rewrite list_lookup_insert_ne.
Qed.

Lemma next_key_loop_cooling clock api_key t passes i r :
  (∀ j, (clock j <= t)%Q) → NoDup (get_all_keys r) → cooling api_key t r →
  (next_key_loop clock passes i r).1 ≠ Ok (Some api_key) ∧
  cooling api_key t (next_key_loop clock passes i r).2.
Proof.
  intros Hclock. revert i r.
  induction passes as [|passes IH]; intros i r Hnd Hcool; cbn [next_key_loop].
  { by split. }
  destruct (locate _ _) as [p|]; [|by split].
  destruct (_keys r !! p) as [s|] eqn:Hs; [|by split].
  assert (key s = api_key → is_available (clock i) s = (false, s)) as Hskip.
  { intros Hk. destruct Hcool as (s0 & Hs0 & Hk0 & Hex & Ht).
    assert (s = s0) as ->.
    { eapply (NoDup_fmap_elem_eq key); [exact Hnd| |done|congruence].
      by eapply list_elem_of_lookup_2. }
    apply is_available_cooling; [done|]. by eapply Qle_trans. }
  destruct (is_available (clock i) s) as [av s'] eqn:Eav.
  assert (key s' = key s) as Hk.
  { by rewrite <-(is_available_key (clock i) s), Eav. }
  set (r1 := {| _keys := _ |}).
  assert (get_all_keys r1 = get_all_keys r) as Hkeys.
  { unfold get_all_keys, r1. simpl. by eapply keys_insert_status. }
  assert (cooling api_key t r1) as Hcool1.
  { apply cooling_insert with s; [done..| |done].
    intros Hks. specialize (Hskip Hks). congruence. }
  destruct av.
  - split; [|done]. intros [= Hks]. rewrite Hk in Hks.
    specialize (Hskip Hks). congruence.
  - apply IH; [by rewrite Hkeys|done].
Qed.

Lemma get_next_key_cooling clock api_key t r :
  (∀ j, (clock j <= t)%Q) → NoDup (get_all_keys r) → cooling api_key t r →
  (get_next_key clock r).1 ≠ Ok (Some api_key) ∧
  cooling api_key t (get_next_key clock r).2.
Proof.
  intros. unfold get_next_key. destruct (_keys r) eqn:E; [by split|].
  rewrite <-E. by apply next_key_loop_cooling.
Qed.

Lemma mark_key_exhausted_cooling now api_key cooldown r :
  api_key ∈ get_all_keys r →
  cooling api_key (now + cooldown) (mark_key_exhausted now api_key cooldown r).
Proof.
  unfold cooling, mark_key_exhausted, get_all_keys. cbn [_keys].
  induction (_keys r) as [|s l IH]; [by intros ?%elem_of_nil|].
  rewrite fmap_cons. cbn [update_first]. destruct (String.eqb_spec (key s) api_key) as [E|E].
  - intros _. exists (mark_exhausted now cooldown s). split; [left|].
    split_and!; [done..|]. simpl. apply Qle_refl.
  - intros [?|Hin]%elem_of_cons; [congruence|].
    destruct (IH Hin) as (s0 & ? & ?). exists s0. split; [by right|done].
Qed.

(** X27. A key that [mark_key_exhausted] put on cooldown is not served
    by any later call of [get_next_key], however many calls follow and
    whenever they are made, as long as no reading of the clock during
    these calls has passed the end of the cooldown. *)
Theorem exhausted_key_is_not_served_while_cooling
    (clocks : list (nat → Q)) (now cooldown : Q) (api_key : string) (r : APIKeyRotator) :
  NoDup (get_all_keys r) →
  Forall (fun clock : nat → Q => ∀ j, (clock j <= now + cooldown)%Q) clocks →
  Some api_key ∉ (next_keys clocks (mark_key_exhausted now api_key cooldown r)).1.
Proof.
  intros Hnd Hclocks.
  set (r0 := mark_key_exhausted now api_key cooldown r).
  assert (get_all_keys r0 = get_all_keys r) as Hk0.
  { unfold get_all_keys, r0. simpl. by apply update_first_keys. }
  destruct (decide (api_key ∈ get_all_keys r)) as [Hin|Hout].
  - assert (cooling api_key (now + cooldown) r0) as Hcool
      by by apply mark_key_exhausted_cooling.
    assert (NoDup (get_all_keys r0)) as Hnd0 by by rewrite Hk0.
    clearbody r0. clear Hk0 Hin Hnd. revert r0 Hcool Hnd0.
    induction Hclocks as [|clock clocks Hclock _ IH]; intros r0 Hcool Hnd0; cbn [next_keys].
    { apply not_elem_of_nil. }
    destruct (get_next_key_cooling clock api_key _ r0 Hclock Hnd0 Hcool) as [H1 H2].
    destruct (get_next_key_pool clock r0) as [H3 _].
    destruct (get_next_key clock r0) as [[k|e] r1]; [|apply not_elem_of_nil].
    cbn [fst snd] in *. specialize (IH r1 H2). rewrite H3 in IH. specialize (IH Hnd0).
    destruct (next_keys clocks r1) as [ks r2]. cbn [fst] in *.
    intros [?|?]%elem_of_cons; [congruence|done].
  - assert (api_key ∉ get_all_keys r0) as Hout0 by by rewrite Hk0.
    clearbody r0. clear Hk0 Hout Hnd Hclocks. revert r0 Hout0.
    induction clocks as [|clock clocks IH]; intros r0 Hout0; cbn [next_keys].
    { apply not_elem_of_nil. }
    destruct (get_next_key_pool clock r0) as [H3 H4].
    destruct (get_next_key clock r0) as [[k|e] r1]; [|apply not_elem_of_nil].
    cbn [fst snd] in *. specialize (IH r1). rewrite H3 in IH. specialize (IH Hout0).
    destruct (next_keys clocks r1) as [ks r2]. cbn [fst] in *.
    intros [Hk|?]%elem_of_cons; [|done]. apply Hout0, H4. congruence.
Qed.

Lemma is_available_false_id now s :
  (is_available now s).1 = false → is_available now s = (false, s).
Proof.
  intros H. destruct (is_available_false now s H). by apply is_available_cooling.
Qed.

Lemma next_key_loop_all_cooling clock passes i r :
  (0 ≤ _current_index r < Z.of_nat (length (_keys r)))%Z →
  Forall (λ s, is_exhausted s = true ∧ ∀ j, (clock j <= exhausted_until s)%Q) (_keys r) →
  next_key_loop clock passes i r =
  (Ok None,
   {| _keys := _keys r;
      _current_index :=
        ((_current_index r + Z.of_nat passes) mod Z.of_nat (length (_keys r)))%Z |}).
Proof.
  revert i r. induction passes as [|passes IH]; intros i r Hidx Hall.
  { cbn [next_key_loop]. change (Z.of_nat 0) with 0%Z.
    rewrite Z.add_0_r, Z.mod_small by done. by destruct r. }
  cbn [next_key_loop]. rewrite locate_in_range by done.
  destruct (lookup_lt_is_Some_2 (_keys r) (Z.to_nat (_current_index r))) as [s Hs]; [lia|].
  rewrite Hs. rewrite is_available_cooling.
  2,3: eapply Forall_forall in Hall; [by apply Hall|by eapply list_elem_of_lookup_2].
  rewrite list_insert_id by done.
  rewrite IH; cbn [_keys _current_index]; [|apply Z.mod_pos_bound; lia|done].
  do 2 f_equal. rewrite Zplus_mod_idemp_l. f_equal. lia.
Qed.

Lemma next_key_loop_None clock passes i r r' :
  (0 ≤ _current_index r < Z.of_nat (length (_keys r)))%Z →
  next_key_loop clock passes i r = (Ok None, r') →
  ∀ m, (m < passes)%nat →
    ∃ s, _keys r !! Z.to_nat ((_current_index r + Z.of_nat m) mod
                               Z.of_nat (length (_keys r)))%Z = Some s ∧
         is_exhausted s = true ∧ (clock (i + m)%nat <= exhausted_until s)%Q.
Proof.
  revert i r. induction passes as [|passes IH]; intros i r Hidx Hloop m Hm; [lia|].
  cbn [next_key_loop] in Hloop. rewrite locate_in_range in Hloop by done.
  destruct (lookup_lt_is_Some_2 (_keys r) (Z.to_nat (_current_index r))) as [s Hs]; [lia|].
  rewrite Hs in Hloop.
  destruct (is_available (clock i) s) as [[] s'] eqn:Eav; [done|].
  assert ((is_available (clock i) s).1 = false) as Hf by by rewrite Eav.
  rewrite (is_available_false_id _ _ Hf) in Eav. injection Eav as <-.
  rewrite list_insert_id in Hloop by done.
  destruct m as [|m].
  - exists s. change (Z.of_nat 0) with 0%Z.
    rewrite Z.add_0_r, Z.mod_small, Nat.add_0_r by done.
    split; [done|]. by apply is_available_false.
  - destruct (λ H, IH _ _ H Hloop m) as (s0 & Hs0 & Hex & Ht); [|lia|].
    { cbn [_keys _current_index]. apply Z.mod_pos_bound. lia. }
    cbn [_keys _current_index] in Hs0. rewrite Zplus_mod_idemp_l in Hs0.
    exists s0. split_and!; [|done|].
    + rewrite <-Hs0. do 3 f_equal. lia.
    + by replace (i + S m)%nat with (S i + m)%nat by lia.
Qed.

(** X28. At a given time [get_next_key] returns [None] exactly when every
    key of the pool is exhausted and still cooling down (an empty pool
    included), and such a call leaves the rotator as it was. *)
Theorem no_key_is_served_iff_all_are_cooling (now : Q) (r : APIKeyRotator) :
  well_formed r →
  ((get_next_key (λ _, now) r).1 = Ok None ↔
   Forall (λ s, is_exhausted s = true ∧ (now <= exhausted_until s)%Q) (_keys r)) ∧
  ((get_next_key (λ _, now) r).1 = Ok None → (get_next_key (λ _, now) r).2 = r).
Proof.
  intros Hwf. destruct (decide (_keys r = [])) as [E|Hne].
  { unfold get_next_key. rewrite E. split; [|done]. split; [by constructor|done]. }
  pose proof (well_formed_index r Hwf Hne) as Hidx.
  rewrite get_next_key_nonempty by done.
  assert (Forall (λ s, is_exhausted s = true ∧ (now <= exhausted_until s)%Q) (_keys r) →
          next_key_loop (λ _, now) (length (_keys r)) 0 r = (Ok None, r)) as Hall.
  { intros Hall. rewrite next_key_loop_all_cooling; [|done|].
    - rewrite <-(Z.mul_1_l (Z.of_nat (length (_keys r)))) at 1.
      rewrite Z_mod_plus_full, Z.mod_small by done. by destruct r.
    - eapply Forall_impl; [done|]. naive_solver. }
  assert ((next_key_loop (λ _, now) (length (_keys r)) 0 r).1 = Ok None →
          Forall (λ s, is_exhausted s = true ∧ (now <= exhausted_until s)%Q) (_keys r))
    as Hnone.
  { intros Hloop. destruct (next_key_loop _ _ _ _) as [res r'] eqn:E. simpl in Hloop.
    subst res. apply Forall_lookup. intros q s Hq.
    pose proof (lookup_lt_Some _ _ _ Hq) as Hlt.
    set (len := Z.of_nat (length (_keys r))) in *.
    destruct (next_key_loop_None _ _ _ _ _ Hidx E
                (Z.to_nat ((Z.of_nat q - _current_index r) mod len)%Z))
      as (s0 & Hs0 & Hex & Ht).
    { pose proof (Z.mod_pos_bound (Z.of_nat q - _current_index r) len). lia. }
    rewrite Z2Nat.id in Hs0 by (apply Z.mod_pos_bound; lia).
    fold len in Hs0. rewrite Zplus_mod_idemp_r in Hs0.
    replace (_current_index r + (Z.of_nat q - _current_index r))%Z with (Z.of_nat q)
      in Hs0 by lia.
    rewrite Z.mod_small, Nat2Z.id in Hs0 by lia. by simplify_eq. }
  split; [split; [done|]|].
  - intros H. by rewrite Hall.
  - intros H. by rewrite Hall by auto.
Qed.

Lemma next_key_loop_current clock passes i r k r' :
  (0 ≤ _current_index r < Z.of_nat (length (_keys r)))%Z →
  next_key_loop clock passes i r = (Ok (Some k), r') →
  (0 ≤ _current_index r' < Z.of_nat (length (_keys r')))%Z ∧
  ∃ s, _keys r' !! Z.to_nat ((_current_index r' - 1) mod Z.of_nat (length (_keys r')))%Z
       = Some s ∧ key s = k.
Proof.
  revert i r. induction passes as [|passes IH]; intros i r Hidx Hloop; [done|].
  cbn [next_key_loop] in Hloop. rewrite locate_in_range in Hloop by done.
  destruct (lookup_lt_is_Some_2 (_keys r) (Z.to_nat (_current_index r))) as [s Hs]; [lia|].
  rewrite Hs in Hloop.
  destruct (is_available (clock i) s) as [[] s'] eqn:Eav.
  - injection Hloop as <- <-. cbn [_keys _current_index]. rewrite length_insert.
    split; [apply Z.mod_pos_bound; lia|].
    exists s'. split; [|done].
    rewrite Zminus_mod_idemp_l.
    replace (_current_index r + 1 - 1)%Z with (_current_index r) by lia.
    rewrite Z.mod_small by done. apply list_lookup_insert_eq. lia.
  - eapply IH; [|done]. cbn [_keys _current_index]. rewrite length_insert.
    apply Z.mod_pos_bound. lia.
Qed.

(** X29. After [get_next_key] served a key, [get_current_key] returns
    that key, and [mark_current_exhausted] puts that key on cooldown
    and no other: it marks the status that holds the key and leaves
    every other status, and the index, as they were. *)
Theorem current_key_is_the_key_just_served
    (clock : nat → Q) (r r' : APIKeyRotator) (k : string) :
  well_formed r →
  get_next_key clock r = (Ok (Some k), r') →
  get_current_key r' = Ok (Some k) ∧
  ∀ now cooldown, ∃ r'',
    mark_current_exhausted now cooldown r' = Ok r'' ∧
    cooling k (now + cooldown) r'' ∧
    ∃ p s,
      _keys r' !! p = Some s ∧ key s = k ∧
      (∀ q s', _keys r' !! q = Some s' → key s' = k → q = p) ∧
      r'' = {| _keys := <[p := mark_exhausted now cooldown s]> (_keys r');
               _current_index := _current_index r' |}.
Proof.
  intros Hwf Hnext.
  assert (NoDup (get_all_keys r')) as Hnd.
  { destruct (get_next_key_pool clock r) as [Hkeys _]. rewrite Hnext in Hkeys.
    cbn [snd] in Hkeys. rewrite Hkeys. apply Hwf. }
  assert (_keys r ≠ []) as Hne.
  { intros E. unfold get_next_key in Hnext. by rewrite E in Hnext. }
  rewrite get_next_key_nonempty in Hnext by done.
  apply next_key_loop_current in Hnext as (Hidx' & s & Hs & Hk);
    [|by apply well_formed_index].
  assert (_keys r' ≠ []) as Hne'.
  { intros E. rewrite E in Hidx'. simpl in Hidx'. lia. }
  pose proof (Z.mod_pos_bound (_current_index r' - 1) (Z.of_nat (length (_keys r')))) as Hb.
  unfold get_current_key, mark_current_exhausted.
  destruct (_keys r') as [|s0 l] eqn:E; [done|]. rewrite <-E in *.
  rewrite locate_in_range by lia. rewrite Hs. split; [by rewrite Hk|].
  intros now cooldown. eexists. split; [done|]. split.
  - exists (mark_exhausted now cooldown s). cbn [_keys].
    split_and!; [|done..|apply Qle_refl].
    eapply list_elem_of_lookup_2, list_lookup_insert_eq. lia.
  - eexists _, s. split_and!; [done..| |done].
    intros q s' Hq Hk'. eapply NoDup_lookup; [exact Hnd|..];
      unfold get_all_keys; rewrite list_lookup_fmap.
    + by rewrite Hq.
    + rewrite Hs. simpl. congruence.
Qed.

Lemma three_keys_well_formed :
  well_formed (initialize_rotator 0%Q (λ _, 0%Q) "k1" "k2:b, k3" empty_rotator).
Proof.
  split; [|by vm_compute]. apply (bool_decide_unpack _). by vm_compute.
Qed.

Lemma rotator_operations_keep_the_pool_well_formed_witness :
  ∃ k r',
    get_next_key (λ _, 0%Q)
      (initialize_rotator 0%Q (λ _, 0%Q) "k1" "k2:b, k3" empty_rotator) = (Ok k, r') ∧
    well_formed r'.
Proof.
  destruct (rotator_operations_keep_the_pool_well_formed
              (initialize_rotator 0%Q (λ _, 0%Q) "k1" "k2:b, k3" empty_rotator)
              three_keys_well_formed) as (_ & _ & _ & _ & H & _).
  destruct (H (λ _, 0%Q)) as (k & r' & ? & ? & _). by exists k, r'.
Defined.

Lemma round_robin_serves_the_keys_in_turn_witness :
  (next_keys [λ _, 1%Q; λ _, 10%Q]
     (get_next_key (λ _, 0%Q)
        (initialize_rotator 0%Q (λ _, 0%Q) "k1" "k2:b, k3" empty_rotator)).2).1 =
  [Some "k2"; Some "k3"].
Proof.
  refine (proj1 (round_robin_serves_the_keys_in_turn [λ _, 1%Q; λ _, 10%Q] _ _ _ _)).
  - split; [|by vm_compute]. apply (bool_decide_unpack _). by vm_compute.
  - vm_compute. by repeat constructor.
  - vm_compute. lia.
Defined.

Lemma exhausted_key_is_not_served_while_cooling_witness :
  Some "k2" ∉
    (next_keys [λ _, 1%Q; λ _, 10%Q; λ _, 30%Q; λ _, 60%Q]
       (mark_key_exhausted 0%Q "k2" 60%Q
          (initialize_rotator 0%Q (λ _, 0%Q) "k1" "k2:b, k3" empty_rotator))).1.
Proof.
  apply exhausted_key_is_not_served_while_cooling.
  - apply three_keys_well_formed.
  - repeat constructor; intros _; by vm_compute.
Defined.

Lemma no_key_is_served_iff_all_are_cooling_witness :
  (get_next_key (λ _, 10%Q)
     (mark_key_exhausted 0%Q "k1" 60%Q (add_key 0%Q "k1" "primary" empty_rotator))).1 = Ok None ↔
  Forall (λ s, is_exhausted s = true ∧ (10 <= exhausted_until s)%Q)
    (_keys (mark_key_exhausted 0%Q "k1" 60%Q (add_key 0%Q "k1" "primary" empty_rotator))).
Proof.
  refine (proj1 (no_key_is_served_iff_all_are_cooling 10%Q _ _)).
  split; [|by vm_compute]. apply (bool_decide_unpack _). by vm_compute.
Defined.

Lemma current_key_is_the_key_just_served_witness :
  get_current_key
    (get_next_key (λ _, 0%Q)
       (initialize_rotator 0%Q (λ _, 0%Q) "k1" "k2:b, k3" empty_rotator)).2 = Ok (Some "k1").
Proof.
  refine (proj1 (current_key_is_the_key_just_served (λ _, 0%Q)
                   (initialize_rotator 0%Q (λ _, 0%Q) "k1" "k2:b, k3" empty_rotator) _ "k1" _ _)).
  - apply three_keys_well_formed.
  - by vm_compute.
Defined.

End rotator.
